(** * step-51: hybridizable discontinuous Galerkin assembly, static
    condensation, trace reconstruction and post-processing

    A shallow embedding of [examples/step-51/step-51.cc].  The C++ program
    computes with [double]; here every number lives in an arbitrary real
    field [R] (exact arithmetic), so that "exact dense inverse" and "equal"
    have their algebraic meaning.  Dense blocks ([FullMatrix<double>],
    [Vector<double>] of fixed local size) are MathComp matrices; global
    vectors, whose size is only known at run time, are sequences.  Loops are
    folds over index sequences, in-place updates are explicit state
    passing, and the two ways the assembly can abort (a failed [Assert] in
    the convection field, a singular local block) are results in a small
    error monad. *)

From HB Require Import structures.
From mathcomp Require Import boot order.
From mathcomp Require Import ssralg ssrnum ssrint rat matrix.
From mathcomp Require Import ring_tactic field_tactic arithmetic_tactic.

Set Implicit Arguments.
Unset Strict Implicit.
Unset Printing Implicit Defensive.

Import GRing.Theory Num.Theory Order.Theory.
Local Open Scope ring_scope.

(** ** Exceptions and the error monad *)

(** The three ways a cycle can abort: [Assert (false, ExcNotImplemented())]
    in [ConvectionVelocity::value], a local block that [gauss_jordan] cannot
    invert, and the GMRES solver giving up. *)
Inductive exception := ExcNotImplemented | ExcNotRegular | NoConvergence.

Inductive result (T : Type) := Ok of T | Raise of exception.
Arguments Raise {T} e.

Definition rbind {A B : Type} (c : result A) (k : A -> result B) : result B :=
  match c with
  | Ok a => k a
  | Raise e => Raise e
  end.

Notation "x <-- c ;; k" := (rbind c (fun x => k))
  (at level 61, c at next level, right associativity).

(** ** Loops *)

(** [for (i in r) s = body i s] for a body that cannot fail. *)
Definition for_each {I S : Type} (r : seq I) (body : I -> S -> S) (s : S) : S :=
  foldl (fun acc i => body i acc) s r.
Arguments for_each : simpl never.

(** The same loop for a body that may raise: the first exception ends it. *)
Fixpoint for_each_m {I S : Type} (r : seq I) (body : I -> S -> result S)
    (s : S) : result S :=
  match r with
  | [::] => Ok s
  | i :: r' => s' <-- body i s ;; for_each_m r' body s'
  end.

(** [for (k = 0; k < support.size(); ++k) { kk = support[k]; ... }]: the loop
    variable together with the entry it selects. *)
Definition enumerate {T : Type} (s : seq T) : seq (nat * T) :=
  zip (iota 0 (size s)) s.

(** ** Dense linear algebra: [FullMatrix<double>] and [Vector<double>] *)

Section FullMatrix.

Variable R : realFieldType.

(** [M(i,j) += v] *)
Definition add_entry {m n : nat} (M : 'M[R]_(m, n)) (i : 'I_m) (j : 'I_n)
    (v : R) : 'M[R]_(m, n) :=
  \matrix_(a, b) (if (a == i) && (b == j) then M a b + v else M a b).

(** [M(i,j) -= v] *)
Definition sub_entry {m n : nat} (M : 'M[R]_(m, n)) (i : 'I_m) (j : 'I_n)
    (v : R) : 'M[R]_(m, n) :=
  \matrix_(a, b) (if (a == i) && (b == j) then M a b - v else M a b).

(** [M(i,j) = v] *)
Definition set_entry {m n : nat} (M : 'M[R]_(m, n)) (i : 'I_m) (j : 'I_n)
    (v : R) : 'M[R]_(m, n) :=
  \matrix_(a, b) (if (a == i) && (b == j) then v else M a b).

(** [A.mmult (C, B, adding)].  [FullMatrix] is library code that is not part
    of the example file; its operations are modelled after their documented
    contracts.  This one: [C = A*B], or [C += A*B] when [adding]. *)
Definition mmult {m n p : nat} (A : 'M[R]_(m, n)) (C : 'M[R]_(m, p))
    (B : 'M[R]_(n, p)) (adding : bool) : 'M[R]_(m, p) :=
  if adding then C + A *m B else A *m B.

(** [A.vmult (w, v)]: [w = A*v]. *)
Definition vmult {m n : nat} (A : 'M[R]_(m, n)) (v : 'cV[R]_n) : 'cV[R]_m :=
  A *m v.

(** [A.vmult_add (w, v)]: [w += A*v]. *)
Definition vmult_add {m n : nat} (A : 'M[R]_(m, n)) (w : 'cV[R]_m)
    (v : 'cV[R]_n) : 'cV[R]_m :=
  w + A *m v.

(** Modelled from the spec: [FullMatrix::gauss_jordan] is library code that is
    not part of the example file.  The specification describes it as the
    exact dense inverse, computed in place, whose precondition (an invertible
    matrix) is fatal when violated. *)
Definition gauss_jordan {n : nat} (A : 'M[R]_n) : result 'M[R]_n :=
  if A \in unitmx then Ok (invmx A) else Raise ExcNotRegular.

End FullMatrix.

(** ** Global vectors: [Vector<double>] sized at run time *)

Section GlobalVector.

Variable R : realFieldType.

(** [v(i) = x].  The library asserts [i < v.size()]; an index out of range
    leaves the vector as it is. *)
Definition vector_set (v : seq R) (i : nat) (x : R) : seq R :=
  if (i < size v)%N then set_nth 0 v i x else v.

(** [v(i) += x], with the same convention. *)
Definition vector_add (v : seq R) (i : nat) (x : R) : seq R :=
  vector_set v i (nth 0 v i + x).

(** [v.reinit (n)]: size [n], all entries zero. *)
Definition vector_reinit (n : nat) : seq R := nseq n 0.

End GlobalVector.

(** ** The element-level data model *)

Section Model.

Variable R : realFieldType.

(** Space dimension (the template parameter [dim]). *)
Variable dim : nat.

(** [n_q_points], [fe_local.dofs_per_cell], [fe.dofs_per_cell],
    [n_face_q_points]. *)
Variables (n_q_points loc_dofs_per_cell dofs_per_cell n_face_q_points : nat).

(** [fe_u_post.dofs_per_cell] is [post_dofs.+1] (an [FE_DGQ] space is never
    empty, and row 0 of the post-processing system is addressed
    unconditionally); [post_q_points] is the size of the post-processing
    quadrature. *)
Variables (post_dofs post_q_points : nat).

(** [Tensor<1,dim>] and [Point<dim>]. *)
Definition Tensor := 'rV[R]_dim.
Definition Point := 'rV[R]_dim.

(** [a * b] on rank-1 tensors: the contraction. *)
Definition dot (a b : Tensor) : R := \sum_(d < dim) a 0 d * b 0 d.

(** [p[d]] *)
Definition coord (p : Point) (d : nat) : R :=
  if insub d is Some i then p 0 (i : 'I_dim) else 0.

(** [GeometryInfo<dim>::faces_per_cell] *)
Definition faces_per_cell : nat := (2 * dim)%N.

(** [ConvectionVelocity<dim>::value]: the tensor starts at zero, the [switch]
    fills it, and the [default] branch is [Assert (false, ...)], which aborts
    in a debug build (a release build compiles the assertion away). *)
Definition ConvectionVelocity_value (p : Point) : result Tensor :=
  match dim with
  | 1%N => Ok (\row_(d < dim) (if (d : nat) == 0%N then 1 else 0))
  | 2%N => Ok (\row_(d < dim) (if (d : nat) == 0%N then coord p 1
                              else if (d : nat) == 1%N then - coord p 0 else 0))
  | 3%N => Ok (\row_(d < dim) (if (d : nat) == 0%N then coord p 1
                              else if (d : nat) == 1%N then - coord p 0
                              else if (d : nat) == 2%N then 1 else 0))
  | _ => Raise ExcNotImplemented
  end.

(** The dimensions the [switch] covers. *)
Definition dim_supported : bool := (dim == 1%N) || (dim == 2%N) || (dim == 3%N).

(** The equation data that involve [std::exp]: the Gaussian sum of
    [RightHandSide::value] once the convection at the point is known, and
    [Solution::value]. *)
Record EquationData := {
  right_hand_side_sum : Tensor -> Point -> R;
  exact_solution_value : Point -> R
}.

(** [RightHandSide<dim>::value]: evaluates the convection first. *)
Definition RightHandSide_value (data : EquationData) (p : Point) : result R :=
  convection <-- ConvectionVelocity_value p ;;
  Ok (right_hand_side_sum data convection p).

(** What [fe_values_local.reinit (loc_cell)] makes available. *)
Record FEValues_local := {
  fluxes_value : 'I_loc_dofs_per_cell -> 'I_n_q_points -> Tensor;
  fluxes_divergence : 'I_loc_dofs_per_cell -> 'I_n_q_points -> R;
  scalar_value : 'I_loc_dofs_per_cell -> 'I_n_q_points -> R;
  scalar_gradient : 'I_loc_dofs_per_cell -> 'I_n_q_points -> Tensor;
  JxW : 'I_n_q_points -> R;
  quadrature_point : 'I_n_q_points -> Point
}.

(** What [fe_face_values_local.reinit (loc_cell, face)] and
    [fe_face_values.reinit (cell, face)] make available, with the two
    properties of [cell->face (face)] the assembly asks for. *)
Record FEFaceValues := {
  face_fluxes_value : 'I_loc_dofs_per_cell -> 'I_n_face_q_points -> Tensor;
  face_scalar_value : 'I_loc_dofs_per_cell -> 'I_n_face_q_points -> R;
  shape_value : 'I_dofs_per_cell -> 'I_n_face_q_points -> R;
  face_JxW : 'I_n_face_q_points -> R;
  normal_vector : 'I_n_face_q_points -> Tensor;
  face_quadrature_point : 'I_n_face_q_points -> Point;
  at_boundary : bool;
  boundary_indicator : nat
}.

(** What the post-processing loop reads on one cell: [fe_values] of the
    recovery space and [fe_values_local] on the post-processing quadrature. *)
Record FEValues_post := {
  post_shape_grad : 'I_post_dofs.+1 -> 'I_post_q_points -> Tensor;
  post_shape_value : 'I_post_dofs.+1 -> 'I_post_q_points -> R;
  post_JxW : 'I_post_q_points -> R;
  post_scalar_value : 'I_loc_dofs_per_cell -> 'I_post_q_points -> R;
  post_fluxes_value : 'I_loc_dofs_per_cell -> 'I_post_q_points -> Tensor;
  post_dof_indices : 'I_post_dofs.+1 -> nat
}.

(** An active cell, seen through the three DoF handlers. *)
Record Cell := {
  fe_values_local : FEValues_local;
  cell_face : 'I_faces_per_cell -> FEFaceValues;
  get_dof_indices : 'I_dofs_per_cell -> nat;
  loc_dof_indices : 'I_loc_dofs_per_cell -> nat;
  fe_values_post : FEValues_post
}.

(** [FiniteElement::has_support_on_face] of [fe_local] and of [fe]. *)
Record FiniteElements := {
  fe_local_has_support_on_face : 'I_loc_dofs_per_cell -> 'I_faces_per_cell -> bool;
  fe_has_support_on_face : 'I_dofs_per_cell -> 'I_faces_per_cell -> bool
}.

(** [FEValuesBase::get_function_values] (library code, modelled after its
    documented contract): the finite element function with coefficients [v]
    at every quadrature point. *)
Definition get_function_values {n k : nat} (shape : 'I_n -> 'I_k -> R)
    (dofs : 'I_n -> nat) (v : seq R) : seq R :=
  [seq \sum_(j < n) nth 0 v (dofs j) * shape j q | q <- enum 'I_k].

(** The same through a vector-valued extractor. *)
Definition get_function_values_vector {n k : nat}
    (shape : 'I_n -> 'I_k -> Tensor) (dofs : 'I_n -> nat) (v : seq R)
    : seq Tensor :=
  [seq \sum_(j < n) nth 0 v (dofs j) *: shape j q | q <- enum 'I_k].

(** [cell->set_dof_values (local, global)] (library code, modelled after
    its documented contract): the local values overwrite the global ones. *)
Definition set_dof_values {n : nat} (dofs : 'I_n -> nat) (local : 'cV[R]_n)
    (global : seq R) : seq R :=
  for_each (enum 'I_n) (fun i g => vector_set g (dofs i) (local i 0)) global.

(** [cell->distribute_local_to_global (local, global)] (library code,
    modelled after its documented contract): the local values are added to
    the global ones. *)
Definition cell_distribute_local_to_global {n : nat} (dofs : 'I_n -> nat)
    (local : 'cV[R]_n) (global : seq R) : seq R :=
  for_each (enum 'I_n) (fun i g => vector_add g (dofs i) (local i 0)) global.

(** [Step51::ScratchData].  The three [FEValues] objects are read from the
    cell they were last reinitialised on, and the function objects from the
    equation data; [solution] and [solution_local] are references to the
    vectors of the [Step51] object, threaded through explicitly. *)
Record ScratchData := {
  scratch_solution : seq R;
  scratch_solution_local : seq R;
  ll_matrix : 'M[R]_(loc_dofs_per_cell, loc_dofs_per_cell);
  lf_matrix : 'M[R]_(loc_dofs_per_cell, dofs_per_cell);
  fl_matrix : 'M[R]_(dofs_per_cell, loc_dofs_per_cell);
  tmp_matrix : 'M[R]_(dofs_per_cell, loc_dofs_per_cell);
  ff_matrix : 'M[R]_(dofs_per_cell, dofs_per_cell);
  l_rhs : 'cV[R]_loc_dofs_per_cell;
  f_rhs : 'cV[R]_dofs_per_cell;
  tmp_rhs : 'cV[R]_loc_dofs_per_cell;
  q_phi : seq Tensor;
  q_phi_div : seq R;
  u_phi : seq R;
  u_phi_grad : seq Tensor;
  tr_phi : seq R;
  trace_values : seq R;
  fe_local_support_on_face : 'I_faces_per_cell -> seq 'I_loc_dofs_per_cell;
  fe_support_on_face : 'I_faces_per_cell -> seq 'I_dofs_per_cell;
  scratch_trace_reconstruct : bool
}.

(** Assignments to the members of [ScratchData]. *)
Definition set_scratch_solution_local (v : seq R) (s : ScratchData) :
    ScratchData :=
  Build_ScratchData (scratch_solution s) v (ll_matrix s) (lf_matrix s)
    (fl_matrix s) (tmp_matrix s) (ff_matrix s) (l_rhs s) (f_rhs s) (tmp_rhs s)
    (q_phi s) (q_phi_div s) (u_phi s) (u_phi_grad s) (tr_phi s)
    (trace_values s) (fe_local_support_on_face s) (fe_support_on_face s)
    (scratch_trace_reconstruct s).

Definition set_ll_matrix (v : 'M[R]_(loc_dofs_per_cell, loc_dofs_per_cell))
    (s : ScratchData) : ScratchData :=
  Build_ScratchData (scratch_solution s) (scratch_solution_local s) v
    (lf_matrix s) (fl_matrix s) (tmp_matrix s) (ff_matrix s) (l_rhs s)
    (f_rhs s) (tmp_rhs s) (q_phi s) (q_phi_div s) (u_phi s) (u_phi_grad s)
    (tr_phi s) (trace_values s) (fe_local_support_on_face s)
    (fe_support_on_face s) (scratch_trace_reconstruct s).

Definition set_lf_matrix (v : 'M[R]_(loc_dofs_per_cell, dofs_per_cell))
    (s : ScratchData) : ScratchData :=
  Build_ScratchData (scratch_solution s) (scratch_solution_local s)
    (ll_matrix s) v (fl_matrix s) (tmp_matrix s) (ff_matrix s) (l_rhs s)
    (f_rhs s) (tmp_rhs s) (q_phi s) (q_phi_div s) (u_phi s) (u_phi_grad s)
    (tr_phi s) (trace_values s) (fe_local_support_on_face s)
    (fe_support_on_face s) (scratch_trace_reconstruct s).

Definition set_fl_matrix (v : 'M[R]_(dofs_per_cell, loc_dofs_per_cell))
    (s : ScratchData) : ScratchData :=
  Build_ScratchData (scratch_solution s) (scratch_solution_local s)
    (ll_matrix s) (lf_matrix s) v (tmp_matrix s) (ff_matrix s) (l_rhs s)
    (f_rhs s) (tmp_rhs s) (q_phi s) (q_phi_div s) (u_phi s) (u_phi_grad s)
    (tr_phi s) (trace_values s) (fe_local_support_on_face s)
    (fe_support_on_face s) (scratch_trace_reconstruct s).

Definition set_tmp_matrix (v : 'M[R]_(dofs_per_cell, loc_dofs_per_cell))
    (s : ScratchData) : ScratchData :=
  Build_ScratchData (scratch_solution s) (scratch_solution_local s)
    (ll_matrix s) (lf_matrix s) (fl_matrix s) v (ff_matrix s) (l_rhs s)
    (f_rhs s) (tmp_rhs s) (q_phi s) (q_phi_div s) (u_phi s) (u_phi_grad s)
    (tr_phi s) (trace_values s) (fe_local_support_on_face s)
    (fe_support_on_face s) (scratch_trace_reconstruct s).

Definition set_ff_matrix (v : 'M[R]_(dofs_per_cell, dofs_per_cell))
    (s : ScratchData) : ScratchData :=
  Build_ScratchData (scratch_solution s) (scratch_solution_local s)
    (ll_matrix s) (lf_matrix s) (fl_matrix s) (tmp_matrix s) v (l_rhs s)
    (f_rhs s) (tmp_rhs s) (q_phi s) (q_phi_div s) (u_phi s) (u_phi_grad s)
    (tr_phi s) (trace_values s) (fe_local_support_on_face s)
    (fe_support_on_face s) (scratch_trace_reconstruct s).

Definition set_l_rhs (v : 'cV[R]_loc_dofs_per_cell) (s : ScratchData) :
    ScratchData :=
  Build_ScratchData (scratch_solution s) (scratch_solution_local s)
    (ll_matrix s) (lf_matrix s) (fl_matrix s) (tmp_matrix s) (ff_matrix s) v
    (f_rhs s) (tmp_rhs s) (q_phi s) (q_phi_div s) (u_phi s) (u_phi_grad s)
    (tr_phi s) (trace_values s) (fe_local_support_on_face s)
    (fe_support_on_face s) (scratch_trace_reconstruct s).

Definition set_f_rhs (v : 'cV[R]_dofs_per_cell) (s : ScratchData) :
    ScratchData :=
  Build_ScratchData (scratch_solution s) (scratch_solution_local s)
    (ll_matrix s) (lf_matrix s) (fl_matrix s) (tmp_matrix s) (ff_matrix s)
    (l_rhs s) v (tmp_rhs s) (q_phi s) (q_phi_div s) (u_phi s) (u_phi_grad s)
    (tr_phi s) (trace_values s) (fe_local_support_on_face s)
    (fe_support_on_face s) (scratch_trace_reconstruct s).

Definition set_tmp_rhs (v : 'cV[R]_loc_dofs_per_cell) (s : ScratchData) :
    ScratchData :=
  Build_ScratchData (scratch_solution s) (scratch_solution_local s)
    (ll_matrix s) (lf_matrix s) (fl_matrix s) (tmp_matrix s) (ff_matrix s)
    (l_rhs s) (f_rhs s) v (q_phi s) (q_phi_div s) (u_phi s) (u_phi_grad s)
    (tr_phi s) (trace_values s) (fe_local_support_on_face s)
    (fe_support_on_face s) (scratch_trace_reconstruct s).

Definition set_q_phi (v : seq Tensor) (s : ScratchData) : ScratchData :=
  Build_ScratchData (scratch_solution s) (scratch_solution_local s)
    (ll_matrix s) (lf_matrix s) (fl_matrix s) (tmp_matrix s) (ff_matrix s)
    (l_rhs s) (f_rhs s) (tmp_rhs s) v (q_phi_div s) (u_phi s) (u_phi_grad s)
    (tr_phi s) (trace_values s) (fe_local_support_on_face s)
    (fe_support_on_face s) (scratch_trace_reconstruct s).

Definition set_q_phi_div (v : seq R) (s : ScratchData) : ScratchData :=
  Build_ScratchData (scratch_solution s) (scratch_solution_local s)
    (ll_matrix s) (lf_matrix s) (fl_matrix s) (tmp_matrix s) (ff_matrix s)
    (l_rhs s) (f_rhs s) (tmp_rhs s) (q_phi s) v (u_phi s) (u_phi_grad s)
    (tr_phi s) (trace_values s) (fe_local_support_on_face s)
    (fe_support_on_face s) (scratch_trace_reconstruct s).

Definition set_u_phi (v : seq R) (s : ScratchData) : ScratchData :=
  Build_ScratchData (scratch_solution s) (scratch_solution_local s)
    (ll_matrix s) (lf_matrix s) (fl_matrix s) (tmp_matrix s) (ff_matrix s)
    (l_rhs s) (f_rhs s) (tmp_rhs s) (q_phi s) (q_phi_div s) v (u_phi_grad s)
    (tr_phi s) (trace_values s) (fe_local_support_on_face s)
    (fe_support_on_face s) (scratch_trace_reconstruct s).

Definition set_u_phi_grad (v : seq Tensor) (s : ScratchData) : ScratchData :=
  Build_ScratchData (scratch_solution s) (scratch_solution_local s)
    (ll_matrix s) (lf_matrix s) (fl_matrix s) (tmp_matrix s) (ff_matrix s)
    (l_rhs s) (f_rhs s) (tmp_rhs s) (q_phi s) (q_phi_div s) (u_phi s) v
    (tr_phi s) (trace_values s) (fe_local_support_on_face s)
    (fe_support_on_face s) (scratch_trace_reconstruct s).

Definition set_tr_phi (v : seq R) (s : ScratchData) : ScratchData :=
  Build_ScratchData (scratch_solution s) (scratch_solution_local s)
    (ll_matrix s) (lf_matrix s) (fl_matrix s) (tmp_matrix s) (ff_matrix s)
    (l_rhs s) (f_rhs s) (tmp_rhs s) (q_phi s) (q_phi_div s) (u_phi s)
    (u_phi_grad s) v (trace_values s) (fe_local_support_on_face s)
    (fe_support_on_face s) (scratch_trace_reconstruct s).

Definition set_trace_values (v : seq R) (s : ScratchData) : ScratchData :=
  Build_ScratchData (scratch_solution s) (scratch_solution_local s)
    (ll_matrix s) (lf_matrix s) (fl_matrix s) (tmp_matrix s) (ff_matrix s)
    (l_rhs s) (f_rhs s) (tmp_rhs s) (q_phi s) (q_phi_div s) (u_phi s)
    (u_phi_grad s) (tr_phi s) v (fe_local_support_on_face s)
    (fe_support_on_face s) (scratch_trace_reconstruct s).
(** [Step51::PerTaskData] *)
Record PerTaskData := {
  cell_matrix : 'M[R]_(dofs_per_cell, dofs_per_cell);
  cell_vector : 'cV[R]_dofs_per_cell;
  dof_indices : seq nat;
  task_trace_reconstruct : bool
}.

(** The constructor of [PerTaskData]. *)
Definition PerTaskData_init (trace_reconstruct : bool) : PerTaskData :=
  Build_PerTaskData 0 0 (nseq dofs_per_cell 0%N) trace_reconstruct.

(** The two loops of the constructor of [ScratchData]: face by face, the
    shape functions with support there, in increasing order. *)
Definition local_support_of (fes : FiniteElements) (face : 'I_faces_per_cell)
    : seq 'I_loc_dofs_per_cell :=
  [seq i <- enum 'I_loc_dofs_per_cell
  | fe_local_has_support_on_face fes i face].

Definition support_of (fes : FiniteElements) (face : 'I_faces_per_cell)
    : seq 'I_dofs_per_cell :=
  [seq i <- enum 'I_dofs_per_cell | fe_has_support_on_face fes i face].

(** The full constructor of [ScratchData]: blocks and caches are zero. *)
Definition ScratchData_init (fes : FiniteElements)
    (solution solution_local : seq R) (trace_reconstruct : bool)
    : ScratchData :=
  Build_ScratchData solution solution_local 0 0 0 0 0 0 0 0
    (nseq loc_dofs_per_cell 0) (nseq loc_dofs_per_cell 0)
    (nseq loc_dofs_per_cell 0) (nseq loc_dofs_per_cell 0)
    (nseq dofs_per_cell 0) (nseq n_face_q_points 0)
    (local_support_of fes) (support_of fes) trace_reconstruct.

(** ** [Step51::assemble_system_one_cell] *)

(** [const double tau_stab_diffusion = 5.;] *)
Definition tau_stab_diffusion : R := 5.

(** [tau_stab = tau_stab_diffusion + std::abs (convection * normal)] *)
Definition tau_stab (convection normal : Tensor) : R :=
  tau_stab_diffusion + `|dot convection normal|.

(** The body of the loop over the interior quadrature points, once the source
    and the convection at the point are known.  Its first loop copies the
    values of the shape functions at the point to the caches. *)
Definition volume_fill_caches (fv : FEValues_local) (q : 'I_n_q_points)
    (scratch : ScratchData) : ScratchData :=
  for_each (enum 'I_loc_dofs_per_cell) (fun k s =>
    let s := set_q_phi (set_nth 0 (q_phi s) k (fluxes_value fv k q)) s in
    let s :=
      set_q_phi_div (set_nth 0 (q_phi_div s) k (fluxes_divergence fv k q)) s in
    let s := set_u_phi (set_nth 0 (u_phi s) k (scalar_value fv k q)) s in
    set_u_phi_grad (set_nth 0 (u_phi_grad s) k (scalar_gradient fv k q)) s)
    scratch.

(** Its second loop adds to [ll_matrix] and [l_rhs]. *)
Definition volume_accumulate (fv : FEValues_local) (q : 'I_n_q_points)
    (rhs_value : R) (convection : Tensor) (scratch : ScratchData)
    : ScratchData :=
  let w := JxW fv q in
  for_each (enum 'I_loc_dofs_per_cell) (fun i s =>
    let s :=
      for_each (enum 'I_loc_dofs_per_cell) (fun j s =>
        set_ll_matrix
          (add_entry (ll_matrix s) i j
             ((dot (nth 0 (q_phi s) i) (nth 0 (q_phi s) j)
               - nth 0 (q_phi_div s) i * nth 0 (u_phi s) j
               + nth 0 (u_phi s) i * nth 0 (q_phi_div s) j
               - dot (nth 0 (u_phi_grad s) i) convection * nth 0 (u_phi s) j)
              * w)) s) s in
    set_l_rhs (add_entry (l_rhs s) i 0 (nth 0 (u_phi s) i * rhs_value * w)) s)
    scratch.

Definition assemble_volume_point (fv : FEValues_local) (q : 'I_n_q_points)
    (rhs_value : R) (convection : Tensor) (scratch : ScratchData)
    : ScratchData :=
  volume_accumulate fv q rhs_value convection (volume_fill_caches fv q scratch).

(** One pass of the loop over the interior quadrature points: the two
    function evaluations, then the body. *)
Definition assemble_volume_q (data : EquationData) (fv : FEValues_local)
    (q : 'I_n_q_points) (scratch : ScratchData) : result ScratchData :=
  rhs_value <-- RightHandSide_value data (quadrature_point fv q) ;;
  convection <-- ConvectionVelocity_value (quadrature_point fv q) ;;
  Ok (assemble_volume_point fv q rhs_value convection scratch).

(** The body of the loop over the quadrature points of one face, once the
    convection at the point is known, loop by loop.  The support lists are
    traversed with the position [k.1] and the entry [k.2]. *)
Section FacePointLoops.

Variables (fv : FEFaceValues) (q : 'I_n_face_q_points) (convection : Tensor).
Variable local_support : seq (nat * 'I_loc_dofs_per_cell).
Variable support : seq (nat * 'I_dofs_per_cell).

(** [q_phi[k]] and [u_phi[k]] *)
Definition face_fill_local (scratch : ScratchData) : ScratchData :=
  for_each local_support (fun k s =>
    let s := set_q_phi (set_nth 0 (q_phi s) k.1 (face_fluxes_value fv k.2 q)) s in
    set_u_phi (set_nth 0 (u_phi s) k.1 (face_scalar_value fv k.2 q)) s)
    scratch.

(** [tr_phi[k]] *)
Definition face_fill_trace (scratch : ScratchData) : ScratchData :=
  for_each support (fun k s =>
    set_tr_phi (set_nth 0 (tr_phi s) k.1 (shape_value fv k.2 q)) s) scratch.

(** [lf_matrix (ii, jj) += ...] and [fl_matrix (jj, ii) -= ...] *)
Definition face_couple (scratch : ScratchData) : ScratchData :=
  let w := face_JxW fv q in
  let normal := normal_vector fv q in
  let tau := tau_stab convection normal in
  for_each local_support (fun i s =>
    for_each support (fun j s =>
      let s :=
        set_lf_matrix
          (add_entry (lf_matrix s) i.2 j.2
             ((dot (nth 0 (q_phi s) i.1) normal
               + (dot convection normal - tau) * nth 0 (u_phi s) i.1)
              * nth 0 (tr_phi s) j.1 * w)) s in
      set_fl_matrix
        (sub_entry (fl_matrix s) j.2 i.2
           ((dot (nth 0 (q_phi s) i.1) normal + tau * nth 0 (u_phi s) i.1)
            * nth 0 (tr_phi s) j.1 * w)) s) s)
    scratch.

(** [ff_matrix (ii, jj) += ...] *)
Definition face_skeleton (scratch : ScratchData) : ScratchData :=
  let w := face_JxW fv q in
  let normal := normal_vector fv q in
  let tau := tau_stab convection normal in
  for_each support (fun i s =>
    for_each support (fun j s =>
      set_ff_matrix
        (add_entry (ff_matrix s) i.2 j.2
           ((dot convection normal - tau)
            * nth 0 (tr_phi s) i.1 * nth 0 (tr_phi s) j.1 * w)) s) s)
    scratch.

(** [f_rhs (ii) -= tr_phi[i] * neumann_value * JxW] *)
Definition face_neumann_loop (data : EquationData) (scratch : ScratchData)
    : ScratchData :=
  let w := face_JxW fv q in
  let neumann_value := exact_solution_value data (face_quadrature_point fv q) in
  for_each support (fun i s =>
    set_f_rhs
      (sub_entry (f_rhs s) i.2 0 (nth 0 (tr_phi s) i.1 * neumann_value * w)) s)
    scratch.

(** [ll_matrix (ii, jj) += tau_stab * u_phi[i] * u_phi[j] * JxW] *)
Definition face_penalty (scratch : ScratchData) : ScratchData :=
  let w := face_JxW fv q in
  let tau := tau_stab convection (normal_vector fv q) in
  for_each local_support (fun i s =>
    for_each local_support (fun j s =>
      set_ll_matrix
        (add_entry (ll_matrix s) i.2 j.2
           (tau * nth 0 (u_phi s) i.1 * nth 0 (u_phi s) j.1 * w)) s) s)
    scratch.

(** [l_rhs (ii) -= ... * trace_values[q] * JxW] *)
Definition face_fold_trace (scratch : ScratchData) : ScratchData :=
  let w := face_JxW fv q in
  let normal := normal_vector fv q in
  let tau := tau_stab convection normal in
  for_each local_support (fun i s =>
    set_l_rhs
      (sub_entry (l_rhs s) i.2 0
         ((dot (nth 0 (q_phi s) i.1) normal
           + nth 0 (u_phi s) i.1 * (dot convection normal - tau))
          * nth 0 (trace_values s) q * w)) s)
    scratch.

(** The body over given support lists. *)
Definition face_point_loops (data : EquationData) (scratch : ScratchData)
    : ScratchData :=
  let scratch := face_fill_local scratch in
  let scratch :=
    if ~~ scratch_trace_reconstruct scratch then
      let scratch := face_skeleton (face_couple (face_fill_trace scratch)) in
      if at_boundary fv && (boundary_indicator fv == 1%N)
      then face_neumann_loop data scratch else scratch
    else scratch in
  let scratch := face_penalty scratch in
  if scratch_trace_reconstruct scratch then face_fold_trace scratch
  else scratch.

End FacePointLoops.

Definition assemble_face_point (data : EquationData) (fv : FEFaceValues)
    (face : 'I_faces_per_cell) (q : 'I_n_face_q_points) (convection : Tensor)
    (scratch : ScratchData) : ScratchData :=
  face_point_loops fv q convection
    (enumerate (fe_local_support_on_face scratch face))
    (enumerate (fe_support_on_face scratch face)) data scratch.

(** One pass of the loop over the face quadrature points. *)
Definition assemble_face_q (data : EquationData) (fv : FEFaceValues)
    (face : 'I_faces_per_cell) (q : 'I_n_face_q_points)
    (scratch : ScratchData) : result ScratchData :=
  convection <-- ConvectionVelocity_value (face_quadrature_point fv q) ;;
  Ok (assemble_face_point data fv face q convection scratch).

(** [if (trace_reconstruct) fe_face_values.get_function_values
    (solution, trace_values)], at the head of the loop over the faces. *)
Definition read_trace (cell : Cell) (face : 'I_faces_per_cell)
    (scratch : ScratchData) : ScratchData :=
  if scratch_trace_reconstruct scratch then
    set_trace_values
      (get_function_values (shape_value (cell_face cell face))
         (get_dof_indices cell) (scratch_solution scratch)) scratch
  else scratch.

(** One pass of the loop over the faces of the cell. *)
Definition assemble_face (data : EquationData) (cell : Cell)
    (face : 'I_faces_per_cell) (scratch : ScratchData) : result ScratchData :=
  for_each_m (enum 'I_n_face_q_points)
    (assemble_face_q data (cell_face cell face) face)
    (read_trace cell face scratch).

(** The assignments of zero at the head of [assemble_system_one_cell]:
    [ll_matrix] and [l_rhs] always, the other blocks on the assembly pass. *)
Definition reset_blocks (scratch : ScratchData) : ScratchData :=
  let scratch := set_l_rhs 0 (set_ll_matrix 0 scratch) in
  if ~~ scratch_trace_reconstruct scratch then
    set_f_rhs 0 (set_ff_matrix 0 (set_fl_matrix 0 (set_lf_matrix 0 scratch)))
  else scratch.

(** The first part of [assemble_system_one_cell]: the blocks are reset and
    filled by the volume and face loops. *)
Definition assemble_local_blocks (data : EquationData) (cell : Cell)
    (scratch : ScratchData) : result ScratchData :=
  scratch <-- for_each_m (enum 'I_n_q_points)
               (assemble_volume_q data (fe_values_local cell))
               (reset_blocks scratch) ;;
  for_each_m (enum 'I_faces_per_cell) (assemble_face data cell) scratch.

(** The second part: [ll_matrix] is inverted in place, and then either the
    blocks are condensed and copied to the task data, or the interior
    solution of the cell is computed and stored. *)
Definition condense_or_reconstruct (cell : Cell) (scratch : ScratchData)
    (task_data : PerTaskData) : result (ScratchData * PerTaskData) :=
  ll_inverse <-- gauss_jordan (ll_matrix scratch) ;;
  let scratch := set_ll_matrix ll_inverse scratch in
  if scratch_trace_reconstruct scratch == false then
    let scratch :=
      set_tmp_matrix
        (mmult (fl_matrix scratch) (tmp_matrix scratch) (ll_matrix scratch)
           false) scratch in
    let scratch :=
      set_f_rhs
        (vmult_add (tmp_matrix scratch) (f_rhs scratch) (l_rhs scratch))
        scratch in
    let scratch :=
      set_ff_matrix
        (mmult (tmp_matrix scratch) (ff_matrix scratch) (lf_matrix scratch)
           true) scratch in
    Ok (scratch,
        Build_PerTaskData (ff_matrix scratch) (f_rhs scratch)
          [seq get_dof_indices cell j | j <- enum 'I_dofs_per_cell]
          (task_trace_reconstruct task_data))
  else
    let scratch :=
      set_tmp_rhs (vmult (ll_matrix scratch) (l_rhs scratch)) scratch in
    Ok (set_scratch_solution_local
          (set_dof_values (loc_dof_indices cell) (tmp_rhs scratch)
             (scratch_solution_local scratch)) scratch,
        task_data).

Definition assemble_system_one_cell (data : EquationData) (cell : Cell)
    (scratch : ScratchData) (task_data : PerTaskData)
    : result (ScratchData * PerTaskData) :=
  scratch <-- assemble_local_blocks data cell scratch ;;
  condense_or_reconstruct cell scratch task_data.

(** The members of the scratch data that the loops over quadrature points
    only read, or do not use at all. *)
Definition same_context (s s' : ScratchData) : Prop :=
  [/\ scratch_solution s = scratch_solution s',
      scratch_solution_local s = scratch_solution_local s',
      fe_local_support_on_face s = fe_local_support_on_face s',
      fe_support_on_face s = fe_support_on_face s'
    & scratch_trace_reconstruct s = scratch_trace_reconstruct s'].

(** What the loops of a cell guarantee whatever the dimension: the context
    is left alone, and when the flag of the reconstruction pass is set so are
    the skeleton blocks. *)
Definition reconstruction_frame (s0 s : ScratchData) : Prop :=
  same_context s s0
  /\ (scratch_trace_reconstruct s0 ->
      [/\ lf_matrix s = lf_matrix s0, fl_matrix s = fl_matrix s0,
          ff_matrix s = ff_matrix s0 & f_rhs s = f_rhs s0]).

(** ** The contributions of one quadrature point, in closed form *)

(** The test of [assemble_system_one_cell] that selects the faces where the
    Neumann datum goes to [f_rhs]. *)
Definition neumann_face (fv : FEFaceValues) : bool :=
  at_boundary fv && (boundary_indicator fv == 1%N).


(** The convection at a point when the dimension is one the [switch] covers. *)
Definition convection_field (p : Point) : Tensor :=
  if ConvectionVelocity_value p is Ok convection then convection else 0.

(** The source at a point, likewise. *)
Definition source_field (data : EquationData) (p : Point) : R :=
  right_hand_side_sum data (convection_field p) p.

(** Interior quadrature point: what is added to [ll_matrix] and [l_rhs]. *)
Definition volume_ll (fv : FEValues_local) (q : 'I_n_q_points)
    (convection : Tensor) : 'M[R]_(loc_dofs_per_cell, loc_dofs_per_cell) :=
  \matrix_(i, j)
    ((dot (fluxes_value fv i q) (fluxes_value fv j q)
      - fluxes_divergence fv i q * scalar_value fv j q
      + scalar_value fv i q * fluxes_divergence fv j q
      - dot (scalar_gradient fv i q) convection * scalar_value fv j q)
     * JxW fv q).

Definition volume_rhs (fv : FEValues_local) (q : 'I_n_q_points)
    (rhs_value : R) : 'cV[R]_loc_dofs_per_cell :=
  \col_i (scalar_value fv i q * rhs_value * JxW fv q).

(** Face quadrature point: the coefficient that multiplies a trace function
    in [lf_matrix], and the trace value in [l_rhs]. *)
Definition face_flux_coefficient (fv : FEFaceValues) (q : 'I_n_face_q_points)
    (convection : Tensor) (i : 'I_loc_dofs_per_cell) : R :=
  dot (face_fluxes_value fv i q) (normal_vector fv q)
  + (dot convection (normal_vector fv q)
     - tau_stab convection (normal_vector fv q)) * face_scalar_value fv i q.

(** What a face quadrature point adds to [ll_matrix], [lf_matrix],
    [fl_matrix], [ff_matrix], to [f_rhs] on a Neumann face, and to [l_rhs]
    when the trace is known. *)
Definition face_ll (fv : FEFaceValues) (local_support : seq 'I_loc_dofs_per_cell)
    (q : 'I_n_face_q_points) (convection : Tensor)
    : 'M[R]_(loc_dofs_per_cell, loc_dofs_per_cell) :=
  \sum_(i <- local_support) \sum_(j <- local_support)
    (tau_stab convection (normal_vector fv q)
     * face_scalar_value fv i q * face_scalar_value fv j q * face_JxW fv q)
    *: delta_mx i j.

Definition face_lf (fv : FEFaceValues) (local_support : seq 'I_loc_dofs_per_cell)
    (support : seq 'I_dofs_per_cell) (q : 'I_n_face_q_points)
    (convection : Tensor) : 'M[R]_(loc_dofs_per_cell, dofs_per_cell) :=
  \sum_(i <- local_support) \sum_(j <- support)
    (face_flux_coefficient fv q convection i * shape_value fv j q
     * face_JxW fv q) *: delta_mx i j.

Definition face_fl (fv : FEFaceValues) (local_support : seq 'I_loc_dofs_per_cell)
    (support : seq 'I_dofs_per_cell) (q : 'I_n_face_q_points)
    (convection : Tensor) : 'M[R]_(dofs_per_cell, loc_dofs_per_cell) :=
  \sum_(i <- local_support) \sum_(j <- support)
    (- ((dot (face_fluxes_value fv i q) (normal_vector fv q)
         + tau_stab convection (normal_vector fv q) * face_scalar_value fv i q)
        * shape_value fv j q * face_JxW fv q)) *: delta_mx j i.

Definition face_ff (fv : FEFaceValues) (support : seq 'I_dofs_per_cell)
    (q : 'I_n_face_q_points) (convection : Tensor)
    : 'M[R]_(dofs_per_cell, dofs_per_cell) :=
  \sum_(i <- support) \sum_(j <- support)
    ((dot convection (normal_vector fv q)
      - tau_stab convection (normal_vector fv q))
     * shape_value fv i q * shape_value fv j q * face_JxW fv q)
    *: delta_mx i j.

Definition face_neumann (data : EquationData) (fv : FEFaceValues)
    (support : seq 'I_dofs_per_cell) (q : 'I_n_face_q_points)
    : 'cV[R]_dofs_per_cell :=
  \sum_(i <- support)
    (- (shape_value fv i q
        * exact_solution_value data (face_quadrature_point fv q)
        * face_JxW fv q)) *: delta_mx i 0.

Definition face_trace_rhs (fv : FEFaceValues)
    (local_support : seq 'I_loc_dofs_per_cell) (q : 'I_n_face_q_points)
    (convection : Tensor) (trace_value : R) : 'cV[R]_loc_dofs_per_cell :=
  \sum_(i <- local_support)
    (- ((dot (face_fluxes_value fv i q) (normal_vector fv q)
         + face_scalar_value fv i q
           * (dot convection (normal_vector fv q)
              - tau_stab convection (normal_vector fv q)))
        * trace_value * face_JxW fv q)) *: delta_mx i 0.

(** ** The local blocks of a cell, in closed form *)

(** The trace at a face quadrature point, from the global trace vector. *)
Definition trace_value (cell : Cell) (face : 'I_faces_per_cell)
    (solution : seq R) (q : 'I_n_face_q_points) : R :=
  \sum_(j < dofs_per_cell)
    nth 0 solution (get_dof_indices cell j)
    * shape_value (cell_face cell face) j q.

(** The convection at the quadrature points of a cell and of its faces. *)
(** The trace unknowns of a cell, read from the global trace vector. *)
Definition trace_unknowns (cell : Cell) (solution : seq R)
    : 'cV[R]_dofs_per_cell :=
  \col_j nth 0 solution (get_dof_indices cell j).

Definition cell_convection (cell : Cell) (q : 'I_n_q_points) : Tensor :=
  convection_field (quadrature_point (fe_values_local cell) q).

Definition face_convection (cell : Cell) (face : 'I_faces_per_cell)
    (q : 'I_n_face_q_points) : Tensor :=
  convection_field (face_quadrature_point (cell_face cell face) q).

(** The loops of a cell with the convection and the source of these fields:
    what [assemble_local_blocks] computes when nothing is raised. *)
Definition cell_volume_pass (data : EquationData) (cell : Cell)
    (q : 'I_n_q_points) (scratch : ScratchData) : ScratchData :=
  assemble_volume_point (fe_values_local cell) q
    (source_field data (quadrature_point (fe_values_local cell) q))
    (cell_convection cell q) scratch.

Definition cell_face_point_pass (data : EquationData) (cell : Cell)
    (face : 'I_faces_per_cell) (q : 'I_n_face_q_points)
    (scratch : ScratchData) : ScratchData :=
  assemble_face_point data (cell_face cell face) face q
    (face_convection cell face q) scratch.

Definition cell_face_pass (data : EquationData) (cell : Cell)
    (face : 'I_faces_per_cell) (scratch : ScratchData) : ScratchData :=
  for_each (enum 'I_n_face_q_points) (cell_face_point_pass data cell face)
    (read_trace cell face scratch).

Definition cell_blocks (data : EquationData) (cell : Cell)
    (scratch : ScratchData) : ScratchData :=
  for_each (enum 'I_faces_per_cell) (cell_face_pass data cell)
    (for_each (enum 'I_n_q_points) (cell_volume_pass data cell)
       (reset_blocks scratch)).

Section ClosedForms.

Variable cell : Cell.
Variable local_support : 'I_faces_per_cell -> seq 'I_loc_dofs_per_cell.
Variable support : 'I_faces_per_cell -> seq 'I_dofs_per_cell.

Definition cell_ll : 'M[R]_(loc_dofs_per_cell, loc_dofs_per_cell) :=
  \sum_(q < n_q_points) volume_ll (fe_values_local cell) q (cell_convection cell q)
  + \sum_(face < faces_per_cell) \sum_(q < n_face_q_points)
      face_ll (cell_face cell face) (local_support face) q
        (face_convection cell face q).

Definition cell_lf : 'M[R]_(loc_dofs_per_cell, dofs_per_cell) :=
  \sum_(face < faces_per_cell) \sum_(q < n_face_q_points)
    face_lf (cell_face cell face) (local_support face) (support face) q
      (face_convection cell face q).

Definition cell_fl : 'M[R]_(dofs_per_cell, loc_dofs_per_cell) :=
  \sum_(face < faces_per_cell) \sum_(q < n_face_q_points)
    face_fl (cell_face cell face) (local_support face) (support face) q
      (face_convection cell face q).

Definition cell_ff : 'M[R]_(dofs_per_cell, dofs_per_cell) :=
  \sum_(face < faces_per_cell) \sum_(q < n_face_q_points)
    face_ff (cell_face cell face) (support face) q
      (face_convection cell face q).

Definition cell_l_rhs (data : EquationData) : 'cV[R]_loc_dofs_per_cell :=
  \sum_(q < n_q_points)
    volume_rhs (fe_values_local cell) q
      (source_field data (quadrature_point (fe_values_local cell) q)).

Definition cell_f_rhs (data : EquationData) : 'cV[R]_dofs_per_cell :=
  \sum_(face < faces_per_cell) \sum_(q < n_face_q_points)
    (if neumann_face (cell_face cell face)
     then face_neumann data (cell_face cell face) (support face) q else 0).

Definition cell_trace_rhs (solution : seq R) : 'cV[R]_loc_dofs_per_cell :=
  \sum_(face < faces_per_cell) \sum_(q < n_face_q_points)
    face_trace_rhs (cell_face cell face) (local_support face) q
      (face_convection cell face q) (trace_value cell face solution q).

End ClosedForms.

(** ** The global objects *)

Inductive RefinementMode := global_refinement | adaptive_refinement.

(** The active cells of the triangulation as the three DoF handlers present
    them after [distribute_dofs], with the three numbers of unknowns. *)
Record Triangulation := {
  active_cells : seq Cell;
  n_dofs : nat;
  n_dofs_local : nat;
  n_dofs_u_post : nat
}.

(** [ChunkSparsityPattern]: its sizes. *)
Record ChunkSparsityPattern := {
  pattern_rows : nat;
  pattern_cols : nat;
  pattern_max_per_row : nat;
  pattern_chunk_size : nat
}.

(** [sparsity_pattern.reinit (m, n, max_per_row, chunk_size)] *)
Definition sparsity_pattern_reinit (m n max_per_row chunk_size : nat)
    : ChunkSparsityPattern :=
  Build_ChunkSparsityPattern m n max_per_row chunk_size.

(** [ChunkSparseMatrix<double>]: its sizes and its stored entries. *)
Record ChunkSparseMatrix := {
  matrix_m : nat;
  matrix_n : nat;
  matrix_entries : seq ((nat * nat) * R)
}.

(** [system_matrix.reinit (sparsity_pattern)] *)
Definition matrix_reinit (pattern : ChunkSparsityPattern) : ChunkSparseMatrix :=
  Build_ChunkSparseMatrix (pattern_rows pattern) (pattern_cols pattern) [::].

(** [system_matrix.clear ()]: back to the state of the default constructor. *)
Definition matrix_clear : ChunkSparseMatrix := Build_ChunkSparseMatrix 0 0 [::].

(** [ConstraintMatrix]: constraint lines, each a constrained unknown with its
    linear combination and inhomogeneity. *)
Definition ConstraintMatrix := seq (nat * (seq (nat * R) * R)).

(** [FunctionMap<dim>::type]: boundary indicators and their functions. *)
Definition FunctionMap := seq (nat * (Point -> R)).

(** The services of the library that the example calls and that stay
    abstract: constraints, sparsity, the iterative solver, grid generation and
    refinement. *)
Record Library := {
  make_hanging_node_constraints : Triangulation -> ConstraintMatrix;
  project_on_faces :
    seq (Cell * 'I_faces_per_cell) -> FunctionMap -> ConstraintMatrix ->
    ConstraintMatrix;
  make_sparsity_pattern :
    Triangulation -> ConstraintMatrix -> nat -> ChunkSparsityPattern;
  distribute_local_to_global :
    ConstraintMatrix -> 'M[R]_(dofs_per_cell, dofs_per_cell) ->
    'cV[R]_dofs_per_cell -> seq nat -> ChunkSparseMatrix -> seq R ->
    ChunkSparseMatrix * seq R;
  distribute : ConstraintMatrix -> seq R -> seq R;
  l2_norm : seq R -> R;
  SolverGMRES_solve :
    nat -> R -> ChunkSparseMatrix -> seq R -> seq R -> result (seq R);
  generate_grid :
    nat -> RefinementMode -> Triangulation -> seq R -> Triangulation
}.

(** The data members of [Step51] that the computation reads or writes.  The
    finite elements are the [FiniteElements] argument of the operations, and
    the convergence table is left out. *)
Record Step51 := {
  triangulation : Triangulation;
  constraints : ConstraintMatrix;
  sparsity_pattern : ChunkSparsityPattern;
  system_matrix : ChunkSparseMatrix;
  solution : seq R;
  system_rhs : seq R;
  solution_local : seq R;
  solution_u_post : seq R;
  refinement_mode : RefinementMode
}.

(** Assignments to the members of [Step51]. *)
Definition set_triangulation (v : Triangulation) (s : Step51) : Step51 :=
  Build_Step51 v (constraints s) (sparsity_pattern s) (system_matrix s)
    (solution s) (system_rhs s) (solution_local s) (solution_u_post s)
    (refinement_mode s).

Definition set_constraints (v : ConstraintMatrix) (s : Step51) : Step51 :=
  Build_Step51 (triangulation s) v (sparsity_pattern s) (system_matrix s)
    (solution s) (system_rhs s) (solution_local s) (solution_u_post s)
    (refinement_mode s).

Definition set_sparsity_pattern (v : ChunkSparsityPattern) (s : Step51) :
    Step51 :=
  Build_Step51 (triangulation s) (constraints s) v (system_matrix s)
    (solution s) (system_rhs s) (solution_local s) (solution_u_post s)
    (refinement_mode s).

Definition set_system_matrix (v : ChunkSparseMatrix) (s : Step51) : Step51 :=
  Build_Step51 (triangulation s) (constraints s) (sparsity_pattern s) v
    (solution s) (system_rhs s) (solution_local s) (solution_u_post s)
    (refinement_mode s).

Definition set_solution (v : seq R) (s : Step51) : Step51 :=
  Build_Step51 (triangulation s) (constraints s) (sparsity_pattern s)
    (system_matrix s) v (system_rhs s) (solution_local s) (solution_u_post s)
    (refinement_mode s).

Definition set_system_rhs (v : seq R) (s : Step51) : Step51 :=
  Build_Step51 (triangulation s) (constraints s) (sparsity_pattern s)
    (system_matrix s) (solution s) v (solution_local s) (solution_u_post s)
    (refinement_mode s).

Definition set_solution_local (v : seq R) (s : Step51) : Step51 :=
  Build_Step51 (triangulation s) (constraints s) (sparsity_pattern s)
    (system_matrix s) (solution s) (system_rhs s) v (solution_u_post s)
    (refinement_mode s).

Definition set_solution_u_post (v : seq R) (s : Step51) : Step51 :=
  Build_Step51 (triangulation s) (constraints s) (sparsity_pattern s)
    (system_matrix s) (solution s) (system_rhs s) (solution_local s) v
    (refinement_mode s).
(** ** [Step51::copy_local_to_global] *)

Definition copy_local_to_global (lib : Library) (data : PerTaskData)
    (st : Step51) : Step51 :=
  if task_trace_reconstruct data == false then
    let global :=
      distribute_local_to_global lib (constraints st) (cell_matrix data)
        (cell_vector data) (dof_indices data) (system_matrix st)
        (system_rhs st) in
    set_system_rhs global.2 (set_system_matrix global.1 st)
  else st.

(** ** [Step51::setup_system] *)

(** [boundary_functions[0] = &solution_function;] is the only entry. *)
Definition boundary_functions (data : EquationData) : FunctionMap :=
  [:: (0%N, exact_solution_value data)].

(** Modelled from the spec: [VectorTools::project_boundary_values] is library
    code; it constrains the trace unknowns of the faces on the boundary whose
    indicator is a key of the function map it is given ("boundary data
    functions keyed by marker"). *)
Definition dirichlet_face (functions : FunctionMap) (fv : FEFaceValues) : bool :=
  at_boundary fv && (boundary_indicator fv \in [seq kv.1 | kv <- functions]).

Definition project_boundary_values (lib : Library) (tria : Triangulation)
    (functions : FunctionMap) (cm : ConstraintMatrix) : ConstraintMatrix :=
  project_on_faces lib
    (flatten
       [seq [seq (cell, face) | face <- enum 'I_faces_per_cell
                              & dirichlet_face functions (cell_face cell face)]
       | cell <- active_cells tria])
    functions cm.

Definition setup_system (lib : Library) (dofs_per_face : nat)
    (data : EquationData) (st : Step51) : Step51 :=
  let tria := triangulation st in
  let st := set_solution (vector_reinit R (n_dofs tria)) st in
  let st := set_system_rhs (vector_reinit R (n_dofs tria)) st in
  let st := set_solution_local (vector_reinit R (n_dofs_local tria)) st in
  let st := set_solution_u_post (vector_reinit R (n_dofs_u_post tria)) st in
  let st :=
    set_constraints
      (project_boundary_values lib tria (boundary_functions data)
         (make_hanging_node_constraints lib tria)) st in
  let st :=
    set_sparsity_pattern
      (make_sparsity_pattern lib tria (constraints st) dofs_per_face) st in
  set_system_matrix (matrix_reinit (sparsity_pattern st)) st.

(** ** [Step51::assemble_system] *)

(** [WorkStream::run], one cell after the other: the worker on the scratch
    and task data, then the copier on the task data.  [scratch.solution_local]
    is a reference to the member of [Step51], which therefore sees every
    write at once. *)
Definition worker_and_copier (lib : Library) (data : EquationData)
    (cell : Cell) (state : ScratchData * PerTaskData * Step51)
    : result (ScratchData * PerTaskData * Step51) :=
  local <-- assemble_system_one_cell data cell state.1.1 state.1.2 ;;
  Ok (local.1, local.2,
      copy_local_to_global lib local.2
        (set_solution_local (scratch_solution_local local.1) state.2)).

Definition assemble_system (lib : Library) (fes : FiniteElements)
    (data : EquationData) (trace_reconstruct : bool) (st : Step51)
    : result Step51 :=
  let task_data := PerTaskData_init trace_reconstruct in
  let scratch :=
    ScratchData_init fes (solution st) (solution_local st) trace_reconstruct in
  final <-- for_each_m (active_cells (triangulation st))
              (worker_and_copier lib data) (scratch, task_data, st) ;;
  Ok final.2.

(** The workers alone, one cell after the other. *)
Definition cells_loop (data : EquationData) (cells : seq Cell)
    (p : ScratchData * PerTaskData) : result (ScratchData * PerTaskData) :=
  for_each_m cells
    (fun cell p => assemble_system_one_cell data cell p.1 p.2) p.

(** ** [Step51::solve] *)

Definition solve (lib : Library) (fes : FiniteElements) (data : EquationData)
    (st : Step51) : result Step51 :=
  x <-- SolverGMRES_solve lib (matrix_m (system_matrix st) * 10)%N
          ((10 ^+ 10)^-1 * l2_norm lib (system_rhs st)) (system_matrix st)
          (solution st) (system_rhs st) ;;
  let st := set_solution x st in
  let st := set_system_matrix matrix_clear st in
  let st := set_sparsity_pattern (sparsity_pattern_reinit 0 0 0 1) st in
  let st := set_solution (distribute lib (constraints st) (solution st)) st in
  assemble_system lib fes data true st.

(** ** [Step51::postprocess] *)

(** Rows [1 .. dofs_per_cell-1] of the local system and of its right-hand
    side.  The error norms that [postprocess] also records in the
    convergence table are left out. *)
Definition post_gradient_rows (fv : FEValues_post) (u_gradients : seq Tensor)
    (system : 'M[R]_(post_dofs.+1) * 'cV[R]_(post_dofs.+1))
    : 'M[R]_(post_dofs.+1) * 'cV[R]_(post_dofs.+1) :=
  for_each (behead (enum 'I_(post_dofs.+1))) (fun i sys =>
    let matrix :=
      for_each (enum 'I_(post_dofs.+1)) (fun j matrix =>
        let sum :=
          for_each (enum 'I_post_q_points) (fun q sum =>
            sum + dot (post_shape_grad fv i q) (post_shape_grad fv j q)
                  * post_JxW fv q) 0 in
        set_entry matrix i j sum) sys.1 in
    let sum :=
      for_each (enum 'I_post_q_points) (fun q sum =>
        sum - dot (post_shape_grad fv i q) (nth 0 u_gradients q)
              * post_JxW fv q) 0 in
    (matrix, set_entry sys.2 i 0 sum)) system.

(** Row 0 of the local system and of its right-hand side. *)
Definition post_mean_row (fv : FEValues_post) (u_values : seq R)
    (system : 'M[R]_(post_dofs.+1) * 'cV[R]_(post_dofs.+1))
    : 'M[R]_(post_dofs.+1) * 'cV[R]_(post_dofs.+1) :=
  let matrix :=
    for_each (enum 'I_(post_dofs.+1)) (fun j matrix =>
      let sum :=
        for_each (enum 'I_post_q_points) (fun q sum =>
          sum + post_shape_value fv j q * post_JxW fv q) 0 in
      set_entry matrix 0 j sum) system.1 in
  let sum :=
    for_each (enum 'I_post_q_points) (fun q sum =>
      sum + nth 0 u_values q * post_JxW fv q) 0 in
  (matrix, set_entry system.2 0 0 sum).

(** [u_values] and [u_gradients] on a cell. *)
Definition post_u_values (cell : Cell) (solution_local : seq R) : seq R :=
  get_function_values (post_scalar_value (fe_values_post cell))
    (loc_dof_indices cell) solution_local.

Definition post_u_gradients (cell : Cell) (solution_local : seq R)
    : seq Tensor :=
  get_function_values_vector (post_fluxes_value (fe_values_post cell))
    (loc_dof_indices cell) solution_local.

(** The local system of a cell as it stands before [gauss_jordan]. *)
Definition postprocess_system (cell : Cell) (solution_local : seq R)
    (system : 'M[R]_(post_dofs.+1) * 'cV[R]_(post_dofs.+1))
    : 'M[R]_(post_dofs.+1) * 'cV[R]_(post_dofs.+1) :=
  post_mean_row (fe_values_post cell) (post_u_values cell solution_local)
    (post_gradient_rows (fe_values_post cell)
       (post_u_gradients cell solution_local) system).

(** The variables that live across the cell loop of [postprocess]:
    [cell_matrix], [cell_rhs], [cell_sol], and [solution_u_post]. *)
Definition PostState : Type :=
  ('M[R]_(post_dofs.+1) * 'cV[R]_(post_dofs.+1) * 'cV[R]_(post_dofs.+1))
  * seq R.

(** One pass of the cell loop of [postprocess]. *)
Definition postprocess_cell (solution_local : seq R) (cell : Cell)
    (state : PostState) : result PostState :=
  let system :=
    postprocess_system cell solution_local (state.1.1.1, state.1.1.2) in
  inverse <-- gauss_jordan system.1 ;;
  let cell_sol := vmult inverse system.2 in
  Ok (inverse, system.2, cell_sol,
      cell_distribute_local_to_global
        (post_dof_indices (fe_values_post cell)) cell_sol state.2).

Definition postprocess (st : Step51) : result Step51 :=
  final <-- for_each_m (active_cells (triangulation st))
              (postprocess_cell (solution_local st))
              (0, 0, 0, solution_u_post st) ;;
  Ok (set_solution_u_post final.2 st).

(** The integral over a cell of a field known at the quadrature points, by
    the quadrature formula with the given weights. *)
Definition cell_integral {k : nat} (weights : 'I_k -> R) (values : seq R) : R :=
  \sum_(q < k) nth 0 values q * weights q.

(** The post-processed field on a cell, at the points of the post-processing
    quadrature. *)
Definition recovery_values (cell : Cell) (solution_u_post : seq R) : seq R :=
  get_function_values (post_shape_value (fe_values_post cell))
    (post_dof_indices (fe_values_post cell)) solution_u_post.

(** Whether the loops of a cell evaluate the convection at all: there is an
    interior quadrature point, or a face with a quadrature point. *)
Definition has_quadrature_points : bool :=
  (0 < n_q_points)%N || (0 < faces_per_cell)%N && (0 < n_face_q_points)%N.

(** ** [Step51::refine_grid] and one cycle of [Step51::run] *)

Definition refine_grid (lib : Library) (cycle : nat) (st : Step51) : Step51 :=
  set_triangulation
    (generate_grid lib cycle (refinement_mode st) (triangulation st)
       (solution_local st)) st.

(** What a cycle does before [assemble_system] is called. *)
Definition prepare_cycle (lib : Library) (dofs_per_face : nat)
    (data : EquationData) (cycle : nat) (st : Step51) : Step51 :=
  setup_system lib dofs_per_face data (refine_grid lib cycle st).

(** One pass of the loop of [run]; writing the output files is left out. *)
Definition run_cycle (lib : Library) (fes : FiniteElements)
    (dofs_per_face : nat) (data : EquationData) (cycle : nat) (st : Step51)
    : result Step51 :=
  let st := prepare_cycle lib dofs_per_face data cycle st in
  st <-- assemble_system lib fes data false st ;;
  st <-- solve lib fes data st ;;
  postprocess st.

End Model.

(** ** Concrete instances *)

Section Instances.

Variable R : realFieldType.
Variables (dim n_q_points loc_dofs_per_cell dofs_per_cell : nat).
Variables (n_face_q_points post_dofs post_q_points : nat).

(** [Step51::Step51]: every member is default-constructed. *)
Definition Step51_init (mode : RefinementMode)
    : Step51 R dim n_q_points loc_dofs_per_cell dofs_per_cell n_face_q_points
        post_dofs post_q_points :=
  {| triangulation :=
       {| active_cells := [::]; n_dofs := 0; n_dofs_local := 0;
          n_dofs_u_post := 0 |};
     constraints := [::];
     sparsity_pattern := sparsity_pattern_reinit 0 0 0 1;
     system_matrix := matrix_clear R;
     solution := [::];
     system_rhs := [::];
     solution_local := [::];
     solution_u_post := [::];
     refinement_mode := mode |}.

(** A stand-in for the library, to run the driver on concrete meshes: no
    constraints, contributions to the global system are dropped, the solver
    returns its initial guess and the grid generator the grid it is given. *)
Definition idle_library
    : Library R dim n_q_points loc_dofs_per_cell dofs_per_cell n_face_q_points
        post_dofs post_q_points :=
  {| make_hanging_node_constraints := fun _ => [::];
     project_on_faces := fun _ _ cm => cm;
     make_sparsity_pattern := fun tria _ chunk =>
       sparsity_pattern_reinit (n_dofs tria) (n_dofs tria) 0 chunk;
     distribute_local_to_global := fun _ _ _ _ matrix rhs => (matrix, rhs);
     distribute := fun _ v => v;
     l2_norm := fun _ => 0;
     SolverGMRES_solve := fun _ _ _ x _ => Ok x;
     generate_grid := fun _ _ tria _ => tria |}.

(** Finite elements that report support everywhere, as the default
    [has_support_on_face] does, and constant equation data. *)
Definition full_support : FiniteElements dim loc_dofs_per_cell dofs_per_cell :=
  {| fe_local_has_support_on_face := fun _ _ => true;
     fe_has_support_on_face := fun _ _ => true |}.

Definition constant_data : EquationData R dim :=
  {| right_hand_side_sum := fun _ _ => 1;
     exact_solution_value := fun _ => 1 |}.

End Instances.

(** ** A concrete element: the interval [0, 1] with piecewise constants *)

(** One cell of a one-dimensional mesh with the lowest-order spaces, over the
    rationals.  The interior space has the constant flux (unknown 0) and the
    constant primal function (unknown 1); the skeleton has one unknown on
    each end point; the recovery space has the two linear hat functions.
    Every quadrature formula has one point with weight 1. *)
Module Interval.

Definition fe_values : FEValues_local rat 1 1 2 :=
  {| fluxes_value := fun k _ => if (k : nat) == 0%N then const_mx 1 else 0;
     fluxes_divergence := fun _ _ => 0;
     scalar_value := fun k _ => if (k : nat) == 1%N then 1 else 0;
     scalar_gradient := fun _ _ => 0;
     JxW := fun _ => 1;
     quadrature_point := fun _ => const_mx (1 / 2) |}.

(** The end point [x = face] with outward normal [-1] or [+1]; the left end
    carries the boundary indicator 0 and the right end the indicator 2. *)
Definition face_values (face : 'I_(faces_per_cell 1)) : FEFaceValues rat 1 2 2 1 :=
  {| face_fluxes_value := fun k _ => if (k : nat) == 0%N then const_mx 1 else 0;
     face_scalar_value := fun k _ => if (k : nat) == 1%N then 1 else 0;
     shape_value := fun j _ => if (j : nat) == face then 1 else 0;
     face_JxW := fun _ => 1;
     normal_vector := fun _ => const_mx (if (face : nat) == 0%N then -1 else 1);
     face_quadrature_point := fun _ => const_mx (face : nat)%:R;
     at_boundary := true;
     boundary_indicator := if (face : nat) == 0%N then 0%N else 2%N |}.

Definition post_values : FEValues_post rat 1 2 1 1 :=
  {| post_shape_grad := fun i _ => const_mx (if (i : nat) == 0%N then -1 else 1);
     post_shape_value := fun _ _ => 1 / 2;
     post_JxW := fun _ => 1;
     post_scalar_value := fun k _ => if (k : nat) == 1%N then 1 else 0;
     post_fluxes_value := fun k _ => if (k : nat) == 0%N then const_mx 1 else 0;
     post_dof_indices := fun i => i |}.

Definition cell : Cell rat 1 1 2 2 1 1 1 :=
  {| fe_values_local := fe_values;
     cell_face := face_values;
     get_dof_indices := fun j => j;
     loc_dof_indices := fun i => i;
     fe_values_post := post_values |}.

(** Both interior functions are seen from both end points; the skeleton
    unknown [j] lives on the end point [j] only. *)
Definition elements : FiniteElements 1 2 2 :=
  {| fe_local_has_support_on_face := fun _ _ => true;
     fe_has_support_on_face := fun j face => (j : nat) == face |}.

Definition equation_data : EquationData rat 1 := constant_data rat 1.

(** The right end point of the cell. *)
Definition right_face : 'I_(faces_per_cell 1) := @ord_max 1.

(** The trace vector [lambda = (1, 2)], an interior vector and a recovery
    vector of two zeros. *)
Definition trace_vector : seq rat := [:: 1; 2].
Definition zero_vector : seq rat := [:: 0; 0].

Definition scratch (trace_reconstruct : bool) : ScratchData rat 1 2 2 :=
  ScratchData_init 1 elements trace_vector zero_vector trace_reconstruct.

Definition task (trace_reconstruct : bool) : PerTaskData rat 2 :=
  PerTaskData_init rat 2 trace_reconstruct.

(** The interior block of the cell and its inverse. *)
Definition ll : 'M[rat]_2 :=
  \matrix_(i, j) (if (i : nat) == j then if (i : nat) == 0%N then 1 else 12
                  else 0).

Definition ll_inverse : 'M[rat]_2 :=
  \matrix_(i, j) (if (i : nat) == j then if (i : nat) == 0%N then 1 else 12^-1
                  else 0).

(** The interior-skeleton and skeleton-interior blocks of the cell. *)
Definition lf : 'M[rat]_2 :=
  \matrix_(i, j) (if (i : nat) == 0%N then if (j : nat) == 0%N then -1 else 1
                  else if (j : nat) == 0%N then -7 else -5).

Definition fl : 'M[rat]_2 :=
  \matrix_(j, i) (if (i : nat) == 0%N then if (j : nat) == 0%N then 1 else -1
                  else -6).

(** The post-processing system of the cell and its inverse. *)
Definition post_matrix : 'M[rat]_2 :=
  \matrix_(i, j) (if (i : nat) == 0%N then 1 / 2
                  else if (j : nat) == 0%N then -1 else 1).

Definition post_inverse : 'M[rat]_2 :=
  \matrix_(i, j) (if (j : nat) == 0%N then 1
                  else if (i : nat) == 0%N then - (1 / 2) else 1 / 2).

Definition post_state : PostState rat 1 := (0, 0, 0, zero_vector).

(** The mesh made of this one cell, and the solver object after the
    assembly pass on it, with the trace vector as initial guess. *)
Definition mesh : Triangulation rat 1 1 2 2 1 1 1 :=
  {| active_cells := [:: cell]; n_dofs := 2; n_dofs_local := 2;
     n_dofs_u_post := 2 |}.

Definition state : Step51 rat 1 1 2 2 1 1 1 :=
  {| triangulation := mesh;
     constraints := [::];
     sparsity_pattern := sparsity_pattern_reinit 2 2 0 1;
     system_matrix := matrix_reinit rat (sparsity_pattern_reinit 2 2 0 1);
     solution := trace_vector;
     system_rhs := zero_vector;
     solution_local := zero_vector;
     solution_u_post := zero_vector;
     refinement_mode := global_refinement |}.

End Interval.

(** ** Closed forms on a whole mesh *)

(** A property of every entry of a list, here of every cell of a mesh. *)
Fixpoint each {T : Type} (P : T -> Prop) (s : seq T) : Prop :=
  if s is x :: s' then P x /\ each P s' else True.

Section MeshClosedForms.

Variable R : realFieldType.
Variables (dim n_q_points loc_dofs_per_cell dofs_per_cell : nat).
Variables (n_face_q_points post_dofs post_q_points : nat).

Notation CellT :=
  (Cell R dim n_q_points loc_dofs_per_cell dofs_per_cell n_face_q_points
     post_dofs post_q_points).

(** The interior unknowns and the recovery unknowns of the cells of a mesh,
    cell after cell. *)
Definition interior_dofs (cells : seq CellT) : seq nat :=
  flatten [seq [seq loc_dof_indices cell i | i <- enum 'I_loc_dofs_per_cell]
          | cell <- cells].

Definition recovery_dofs (cells : seq CellT) : seq nat :=
  flatten [seq [seq post_dof_indices (fe_values_post cell) j
               | j <- enum 'I_post_dofs.+1]
          | cell <- cells].

(** What [assemble_system_one_cell] hands to the copier on the assembly pass
    when the interior block is invertible, from the closed forms of the
    blocks. *)
Definition condensed_task (data : EquationData R dim)
    (fes : FiniteElements dim loc_dofs_per_cell dofs_per_cell) (cell : CellT)
    : PerTaskData R dofs_per_cell :=
  let Sl := local_support_of fes in
  let Sf := support_of fes in
  let tmp := cell_fl cell Sl Sf *m invmx (cell_ll cell Sl) in
  {| cell_matrix := cell_ff cell Sf + tmp *m cell_lf cell Sl Sf;
     cell_vector := cell_f_rhs cell Sf data + tmp *m cell_l_rhs cell data;
     dof_indices := [seq get_dof_indices cell j | j <- enum 'I_dofs_per_cell];
     task_trace_reconstruct := false |}.

(** The interior unknowns of a cell for a given trace vector. *)
Definition interior_solution (data : EquationData R dim)
    (fes : FiniteElements dim loc_dofs_per_cell dofs_per_cell) (cell : CellT)
    (solution : seq R) : 'cV[R]_loc_dofs_per_cell :=
  let Sl := local_support_of fes in
  invmx (cell_ll cell Sl)
  *m (cell_l_rhs cell data + cell_trace_rhs cell Sl solution).

(** The recovery unknowns of a cell for a given interior vector. *)
Definition recovery_solution (cell : CellT) (solution_local : seq R)
    : 'cV[R]_(post_dofs.+1) :=
  let system := postprocess_system cell solution_local (0, 0) in
  invmx system.1 *m system.2.

End MeshClosedForms.

(** ** The caches of the scratch data *)

Section Caches.

Variable R : realFieldType.
Variables (dim loc_dofs_per_cell dofs_per_cell n_face_q_points : nat).

(** The sizes that the constructor of [ScratchData] gives to the caches. *)
Definition caches_sized (s : ScratchData R dim loc_dofs_per_cell dofs_per_cell)
    : Prop :=
  [/\ size (q_phi s) = loc_dofs_per_cell,
      size (q_phi_div s) = loc_dofs_per_cell,
      size (u_phi s) = loc_dofs_per_cell,
      size (u_phi_grad s) = loc_dofs_per_cell
    & size (tr_phi s) = dofs_per_cell
      /\ size (trace_values s) = n_face_q_points].

End Caches.

(** ** The equation data of the example *)

Section ManufacturedSolution.

Variable R : realFieldType.
Variable dim : nat.

(** [std::exp], and the value of [std::sqrt (2 * numbers::PI)]: the functions
    of the C library are not rational and stay abstract. *)
Variables (exp : R -> R) (sqrt_two_pi : R).

(** [SolutionBase<dim>]: [n_source_centers], [width], and the array
    [source_centers], which the source defines by one specialisation for each
    of the dimensions 1, 2 and 3. *)
Definition n_source_centers : nat := 3.

Definition width : R := 1 / 5.

Definition point_of (coordinates : seq R) : Point R dim :=
  \row_(d < dim) nth 0 coordinates d.

Variable source_centers : seq (Point R dim).

(** [x.square ()] *)
Definition square (x : Point R dim) : R := dot x x.

(** [Solution<dim>::value] *)
Definition Solution_value (p : Point R dim) : R :=
  let return_value :=
    for_each (iota 0 n_source_centers) (fun i return_value =>
      let x_minus_xi := p - nth 0 source_centers i in
      return_value + exp (- square x_minus_xi / (width * width))) 0 in
  return_value / (sqrt_two_pi * width) ^+ dim.

(** [Solution<dim>::gradient] *)
Definition Solution_gradient (p : Point R dim) : Tensor R dim :=
  let return_value :=
    for_each (iota 0 n_source_centers) (fun i return_value =>
      let x_minus_xi := p - nth 0 source_centers i in
      return_value
      + (- 2 / (width * width) * exp (- square x_minus_xi / (width * width)))
        *: x_minus_xi) 0 in
  ((sqrt_two_pi * width) ^+ dim)^-1 *: return_value.

(** The loop and the division of [RightHandSide<dim>::value], after the
    convection at the point has been evaluated. *)
Definition RightHandSide_sum (convection : Tensor R dim) (p : Point R dim)
    : R :=
  let return_value :=
    for_each (iota 0 n_source_centers) (fun i return_value =>
      let x_minus_xi := p - nth 0 source_centers i in
      return_value
      + ((2 * dim)%:R - dot (2 *: convection) x_minus_xi
         - 4 * square x_minus_xi / (width * width))
        / (width * width)
        * exp (- square x_minus_xi / (width * width))) 0 in
  return_value / (sqrt_two_pi * width) ^+ dim.

(** The function objects of [ScratchData]. *)
Definition example_data : EquationData R dim :=
  {| right_hand_side_sum := RightHandSide_sum;
     exact_solution_value := Solution_value |}.

End ManufacturedSolution.

(** The three specialisations of [SolutionBase<dim>::source_centers]. *)
Definition source_centers_1 (R : realFieldType) : seq (Point R 1) :=
  [:: point_of 1 [:: - 1 / 3]; point_of 1 [:: 0]; point_of 1 [:: 1 / 3]].

Definition source_centers_2 (R : realFieldType) : seq (Point R 2) :=
  [:: point_of 2 [:: - (1 / 2); 1 / 2]; point_of 2 [:: - (1 / 2); - (1 / 2)];
      point_of 2 [:: 1 / 2; - (1 / 2)]].

Definition source_centers_3 (R : realFieldType) : seq (Point R 3) :=
  [:: point_of 3 [:: - (1 / 2); 1 / 2; 1 / 4];
      point_of 3 [:: - (3 / 5); - (1 / 2); - (1 / 8)];
      point_of 3 [:: 1 / 2; - (1 / 2); 1 / 2]].

(** ** [Step51::output_results]: the names of the output files *)

From Stdlib Require String.
Import String.StringSyntax.

Section OutputNames.

Local Open Scope string_scope.

(** [Utilities::int_to_string (value, digits)] is library code and stays
    abstract. *)
Variable int_to_string : nat -> nat -> String.string.

(** The statements of [output_results] that build [filename] and [face_out],
    in their order; writing the files is left out.  The [default] branch of
    the [switch] is not reached by a value of the enumeration. *)
Definition output_file_names (mode : RefinementMode) (degree cycle : nat)
    : String.string * String.string :=
  let filename :=
    match mode with
    | global_refinement => "solution-global"
    | adaptive_refinement => "solution-adaptive"
    end in
  let face_out := filename in
  let face_out := String.append face_out "-face" in
  let filename :=
    String.append filename (String.append "-q" (int_to_string degree 1)) in
  let filename :=
    String.append filename (String.append "-" (int_to_string cycle 2)) in
  let filename := String.append filename ".vtk" in
  let face_out :=
    String.append face_out (String.append "-q" (int_to_string degree 1)) in
  let face_out :=
    String.append face_out (String.append "-" (int_to_string cycle 2)) in
  let face_out := String.append face_out ".vtk" in
  (filename, face_out).

End OutputNames.

(** * Properties *)

(** ** Loops *)

Section Loops.

Variables (I S : Type).

Lemma for_each_cons (i : I) (r : seq I) (body : I -> S -> S) (s : S) :
  for_each (i :: r) body s = for_each r body (body i s).
Proof. by []. Qed.

(** A projection that every pass transforms in a way that does not depend on
    the rest of the state can be computed on its own. *)
Lemma for_each_proj (A : Type) (get : S -> A) (step : I -> A -> A)
    (body : I -> S -> S) (r : seq I) (s : S) :
  (forall i s', get (body i s') = step i (get s')) ->
  get (for_each r body s) = for_each r step (get s).
Proof.
move=> Hb; elim: r s => [|i r IH] s //.
by rewrite !for_each_cons IH Hb.
Qed.

(** A projection that no pass changes is not changed by the loop. *)
Lemma for_each_frame (A : Type) (get : S -> A) (body : I -> S -> S)
    (r : seq I) (s : S) :
  (forall i s', get (body i s') = get s') ->
  get (for_each r body s) = get s.
Proof.
move=> Hb; elim: r s => [|i r IH] s //.
by rewrite for_each_cons IH Hb.
Qed.

(** A projection to which every pass adds an increment, the increments being
    insensitive to the passes, ends up with their sum added. *)
Lemma for_each_sum (A : nmodType) (get : S -> A) (inc : I -> S -> A)
    (body : I -> S -> S) (r : seq I) (s : S) :
  (forall i s', get (body i s') = get s' + inc i s') ->
  (forall i j s', inc i (body j s') = inc i s') ->
  get (for_each r body s) = get s + \sum_(i <- r) inc i s.
Proof.
move=> Hget Hinc; elim: r s => [|i r IH] s.
  by rewrite big_nil addr0.
rewrite for_each_cons IH Hget big_cons -addrA; congr (_ + (_ + _)).
by apply: eq_bigr => j _; rewrite Hinc.
Qed.

(** A loop whose passes all succeed is the loop of their results. *)
Lemma for_each_m_ok (body : I -> S -> result S) (pure : I -> S -> S)
    (r : seq I) (s : S) :
  (forall i s', body i s' = Ok (pure i s')) ->
  for_each_m r body s = Ok (for_each r pure s).
Proof.
move=> Hb; elim: r s => [|i r IH] s //=.
by rewrite Hb /= IH.
Qed.

End Loops.

(** Accumulating a sum in a scalar variable. *)
Lemma for_each_accumulate (A : nmodType) (I : Type) (r : seq I) (f : I -> A)
    (a : A) :
  for_each r (fun i sum => sum + f i) a = a + \sum_(i <- r) f i.
Proof.
elim: r a => [|i r IH] a; first by rewrite big_nil addr0.
by rewrite for_each_cons IH big_cons addrA.
Qed.

(** Filling an array slot by slot: a slot that the loop visits once holds
    the value written there. *)
Lemma fill_nth (K : eqType) (X : Type) (x0 : X) (key : K -> nat) (F : K -> X)
    (r : seq K) (a : seq X) (k : K) :
  uniq [seq key i | i <- r] -> k \in r ->
  nth x0 (for_each r (fun i acc => set_nth x0 acc (key i) (F i)) a) (key k)
  = F k.
Proof.
elim: r a => [|i r IH] a //=.
case/andP=> Hi Hr; rewrite in_cons for_each_cons.
case/orP=> [/eqP ->|Hk]; last exact: IH.
have: nth x0 (set_nth x0 a (key i) (F i)) (key i) = F i.
  by rewrite nth_set_nth /= eqxx.
elim: r (set_nth _ _ _ _) Hi {IH Hr} => [|j r IH] b //=.
rewrite in_cons negb_or => /andP [Hij Hi] Hb.
rewrite for_each_cons; apply: IH => //.
by rewrite nth_set_nth /= (negbTE Hij).
Qed.

Lemma uniq_enumerate_keys (T : Type) (s : seq T) :
  uniq [seq k.1 | k <- enumerate s].
Proof.
rewrite /enumerate -/(unzip1 _) unzip1_zip ?size_iota //.
exact: iota_uniq.
Qed.

Lemma unzip2_enumerate (T : Type) (s : seq T) : unzip2 (enumerate s) = s.
Proof. by rewrite /enumerate unzip2_zip // size_iota. Qed.

(** A sum over the pairs of [enumerate] only sees the entries. *)
Lemma big_enumerate (A : nmodType) (T : Type) (s : seq T) (F : T -> A) :
  \sum_(k <- enumerate s) F k.2 = \sum_(x <- s) F x.
Proof. by rewrite -[in RHS](unzip2_enumerate s) big_map. Qed.

Lemma sum_enumerate (A : nmodType) (T : eqType) (s : seq T)
    (F : nat * T -> A) (G : T -> A) :
  (forall k, k \in enumerate s -> F k = G k.2) ->
  \sum_(k <- enumerate s) F k = \sum_(x <- s) G x.
Proof.
by move=> H; rewrite -(big_enumerate s G); apply: eq_big_seq => k /H.
Qed.

Lemma sum_enumerate2 (A : nmodType) (T1 T2 : eqType) (s1 : seq T1)
    (s2 : seq T2) (F : nat * T1 -> nat * T2 -> A) (G : T1 -> T2 -> A) :
  (forall i j, i \in enumerate s1 -> j \in enumerate s2 ->
               F i j = G i.2 j.2) ->
  \sum_(i <- enumerate s1) \sum_(j <- enumerate s2) F i j
  = \sum_(x <- s1) \sum_(y <- s2) G x y.
Proof.
move=> H; apply: sum_enumerate => i Hi.
by apply: sum_enumerate => j Hj; apply: H.
Qed.

(** ** Entry updates *)

Section Entries.

Variable R : realFieldType.

Lemma add_entry_delta (m n : nat) (M : 'M[R]_(m, n)) (i : 'I_m) (j : 'I_n)
    (v : R) :
  add_entry M i j v = M + v *: delta_mx i j.
Proof.
apply/matrixP=> a b; rewrite !mxE.
by case: ifP => _; rewrite ?mulr1 ?mulr0 ?addr0.
Qed.

Lemma sub_entry_delta (m n : nat) (M : 'M[R]_(m, n)) (i : 'I_m) (j : 'I_n)
    (v : R) :
  sub_entry M i j v = M + (- v) *: delta_mx i j.
Proof.
apply/matrixP=> a b; rewrite !mxE.
by case: ifP => _; rewrite ?mulr1 ?mulr0 ?addr0.
Qed.

(** A sum over the enumeration of an ordinal type is the sum over the type. *)
Lemma big_enum_ord (A : nmodType) (n : nat) (F : 'I_n -> A) :
  \sum_(i <- enum 'I_n) F i = \sum_(i < n) F i.
Proof. by rewrite big_enum. Qed.

Lemma sum_delta_matrix (m n : nat) (F : 'I_m -> 'I_n -> R) :
  \sum_(i <- enum 'I_m) \sum_(j <- enum 'I_n) F i j *: delta_mx i j
  = \matrix_(i, j) F i j.
Proof.
rewrite big_enum_ord [RHS]matrix_sum_delta.
apply: eq_bigr => i _; rewrite big_enum_ord.
by apply: eq_bigr => j _; rewrite mxE.
Qed.

Lemma sum_delta_col (m : nat) (F : 'I_m -> R) :
  \sum_(i <- enum 'I_m) F i *: delta_mx i 0 = \col_i F i :> 'cV[R]_m.
Proof.
rewrite big_enum_ord [RHS]matrix_sum_delta.
apply: eq_bigr => i _; rewrite big_ord_recl big_ord0 addr0 mxE.
by congr (_ *: delta_mx _ _); apply: val_inj.
Qed.

Lemma uniq_enum_ord_val (n : nat) : uniq [seq val i | i <- enum 'I_n].
Proof. by rewrite val_enum_ord iota_uniq. Qed.

End Entries.

(** A projection that no pass of a (nested) loop touches. *)
Ltac frame_loop :=
  rewrite /=;
  repeat (rewrite for_each_frame; [by move=> ? ?; frame_loop | rewrite /=]).

(** ** One interior quadrature point *)

Section VolumePoint.

Variable R : realFieldType.
Variables (dim n_q_points loc_dofs_per_cell dofs_per_cell : nat).

Notation Scratch := (ScratchData R dim loc_dofs_per_cell dofs_per_cell).
Notation FEV := (FEValues_local R dim n_q_points loc_dofs_per_cell).

Variables (fv : FEV) (q : 'I_n_q_points) (rhs_value : R).
Variable convection : Tensor R dim.

Local Notation fill := (volume_fill_caches fv q).
Local Notation accumulate := (volume_accumulate fv q rhs_value convection).

(** The first loop of the body: the four caches are filled. *)
Lemma fill_caches (s : Scratch) (i : 'I_loc_dofs_per_cell) :
  [/\ nth 0 (q_phi (fill s)) i = fluxes_value fv i q,
      nth 0 (q_phi_div (fill s)) i = fluxes_divergence fv i q,
      nth 0 (u_phi (fill s)) i = scalar_value fv i q
    & nth 0 (u_phi_grad (fill s)) i = scalar_gradient fv i q].
Proof.
have Hi : i \in enum 'I_loc_dofs_per_cell by rewrite mem_enum.
have Hu := uniq_enum_ord_val loc_dofs_per_cell.
split; rewrite /fill.
- rewrite (for_each_proj (get := @q_phi _ _ _ _)
    (step := fun k a => set_nth 0 a (val k) (fluxes_value fv k q))) //.
  by apply: (@fill_nth _ _ _ val).
- rewrite (for_each_proj (get := @q_phi_div _ _ _ _)
    (step := fun k a => set_nth 0 a (val k) (fluxes_divergence fv k q))) //.
  by apply: (@fill_nth _ _ _ val).
- rewrite (for_each_proj (get := @u_phi _ _ _ _)
    (step := fun k a => set_nth 0 a (val k) (scalar_value fv k q))) //.
  by apply: (@fill_nth _ _ _ val).
- rewrite (for_each_proj (get := @u_phi_grad _ _ _ _)
    (step := fun k a => set_nth 0 a (val k) (scalar_gradient fv k q))) //.
  by apply: (@fill_nth _ _ _ val).
Qed.

(** The entry added to [ll_matrix], read from the caches. *)
Local Notation ll_term s i j :=
  ((dot (nth 0 (q_phi s) i) (nth 0 (q_phi s) j)
    - nth 0 (q_phi_div s) i * nth 0 (u_phi s) j
    + nth 0 (u_phi s) i * nth 0 (q_phi_div s) j
    - dot (nth 0 (u_phi_grad s) i) convection * nth 0 (u_phi s) j)
   * JxW fv q).

Lemma accumulate_ll (s : Scratch) :
  ll_matrix (accumulate s)
  = ll_matrix s + \matrix_(i, j) ll_term s i j.
Proof.
rewrite -sum_delta_matrix /accumulate.
rewrite (for_each_sum (get := @ll_matrix _ _ _ _)
  (inc := fun (i : 'I_loc_dofs_per_cell) (s' : Scratch) =>
     \sum_(j <- enum 'I_loc_dofs_per_cell) ll_term s' i j *: delta_mx i j)) //.
- move=> i s' /=.
  rewrite (for_each_sum (get := @ll_matrix _ _ _ _)
    (inc := fun (j : 'I_loc_dofs_per_cell) (s'' : Scratch) =>
       ll_term s'' i j *: delta_mx i j)) //.
  by move=> j s'' /=; rewrite add_entry_delta.
- move=> i j s'; apply: eq_bigr => k _; congr (_ *: _).
  by rewrite /=; do !frame_loop.
Qed.

Lemma accumulate_l_rhs (s : Scratch) :
  l_rhs (accumulate s)
  = l_rhs s + \col_i (nth 0 (u_phi s) i * rhs_value * JxW fv q).
Proof.
rewrite -sum_delta_col /accumulate.
rewrite (for_each_sum (get := @l_rhs _ _ _ _)
  (inc := fun (i : 'I_loc_dofs_per_cell) (s' : Scratch) =>
     (nth 0 (u_phi s') i * rhs_value * JxW fv q) *: delta_mx i 0)) //.
- move=> i s' /=; rewrite add_entry_delta.
  by do !frame_loop.
- by move=> i j s' /=; do !frame_loop.
Qed.

Lemma volume_point_ll (s : Scratch) :
  ll_matrix (assemble_volume_point fv q rhs_value convection s)
  = ll_matrix s + volume_ll fv q convection.
Proof.
rewrite /assemble_volume_point accumulate_ll; congr (_ + _).
  by rewrite /fill; frame_loop.
apply/matrixP=> i j; rewrite !mxE.
case: (fill_caches s i) => -> -> -> ->.
by case: (fill_caches s j) => -> -> -> _.
Qed.

Lemma volume_point_l_rhs (s : Scratch) :
  l_rhs (assemble_volume_point fv q rhs_value convection s)
  = l_rhs s + volume_rhs fv q rhs_value.
Proof.
rewrite /assemble_volume_point accumulate_l_rhs; congr (_ + _).
  by rewrite /fill; frame_loop.
apply/matrixP=> i j; rewrite !mxE.
by case: (fill_caches s i) => _ _ -> _.
Qed.

(** Everything but [ll_matrix], [l_rhs] and the caches stays as it is. *)
Lemma volume_point_frame (s : Scratch) :
  let s' := assemble_volume_point fv q rhs_value convection s in
  [/\ lf_matrix s' = lf_matrix s, fl_matrix s' = fl_matrix s,
      ff_matrix s' = ff_matrix s, f_rhs s' = f_rhs s
    & same_context s' s].
Proof.
rewrite /same_context /assemble_volume_point.
by split; [| | | | split]; do ?frame_loop.
Qed.

End VolumePoint.

(** ** One face quadrature point *)

Section FacePoint.

Variable R : realFieldType.
Variables (dim loc_dofs_per_cell dofs_per_cell n_face_q_points : nat).

Notation Scratch := (ScratchData R dim loc_dofs_per_cell dofs_per_cell).
Notation FEF :=
  (FEFaceValues R dim loc_dofs_per_cell dofs_per_cell n_face_q_points).

Variables (data : EquationData R dim) (fv : FEF).
Variables (face : 'I_(faces_per_cell dim)) (q : 'I_n_face_q_points).
Variable convection : Tensor R dim.

Notation normal := (normal_vector fv q).
Notation tau := (tau_stab convection (normal_vector fv q)).
Notation w := (face_JxW fv q).

(** The loops of the body, over given support lists. *)
Section Stages.

Variables (Sl : seq 'I_loc_dofs_per_cell) (Sf : seq 'I_dofs_per_cell).

Local Notation local_support := (enumerate Sl).
Local Notation support := (enumerate Sf).
Local Notation fill_local := (face_fill_local fv q local_support).
Local Notation fill_trace := (face_fill_trace fv q support).
Local Notation couple := (face_couple fv q convection local_support support).
Local Notation skeleton := (face_skeleton fv q convection support).
Local Notation neumann := (face_neumann_loop fv q support data).
Local Notation penalty := (face_penalty fv q convection local_support).
Local Notation fold_trace := (face_fold_trace fv q convection local_support).
Local Notation stages :=
  (face_point_loops fv q convection local_support support data).

(** The entries added by the loops, read from the caches. *)
Local Notation lf_term s i j :=
  ((dot (nth 0 (q_phi s) (fst i)) normal
    + (dot convection normal - tau) * nth 0 (u_phi s) (fst i))
   * nth 0 (tr_phi s) (fst j) * w).
Local Notation fl_term s i j :=
  ((dot (nth 0 (q_phi s) (fst i)) normal + tau * nth 0 (u_phi s) (fst i))
   * nth 0 (tr_phi s) (fst j) * w).
Local Notation ff_term s i j :=
  ((dot convection normal - tau)
   * nth 0 (tr_phi s) (fst i) * nth 0 (tr_phi s) (fst j) * w).
Local Notation neumann_term s i :=
  (nth 0 (tr_phi s) (fst i)
   * exact_solution_value data (face_quadrature_point fv q) * w).
Local Notation ll_term s i j :=
  (tau * nth 0 (u_phi s) (fst i) * nth 0 (u_phi s) (fst j) * w).
Local Notation trace_term s i :=
  ((dot (nth 0 (q_phi s) (fst i)) normal
    + nth 0 (u_phi s) (fst i) * (dot convection normal - tau))
   * nth 0 (trace_values s) q * w).

Lemma couple_lf (s : Scratch) :
  lf_matrix (couple s)
  = lf_matrix s
    + \sum_(i <- local_support) \sum_(j <- support)
        lf_term s i j *: delta_mx i.2 j.2.
Proof.
rewrite /couple.
rewrite (for_each_sum (get := @lf_matrix _ _ _ _)
  (inc := fun (i : nat * 'I_loc_dofs_per_cell) (s' : Scratch) =>
            \sum_(j <- support) lf_term s' i j *: delta_mx i.2 j.2)) //.
- move=> i s' /=.
  rewrite (for_each_sum (get := @lf_matrix _ _ _ _)
    (inc := fun (j : nat * 'I_dofs_per_cell) (s'' : Scratch) =>
              lf_term s'' i j *: delta_mx i.2 j.2)) //.
  by move=> j s'' /=; rewrite add_entry_delta.
- move=> i j s'; apply: eq_bigr => k _; congr (_ *: _).
  by rewrite /=; do !frame_loop.
Qed.

Lemma couple_fl (s : Scratch) :
  fl_matrix (couple s)
  = fl_matrix s
    + \sum_(i <- local_support) \sum_(j <- support)
        (- fl_term s i j) *: delta_mx j.2 i.2.
Proof.
rewrite /couple.
rewrite (for_each_sum (get := @fl_matrix _ _ _ _)
  (inc := fun (i : nat * 'I_loc_dofs_per_cell) (s' : Scratch) =>
            \sum_(j <- support) (- fl_term s' i j) *: delta_mx j.2 i.2)) //.
- move=> i s' /=.
  rewrite (for_each_sum (get := @fl_matrix _ _ _ _)
    (inc := fun (j : nat * 'I_dofs_per_cell) (s'' : Scratch) =>
              (- fl_term s'' i j) *: delta_mx j.2 i.2)) //.
  by move=> j s'' /=; rewrite sub_entry_delta.
- move=> i j s'; apply: eq_bigr => k _; congr (_ *: _).
  by rewrite /=; do !frame_loop.
Qed.

Lemma skeleton_ff (s : Scratch) :
  ff_matrix (skeleton s)
  = ff_matrix s
    + \sum_(i <- support) \sum_(j <- support)
        ff_term s i j *: delta_mx i.2 j.2.
Proof.
rewrite /skeleton.
rewrite (for_each_sum (get := @ff_matrix _ _ _ _)
  (inc := fun (i : nat * 'I_dofs_per_cell) (s' : Scratch) =>
            \sum_(j <- support) ff_term s' i j *: delta_mx i.2 j.2)) //.
- move=> i s' /=.
  rewrite (for_each_sum (get := @ff_matrix _ _ _ _)
    (inc := fun (j : nat * 'I_dofs_per_cell) (s'' : Scratch) =>
              ff_term s'' i j *: delta_mx i.2 j.2)) //.
  by move=> j s'' /=; rewrite add_entry_delta.
- move=> i j s'; apply: eq_bigr => k _; congr (_ *: _).
  by rewrite /=; do !frame_loop.
Qed.

Lemma neumann_f_rhs (s : Scratch) :
  f_rhs (neumann s)
  = f_rhs s + \sum_(i <- support) (- neumann_term s i) *: delta_mx i.2 0.
Proof.
rewrite /neumann.
rewrite (for_each_sum (get := @f_rhs _ _ _ _)
  (inc := fun (i : nat * 'I_dofs_per_cell) (s' : Scratch) =>
            (- neumann_term s' i) *: delta_mx i.2 0)) //.
by move=> i s' /=; rewrite sub_entry_delta.
Qed.

Lemma penalty_ll (s : Scratch) :
  ll_matrix (penalty s)
  = ll_matrix s
    + \sum_(i <- local_support) \sum_(j <- local_support)
        ll_term s i j *: delta_mx i.2 j.2.
Proof.
rewrite /penalty.
rewrite (for_each_sum (get := @ll_matrix _ _ _ _)
  (inc := fun (i : nat * 'I_loc_dofs_per_cell) (s' : Scratch) =>
            \sum_(j <- local_support) ll_term s' i j *: delta_mx i.2 j.2)) //.
- move=> i s' /=.
  rewrite (for_each_sum (get := @ll_matrix _ _ _ _)
    (inc := fun (j : nat * 'I_loc_dofs_per_cell) (s'' : Scratch) =>
              ll_term s'' i j *: delta_mx i.2 j.2)) //.
  by move=> j s'' /=; rewrite add_entry_delta.
- move=> i j s'; apply: eq_bigr => k _; congr (_ *: _).
  by rewrite /=; do !frame_loop.
Qed.

Lemma fold_trace_l_rhs (s : Scratch) :
  l_rhs (fold_trace s)
  = l_rhs s + \sum_(i <- local_support) (- trace_term s i) *: delta_mx i.2 0.
Proof.
rewrite /fold_trace.
rewrite (for_each_sum (get := @l_rhs _ _ _ _)
  (inc := fun (i : nat * 'I_loc_dofs_per_cell) (s' : Scratch) =>
            (- trace_term s' i) *: delta_mx i.2 0)) //.
by move=> i s' /=; rewrite sub_entry_delta.
Qed.

Lemma face_pointE (s : Scratch) :
  fe_local_support_on_face s face = Sl -> fe_support_on_face s face = Sf ->
  assemble_face_point data fv face q convection s = stages s.
Proof. by move=> Hl Hf; rewrite /assemble_face_point Hl Hf. Qed.

Lemma fill_local_caches (s : Scratch) (k : nat * 'I_loc_dofs_per_cell) :
  k \in local_support ->
  nth 0 (q_phi (fill_local s)) k.1 = face_fluxes_value fv k.2 q
  /\ nth 0 (u_phi (fill_local s)) k.1 = face_scalar_value fv k.2 q.
Proof.
move=> Hk; have Hu := uniq_enumerate_keys Sl.
split; rewrite /fill_local.
- rewrite (for_each_proj (get := @q_phi _ _ _ _)
    (step := fun k a => set_nth 0 a k.1 (face_fluxes_value fv k.2 q))) //.
  by apply: (@fill_nth _ _ _ fst).
- rewrite (for_each_proj (get := @u_phi _ _ _ _)
    (step := fun k a => set_nth 0 a k.1 (face_scalar_value fv k.2 q))) //.
  by apply: (@fill_nth _ _ _ fst).
Qed.

Lemma fill_trace_cache (s : Scratch) (k : nat * 'I_dofs_per_cell) :
  k \in support ->
  nth 0 (tr_phi (fill_trace s)) k.1 = shape_value fv k.2 q.
Proof.
move=> Hk; have Hu := uniq_enumerate_keys Sf.
rewrite /fill_trace.
rewrite (for_each_proj (get := @tr_phi _ _ _ _)
  (step := fun k a => set_nth 0 a k.1 (shape_value fv k.2 q))) //.
by apply: (@fill_nth _ _ _ fst).
Qed.

(** The body on the assembly pass and on the reconstruction pass. *)
Lemma stages_assemble (s : Scratch) :
  scratch_trace_reconstruct s = false ->
  stages s
  = penalty (let s' := skeleton (couple (fill_trace (fill_local s))) in
             if neumann_face fv then neumann s' else s').
Proof.
move=> Hs; rewrite /stages /neumann_face.
have -> : scratch_trace_reconstruct (fill_local s) = false.
  by rewrite /fill_local; frame_loop.
rewrite /=; case: (at_boundary fv && _).
- have -> // : scratch_trace_reconstruct
    (penalty (neumann (skeleton (couple (fill_trace (fill_local s))))))
    = false.
  by rewrite /penalty /neumann /skeleton /couple /fill_trace /fill_local;
     frame_loop.
- have -> // : scratch_trace_reconstruct
    (penalty (skeleton (couple (fill_trace (fill_local s))))) = false.
  by rewrite /penalty /skeleton /couple /fill_trace /fill_local; frame_loop.
Qed.

Lemma stages_reconstruct (s : Scratch) :
  scratch_trace_reconstruct s = true ->
  stages s = fold_trace (penalty (fill_local s)).
Proof.
move=> Hs; rewrite /stages.
have -> : scratch_trace_reconstruct (fill_local s) = true.
  by rewrite /fill_local; frame_loop.
rewrite /=.
have -> // : scratch_trace_reconstruct (penalty (fill_local s)) = true.
by rewrite /penalty /fill_local; frame_loop.
Qed.

Lemma face_point_ll (s : Scratch) :
  fe_local_support_on_face s face = Sl -> fe_support_on_face s face = Sf ->
  ll_matrix (assemble_face_point data fv face q convection s)
  = ll_matrix s + face_ll fv Sl q convection.
Proof.
move=> Hl Hf; rewrite face_pointE //.
case Hs: (scratch_trace_reconstruct s).
- rewrite stages_reconstruct // /fold_trace.
  rewrite [LHS]for_each_frame // penalty_ll; congr (_ + _).
    by rewrite /fill_local; frame_loop.
  apply: sum_enumerate2 => i j Hi Hj.
  by rewrite (fill_local_caches s Hi).2 (fill_local_caches s Hj).2.
- rewrite stages_assemble // penalty_ll; congr (_ + _).
    rewrite /=; case: (neumann_face fv);
    by rewrite /neumann /skeleton /couple /fill_trace /fill_local; frame_loop.
  apply: sum_enumerate2 => i j Hi Hj; rewrite /=.
  have -> : u_phi (if neumann_face fv
                   then neumann (skeleton (couple (fill_trace (fill_local s))))
                   else skeleton (couple (fill_trace (fill_local s))))
            = u_phi (fill_local s).
    by case: (neumann_face fv); rewrite /neumann /skeleton /couple /fill_trace;
       frame_loop.
  by rewrite (fill_local_caches s Hi).2 (fill_local_caches s Hj).2.
Qed.

(** The assembly pass. *)
Section AssemblyPass.

Variable s : Scratch.
Hypothesis Hl : fe_local_support_on_face s face = Sl.
Hypothesis Hf : fe_support_on_face s face = Sf.
Hypothesis Hs : scratch_trace_reconstruct s = false.

Local Notation filled := (fill_trace (fill_local s)).

Lemma caches_filled (i : nat * 'I_loc_dofs_per_cell)
    (j : nat * 'I_dofs_per_cell) :
  i \in local_support -> j \in support ->
  [/\ nth 0 (q_phi filled) i.1 = face_fluxes_value fv i.2 q,
      nth 0 (u_phi filled) i.1 = face_scalar_value fv i.2 q
    & nth 0 (tr_phi filled) j.1 = shape_value fv j.2 q].
Proof.
move=> Hi Hj; split.
- rewrite -(fill_local_caches s Hi).1 /fill_trace; congr (nth _ _ _).
  by frame_loop.
- rewrite -(fill_local_caches s Hi).2 /fill_trace; congr (nth _ _ _).
  by frame_loop.
- exact: fill_trace_cache.
Qed.

Lemma face_point_lf_assemble :
  lf_matrix (assemble_face_point data fv face q convection s)
  = lf_matrix s + face_lf fv Sl Sf q convection.
Proof.
rewrite face_pointE // stages_assemble //.
have -> : lf_matrix
    (penalty (let s' := skeleton (couple filled) in
              if neumann_face fv then neumann s' else s'))
    = lf_matrix (couple filled).
  by rewrite /=; case: (neumann_face fv); rewrite /penalty /neumann /skeleton;
     frame_loop.
rewrite couple_lf; congr (_ + _).
  by rewrite /fill_trace /fill_local; frame_loop.
apply: sum_enumerate2 => i j Hi Hj.
by case: (caches_filled Hi Hj) => -> -> ->.
Qed.

Lemma face_point_fl_assemble :
  fl_matrix (assemble_face_point data fv face q convection s)
  = fl_matrix s + face_fl fv Sl Sf q convection.
Proof.
rewrite face_pointE // stages_assemble //.
have -> : fl_matrix
    (penalty (let s' := skeleton (couple filled) in
              if neumann_face fv then neumann s' else s'))
    = fl_matrix (couple filled).
  by rewrite /=; case: (neumann_face fv); rewrite /penalty /neumann /skeleton;
     frame_loop.
rewrite couple_fl; congr (_ + _).
  by rewrite /fill_trace /fill_local; frame_loop.
apply: sum_enumerate2 => i j Hi Hj.
by case: (caches_filled Hi Hj) => -> -> ->.
Qed.

Lemma face_point_ff_assemble :
  ff_matrix (assemble_face_point data fv face q convection s)
  = ff_matrix s + face_ff fv Sf q convection.
Proof.
rewrite face_pointE // stages_assemble //.
have -> : ff_matrix
    (penalty (let s' := skeleton (couple filled) in
              if neumann_face fv then neumann s' else s'))
    = ff_matrix (skeleton (couple filled)).
  by rewrite /=; case: (neumann_face fv); rewrite /penalty /neumann;
     frame_loop.
rewrite skeleton_ff; congr (_ + _).
  by rewrite /couple /fill_trace /fill_local; frame_loop.
apply: sum_enumerate2 => i j Hi Hj.
have -> : tr_phi (couple filled) = tr_phi filled.
  by rewrite /couple; frame_loop.
by rewrite (fill_trace_cache _ Hi) (fill_trace_cache _ Hj).
Qed.

Lemma face_point_f_rhs_assemble :
  f_rhs (assemble_face_point data fv face q convection s)
  = f_rhs s + (if neumann_face fv then face_neumann data fv Sf q else 0).
Proof.
rewrite face_pointE // stages_assemble //=.
have Hx : f_rhs (skeleton (couple filled)) = f_rhs s.
  by rewrite /skeleton /couple /fill_trace /fill_local; frame_loop.
case: (neumann_face fv); last first.
  by rewrite addr0 -Hx /penalty; frame_loop.
have -> : f_rhs (penalty (neumann (skeleton (couple filled))))
          = f_rhs (neumann (skeleton (couple filled))).
  by rewrite /penalty; frame_loop.
rewrite neumann_f_rhs Hx; congr (_ + _).
apply: sum_enumerate => i Hi.
have -> : tr_phi (skeleton (couple filled)) = tr_phi filled.
  by rewrite /skeleton /couple; frame_loop.
by rewrite (fill_trace_cache _ Hi).
Qed.

Lemma face_point_l_rhs_assemble :
  l_rhs (assemble_face_point data fv face q convection s) = l_rhs s.
Proof.
rewrite face_pointE // stages_assemble //=.
by case: (neumann_face fv);
   rewrite /penalty /neumann /skeleton /couple /fill_trace /fill_local;
   frame_loop.
Qed.

End AssemblyPass.

(** The reconstruction pass. *)
Section ReconstructionPass.

Variable s : Scratch.
Hypothesis Hl : fe_local_support_on_face s face = Sl.
Hypothesis Hf : fe_support_on_face s face = Sf.
Hypothesis Hs : scratch_trace_reconstruct s = true.

Lemma face_point_l_rhs_reconstruct :
  l_rhs (assemble_face_point data fv face q convection s)
  = l_rhs s
    + face_trace_rhs fv Sl q convection (nth 0 (trace_values s) q).
Proof.
rewrite face_pointE // stages_reconstruct // fold_trace_l_rhs; congr (_ + _).
  by rewrite /penalty /fill_local; frame_loop.
apply: sum_enumerate => i Hi.
have -> : q_phi (penalty (fill_local s)) = q_phi (fill_local s).
  by rewrite /penalty; frame_loop.
have -> : u_phi (penalty (fill_local s)) = u_phi (fill_local s).
  by rewrite /penalty; frame_loop.
have -> : trace_values (penalty (fill_local s)) = trace_values s.
  by rewrite /penalty /fill_local; frame_loop.
by rewrite (fill_local_caches s Hi).1 (fill_local_caches s Hi).2.
Qed.

Lemma face_point_frame_reconstruct :
  let s' := assemble_face_point data fv face q convection s in
  [/\ lf_matrix s' = lf_matrix s, fl_matrix s' = fl_matrix s,
      ff_matrix s' = ff_matrix s & f_rhs s' = f_rhs s].
Proof.
rewrite /= face_pointE // stages_reconstruct //.
by split; rewrite /fold_trace /penalty /fill_local; frame_loop.
Qed.

End ReconstructionPass.

(** On both passes. *)
Lemma face_point_context (s : Scratch) :
  fe_local_support_on_face s face = Sl -> fe_support_on_face s face = Sf ->
  let s' := assemble_face_point data fv face q convection s in
  same_context s' s /\ trace_values s' = trace_values s.
Proof.
move=> Hl Hf; rewrite /= face_pointE //.
case Hs: (scratch_trace_reconstruct s).
  rewrite stages_reconstruct // /same_context.
  by split; [split|]; rewrite /fold_trace /penalty /fill_local; frame_loop.
rewrite stages_assemble // /same_context /=.
by case: (neumann_face fv); (split; [split|]);
   rewrite /penalty /neumann /skeleton /couple /fill_trace /fill_local;
   frame_loop.
Qed.

End Stages.

End FacePoint.

(** ** The convection field *)

Section Convection.

Variable R : realFieldType.
Variable dim : nat.

Lemma ConvectionVelocity_value_supported (p : Point R dim) :
  dim_supported dim -> ConvectionVelocity_value p = Ok (convection_field p).
Proof.
rewrite /dim_supported /convection_field.
by move: p; case: dim => [|[|[|[|n]]]].
Qed.

Lemma ConvectionVelocity_value_unsupported (p : Point R dim) :
  ~~ dim_supported dim -> ConvectionVelocity_value p = Raise ExcNotImplemented.
Proof.
rewrite /dim_supported.
by move: p; case: dim => [|[|[|[|n]]]].
Qed.

Lemma RightHandSide_value_supported (data : EquationData R dim)
    (p : Point R dim) :
  dim_supported dim -> RightHandSide_value data p = Ok (source_field data p).
Proof.
by move=> Hdim; rewrite /RightHandSide_value ConvectionVelocity_value_supported.
Qed.

Lemma RightHandSide_value_unsupported (data : EquationData R dim)
    (p : Point R dim) :
  ~~ dim_supported dim -> RightHandSide_value data p = Raise ExcNotImplemented.
Proof.
by move=> Hdim; rewrite /RightHandSide_value ConvectionVelocity_value_unsupported.
Qed.

End Convection.

(** ** One face quadrature point, on either pass *)

Section FacePointBothPasses.

Variable R : realFieldType.
Variables (dim loc_dofs_per_cell dofs_per_cell n_face_q_points : nat).

Notation Scratch := (ScratchData R dim loc_dofs_per_cell dofs_per_cell).

Variable data : EquationData R dim.
Variable fv : FEFaceValues R dim loc_dofs_per_cell dofs_per_cell n_face_q_points.
Variables (face : 'I_(faces_per_cell dim)) (q : 'I_n_face_q_points).
Variable convection : Tensor R dim.
Variable s : Scratch.

Notation after := (assemble_face_point data fv face q convection s).

Lemma face_point_lf :
  lf_matrix after
  = lf_matrix s
    + (if scratch_trace_reconstruct s then 0
       else face_lf fv (fe_local_support_on_face s face)
              (fe_support_on_face s face) q convection).
Proof.
case Hs: (scratch_trace_reconstruct s); last exact: face_point_lf_assemble.
by rewrite addr0; case: (@face_point_frame_reconstruct _ _ _ _ _ data fv face
                           q convection _ _ s (erefl _) (erefl _) Hs).
Qed.

Lemma face_point_fl :
  fl_matrix after
  = fl_matrix s
    + (if scratch_trace_reconstruct s then 0
       else face_fl fv (fe_local_support_on_face s face)
              (fe_support_on_face s face) q convection).
Proof.
case Hs: (scratch_trace_reconstruct s); last exact: face_point_fl_assemble.
by rewrite addr0; case: (@face_point_frame_reconstruct _ _ _ _ _ data fv face
                           q convection _ _ s (erefl _) (erefl _) Hs).
Qed.

Lemma face_point_ff :
  ff_matrix after
  = ff_matrix s
    + (if scratch_trace_reconstruct s then 0
       else face_ff fv (fe_support_on_face s face) q convection).
Proof.
case Hs: (scratch_trace_reconstruct s).
  by rewrite addr0; case: (@face_point_frame_reconstruct _ _ _ _ _ data fv
                             face q convection _ _ s (erefl _) (erefl _) Hs).
exact: (face_point_ff_assemble data fv q convection (erefl _) (erefl _) Hs).
Qed.

Lemma face_point_f_rhs :
  f_rhs after
  = f_rhs s
    + (if scratch_trace_reconstruct s then 0
       else if neumann_face fv
            then face_neumann data fv (fe_support_on_face s face) q else 0).
Proof.
case Hs: (scratch_trace_reconstruct s).
  by rewrite addr0; case: (@face_point_frame_reconstruct _ _ _ _ _ data fv
                             face q convection _ _ s (erefl _) (erefl _) Hs).
exact: (face_point_f_rhs_assemble data fv q convection (erefl _) (erefl _) Hs).
Qed.

Lemma face_point_l_rhs :
  l_rhs after
  = l_rhs s
    + (if scratch_trace_reconstruct s
       then face_trace_rhs fv (fe_local_support_on_face s face) q convection
              (nth 0 (trace_values s) q)
       else 0).
Proof.
case Hs: (scratch_trace_reconstruct s).
  exact: (face_point_l_rhs_reconstruct data fv q convection (erefl _)
            (erefl _) Hs).
rewrite addr0.
exact: (face_point_l_rhs_assemble data fv q convection (erefl _) (erefl _) Hs).
Qed.

End FacePointBothPasses.

(** ** The loops over the quadrature points, the faces and the cell *)

Section LocalBlocks.

Variable R : realFieldType.
Variables (dim n_q_points loc_dofs_per_cell dofs_per_cell : nat).
Variables (n_face_q_points post_dofs post_q_points : nat).

Notation Scratch := (ScratchData R dim loc_dofs_per_cell dofs_per_cell).
Notation CellT :=
  (Cell R dim n_q_points loc_dofs_per_cell dofs_per_cell n_face_q_points
     post_dofs post_q_points).

Variables (data : EquationData R dim) (cell : CellT).

Lemma nth_get_function_values (n k : nat) (shape : 'I_n -> 'I_k -> R)
    (dofs : 'I_n -> nat) (v : seq R) (q : 'I_k) :
  nth 0 (get_function_values shape dofs v) q
  = \sum_(j < n) nth 0 v (dofs j) * shape j q.
Proof.
by rewrite /get_function_values (nth_map q) ?size_enum_ord // nth_ord_enum.
Qed.

Lemma nth_get_function_values_vector (n k : nat)
    (shape : 'I_n -> 'I_k -> Tensor R dim) (dofs : 'I_n -> nat) (v : seq R)
    (q : 'I_k) :
  nth 0 (get_function_values_vector shape dofs v) q
  = \sum_(j < n) nth 0 v (dofs j) *: shape j q.
Proof.
by rewrite /get_function_values_vector (nth_map q) ?size_enum_ord //
           nth_ord_enum.
Qed.

Lemma same_context_refl (s : Scratch) : same_context s s.
Proof. by split. Qed.

Lemma same_context_trans (s1 s2 s3 : Scratch) :
  same_context s1 s2 -> same_context s2 s3 -> same_context s1 s3.
Proof.
by case=> ? ? ? ? ? [? ? ? ? ?]; split; etransitivity; eassumption.
Qed.

Lemma for_each_context (I : Type) (r : seq I) (body : I -> Scratch -> Scratch)
    (s : Scratch) :
  (forall i s', same_context (body i s') s') ->
  same_context (for_each r body s) s.
Proof.
move=> Hb; elim: r s => [|i r IH] s; first exact: same_context_refl.
by rewrite for_each_cons; apply: same_context_trans (IH _) (Hb _ _).
Qed.

(** The passes of the three loops when no exception is raised. *)
Local Notation volume_pass := (cell_volume_pass data cell).
Local Notation face_point_pass := (cell_face_point_pass data cell).
Local Notation read_trace := (read_trace cell).
Local Notation face_pass := (cell_face_pass data cell).
Local Notation reset := (@reset_blocks R dim loc_dofs_per_cell dofs_per_cell).
Local Notation blocks := (cell_blocks data cell).

Lemma assemble_local_blocks_supported (s : Scratch) :
  dim_supported dim -> assemble_local_blocks data cell s = Ok (blocks s).
Proof.
move=> Hdim; rewrite /assemble_local_blocks.
rewrite (for_each_m_ok (pure := volume_pass)) /=.
  move=> q s'; rewrite /assemble_volume_q RightHandSide_value_supported //=.
  by rewrite ConvectionVelocity_value_supported.
rewrite /blocks /reset; apply: for_each_m_ok => face s'.
rewrite /assemble_face /face_pass /read_trace.
apply: for_each_m_ok => q s''; rewrite /assemble_face_q.
by rewrite ConvectionVelocity_value_supported.
Qed.

(** Context. *)
Lemma volume_pass_context (q : 'I_n_q_points) (s : Scratch) :
  same_context (volume_pass q s) s.
Proof.
by case: (volume_point_frame (fe_values_local cell) q
            (source_field data (quadrature_point (fe_values_local cell) q))
            (cell_convection cell q) s).
Qed.

Lemma face_point_pass_context (face : 'I_(faces_per_cell dim))
    (q : 'I_n_face_q_points) (s : Scratch) :
  same_context (face_point_pass face q s) s.
Proof.
by case: (@face_point_context _ _ _ _ _ data (cell_face cell face) face q
            (face_convection cell face q) _ _ s (erefl _) (erefl _)).
Qed.

Lemma read_trace_context (face : 'I_(faces_per_cell dim)) (s : Scratch) :
  same_context (read_trace face s) s.
Proof. by rewrite /read_trace; case: ifP. Qed.

Lemma face_pass_context (face : 'I_(faces_per_cell dim)) (s : Scratch) :
  same_context (face_pass face s) s.
Proof.
apply: same_context_trans (read_trace_context face s).
by apply: for_each_context => q s'; apply: face_point_pass_context.
Qed.

Lemma reset_context (s : Scratch) : same_context (reset s) s.
Proof. by rewrite /reset /=; case: (scratch_trace_reconstruct s). Qed.

Lemma blocks_context (s : Scratch) : same_context (blocks s) s.
Proof.
apply: same_context_trans (reset_context s).
apply: same_context_trans;
  first by apply: for_each_context => face s'; apply: face_pass_context.
by apply: for_each_context => q s'; apply: volume_pass_context.
Qed.

(** The trace values that [read_trace] leaves for the loop over the points of
    a face are not changed by that loop. *)
Lemma face_point_pass_trace_values (face : 'I_(faces_per_cell dim))
    (q : 'I_n_face_q_points) (s : Scratch) :
  trace_values (face_point_pass face q s) = trace_values s.
Proof.
by case: (@face_point_context _ _ _ _ _ data (cell_face cell face) face q
            (face_convection cell face q) _ _ s (erefl _) (erefl _)).
Qed.

(** *** One face *)

Section OneFace.

Variables (face : 'I_(faces_per_cell dim)) (s : Scratch).

Notation fv := (cell_face cell face).
Notation Sl := (fe_local_support_on_face s face).
Notation Sf := (fe_support_on_face s face).

Lemma face_pass_ll :
  ll_matrix (face_pass face s)
  = ll_matrix s
    + \sum_(q < n_face_q_points) face_ll fv Sl q (face_convection cell face q).
Proof.
rewrite /face_pass.
rewrite (for_each_sum (get := @ll_matrix _ _ _ _)
  (inc := fun q (s' : Scratch) =>
     face_ll fv (fe_local_support_on_face s' face) q
       (face_convection cell face q))).
- by move=> q s'; apply: face_point_ll.
- by move=> i j s'; case: (face_point_pass_context face j s') => _ _ -> _ _.
- rewrite big_enum_ord; case: (read_trace_context face s) => _ _ -> _ _.
  by rewrite /read_trace; case: ifP.
Qed.

Lemma face_pass_lf :
  lf_matrix (face_pass face s)
  = lf_matrix s
    + (if scratch_trace_reconstruct s then 0
       else \sum_(q < n_face_q_points)
              face_lf fv Sl Sf q (face_convection cell face q)).
Proof.
rewrite /face_pass.
rewrite (for_each_sum (get := @lf_matrix _ _ _ _)
  (inc := fun q (s' : Scratch) =>
     if scratch_trace_reconstruct s' then 0
     else face_lf fv (fe_local_support_on_face s' face)
            (fe_support_on_face s' face) q (face_convection cell face q))).
- by move=> q s'; apply: face_point_lf.
- by move=> i j s'; case: (face_point_pass_context face j s') => _ _ -> -> ->.
- rewrite big_enum_ord; case: (read_trace_context face s) => _ _ -> -> ->.
  rewrite /read_trace; case: ifP => _ //=.
  by rewrite big1.
Qed.

Lemma face_pass_fl :
  fl_matrix (face_pass face s)
  = fl_matrix s
    + (if scratch_trace_reconstruct s then 0
       else \sum_(q < n_face_q_points)
              face_fl fv Sl Sf q (face_convection cell face q)).
Proof.
rewrite /face_pass.
rewrite (for_each_sum (get := @fl_matrix _ _ _ _)
  (inc := fun q (s' : Scratch) =>
     if scratch_trace_reconstruct s' then 0
     else face_fl fv (fe_local_support_on_face s' face)
            (fe_support_on_face s' face) q (face_convection cell face q))).
- by move=> q s'; apply: face_point_fl.
- by move=> i j s'; case: (face_point_pass_context face j s') => _ _ -> -> ->.
- rewrite big_enum_ord; case: (read_trace_context face s) => _ _ -> -> ->.
  rewrite /read_trace; case: ifP => _ //=.
  by rewrite big1.
Qed.

Lemma face_pass_ff :
  ff_matrix (face_pass face s)
  = ff_matrix s
    + (if scratch_trace_reconstruct s then 0
       else \sum_(q < n_face_q_points)
              face_ff fv Sf q (face_convection cell face q)).
Proof.
rewrite /face_pass.
rewrite (for_each_sum (get := @ff_matrix _ _ _ _)
  (inc := fun q (s' : Scratch) =>
     if scratch_trace_reconstruct s' then 0
     else face_ff fv (fe_support_on_face s' face) q
            (face_convection cell face q))).
- by move=> q s'; apply: face_point_ff.
- by move=> i j s'; case: (face_point_pass_context face j s') => _ _ _ -> ->.
- rewrite big_enum_ord; case: (read_trace_context face s) => _ _ _ -> ->.
  rewrite /read_trace; case: ifP => _ //=.
  by rewrite big1.
Qed.

Lemma face_pass_f_rhs :
  f_rhs (face_pass face s)
  = f_rhs s
    + (if scratch_trace_reconstruct s then 0
       else \sum_(q < n_face_q_points)
              (if neumann_face fv then face_neumann data fv Sf q else 0)).
Proof.
rewrite /face_pass.
rewrite (for_each_sum (get := @f_rhs _ _ _ _)
  (inc := fun q (s' : Scratch) =>
     if scratch_trace_reconstruct s' then 0
     else if neumann_face fv
          then face_neumann data fv (fe_support_on_face s' face) q else 0)).
- by move=> q s'; apply: face_point_f_rhs.
- by move=> i j s'; case: (face_point_pass_context face j s') => _ _ _ -> ->.
- rewrite big_enum_ord; case: (read_trace_context face s) => _ _ _ -> ->.
  rewrite /read_trace; case: ifP => _ //=.
  by rewrite big1.
Qed.

Lemma face_pass_l_rhs :
  l_rhs (face_pass face s)
  = l_rhs s
    + (if scratch_trace_reconstruct s
       then \sum_(q < n_face_q_points)
              face_trace_rhs fv Sl q (face_convection cell face q)
                (trace_value cell face (scratch_solution s) q)
       else 0).
Proof.
rewrite /face_pass.
rewrite (for_each_sum (get := @l_rhs _ _ _ _)
  (inc := fun q (s' : Scratch) =>
     if scratch_trace_reconstruct s'
     then face_trace_rhs fv (fe_local_support_on_face s' face) q
            (face_convection cell face q) (nth 0 (trace_values s') q)
     else 0)).
- by move=> q s'; apply: face_point_l_rhs.
- move=> i j s'; rewrite face_point_pass_trace_values.
  by case: (face_point_pass_context face j s') => _ _ -> _ ->.
- rewrite big_enum_ord; case: (read_trace_context face s) => _ _ -> _ ->.
  rewrite /read_trace; case: ifP => _ /=; last by rewrite big1.
  congr (_ + _); apply: eq_bigr => q _.
  by rewrite nth_get_function_values.
Qed.

End OneFace.

(** *** The whole cell *)

Section WholeCell.

Variable s : Scratch.

Notation Sl := (fe_local_support_on_face s).
Notation Sf := (fe_support_on_face s).

Local Notation after_volume :=
  (for_each (enum 'I_n_q_points) volume_pass (reset s)).

Lemma after_volume_context : same_context after_volume s.
Proof.
apply: same_context_trans (reset_context s).
by apply: for_each_context => q s'; apply: volume_pass_context.
Qed.

Lemma blocks_ll : ll_matrix (blocks s) = cell_ll cell Sl.
Proof.
rewrite /blocks.
rewrite (for_each_sum (get := @ll_matrix _ _ _ _)
  (inc := fun face (s' : Scratch) =>
     \sum_(q < n_face_q_points)
       face_ll (cell_face cell face) (fe_local_support_on_face s' face) q
         (face_convection cell face q))).
- by move=> face s'; apply: face_pass_ll.
- by move=> i j s'; case: (face_pass_context j s') => _ _ -> _ _.
- rewrite big_enum_ord; case: after_volume_context => _ _ -> _ _.
  rewrite /cell_ll; congr (_ + _).
  rewrite (for_each_sum (get := @ll_matrix _ _ _ _)
    (inc := fun q (s' : Scratch) =>
       volume_ll (fe_values_local cell) q (cell_convection cell q))) //.
    by move=> q s'; apply: volume_point_ll.
  by rewrite big_enum_ord /reset /=; case: ifP => _ /=; rewrite add0r.
Qed.

Lemma blocks_l_rhs :
  l_rhs (blocks s)
  = cell_l_rhs cell data
    + (if scratch_trace_reconstruct s
       then cell_trace_rhs cell Sl (scratch_solution s) else 0).
Proof.
rewrite /blocks.
rewrite (for_each_sum (get := @l_rhs _ _ _ _)
  (inc := fun face (s' : Scratch) =>
     if scratch_trace_reconstruct s'
     then \sum_(q < n_face_q_points)
            face_trace_rhs (cell_face cell face)
              (fe_local_support_on_face s' face) q
              (face_convection cell face q)
              (trace_value cell face (scratch_solution s') q)
     else 0)).
- by move=> face s'; apply: face_pass_l_rhs.
- by move=> i j s'; case: (face_pass_context j s') => -> _ -> _ ->.
- rewrite big_enum_ord; case: after_volume_context => -> _ -> _ ->.
  congr (_ + _).
    rewrite (for_each_sum (get := @l_rhs _ _ _ _)
      (inc := fun q (s' : Scratch) =>
         volume_rhs (fe_values_local cell) q
           (source_field data (quadrature_point (fe_values_local cell) q)))) //.
      by move=> q s'; apply: volume_point_l_rhs.
    by rewrite big_enum_ord /reset /=; case: ifP => _ /=; rewrite add0r.
  by case: (scratch_trace_reconstruct s); rewrite // big1.
Qed.

Lemma blocks_lf :
  lf_matrix (blocks s)
  = if scratch_trace_reconstruct s then lf_matrix s else cell_lf cell Sl Sf.
Proof.
rewrite /blocks.
rewrite (for_each_sum (get := @lf_matrix _ _ _ _)
  (inc := fun face (s' : Scratch) =>
     if scratch_trace_reconstruct s' then 0
     else \sum_(q < n_face_q_points)
            face_lf (cell_face cell face) (fe_local_support_on_face s' face)
              (fe_support_on_face s' face) q (face_convection cell face q))).
- by move=> face s'; apply: face_pass_lf.
- by move=> i j s'; case: (face_pass_context j s') => _ _ -> -> ->.
- rewrite big_enum_ord; case: after_volume_context => _ _ -> -> ->.
  have -> : lf_matrix after_volume = lf_matrix (reset s).
    apply: for_each_frame => q s'.
    by case: (volume_point_frame (fe_values_local cell) q
                (source_field data (quadrature_point (fe_values_local cell) q))
                (cell_convection cell q) s').
  rewrite /reset /=; case: (scratch_trace_reconstruct s) => /=.
    by rewrite big1 // addr0.
  by rewrite add0r.
Qed.

Lemma blocks_fl :
  fl_matrix (blocks s)
  = if scratch_trace_reconstruct s then fl_matrix s else cell_fl cell Sl Sf.
Proof.
rewrite /blocks.
rewrite (for_each_sum (get := @fl_matrix _ _ _ _)
  (inc := fun face (s' : Scratch) =>
     if scratch_trace_reconstruct s' then 0
     else \sum_(q < n_face_q_points)
            face_fl (cell_face cell face) (fe_local_support_on_face s' face)
              (fe_support_on_face s' face) q (face_convection cell face q))).
- by move=> face s'; apply: face_pass_fl.
- by move=> i j s'; case: (face_pass_context j s') => _ _ -> -> ->.
- rewrite big_enum_ord; case: after_volume_context => _ _ -> -> ->.
  have -> : fl_matrix after_volume = fl_matrix (reset s).
    apply: for_each_frame => q s'.
    by case: (volume_point_frame (fe_values_local cell) q
                (source_field data (quadrature_point (fe_values_local cell) q))
                (cell_convection cell q) s').
  rewrite /reset /=; case: (scratch_trace_reconstruct s) => /=.
    by rewrite big1 // addr0.
  by rewrite add0r.
Qed.

Lemma blocks_ff :
  ff_matrix (blocks s)
  = if scratch_trace_reconstruct s then ff_matrix s else cell_ff cell Sf.
Proof.
rewrite /blocks.
rewrite (for_each_sum (get := @ff_matrix _ _ _ _)
  (inc := fun face (s' : Scratch) =>
     if scratch_trace_reconstruct s' then 0
     else \sum_(q < n_face_q_points)
            face_ff (cell_face cell face) (fe_support_on_face s' face) q
              (face_convection cell face q))).
- by move=> face s'; apply: face_pass_ff.
- by move=> i j s'; case: (face_pass_context j s') => _ _ _ -> ->.
- rewrite big_enum_ord; case: after_volume_context => _ _ _ -> ->.
  have -> : ff_matrix after_volume = ff_matrix (reset s).
    apply: for_each_frame => q s'.
    by case: (volume_point_frame (fe_values_local cell) q
                (source_field data (quadrature_point (fe_values_local cell) q))
                (cell_convection cell q) s').
  rewrite /reset /=; case: (scratch_trace_reconstruct s) => /=.
    by rewrite big1 // addr0.
  by rewrite add0r.
Qed.

Lemma blocks_f_rhs :
  f_rhs (blocks s)
  = if scratch_trace_reconstruct s then f_rhs s else cell_f_rhs cell Sf data.
Proof.
rewrite /blocks.
rewrite (for_each_sum (get := @f_rhs _ _ _ _)
  (inc := fun face (s' : Scratch) =>
     if scratch_trace_reconstruct s' then 0
     else \sum_(q < n_face_q_points)
            (if neumann_face (cell_face cell face)
             then face_neumann data (cell_face cell face)
                    (fe_support_on_face s' face) q
             else 0))).
- by move=> face s'; apply: face_pass_f_rhs.
- by move=> i j s'; case: (face_pass_context j s') => _ _ _ -> ->.
- rewrite big_enum_ord; case: after_volume_context => _ _ _ -> ->.
  have -> : f_rhs after_volume = f_rhs (reset s).
    apply: for_each_frame => q s'.
    by case: (volume_point_frame (fe_values_local cell) q
                (source_field data (quadrature_point (fe_values_local cell) q))
                (cell_convection cell q) s').
  rewrite /reset /=; case: (scratch_trace_reconstruct s) => /=.
    by rewrite big1 // addr0.
  by rewrite add0r.
Qed.

End WholeCell.

(** The local blocks after the loops, on the assembly pass. *)
Lemma assemble_local_blocks_assembly (s : Scratch) :
  dim_supported dim -> scratch_trace_reconstruct s = false ->
  exists s' : Scratch,
    [/\ assemble_local_blocks data cell s = Ok s',
        same_context s' s,
        [/\ ll_matrix s' = cell_ll cell (fe_local_support_on_face s),
            lf_matrix s'
            = cell_lf cell (fe_local_support_on_face s) (fe_support_on_face s),
            fl_matrix s'
            = cell_fl cell (fe_local_support_on_face s) (fe_support_on_face s)
          & ff_matrix s' = cell_ff cell (fe_support_on_face s)],
        l_rhs s' = cell_l_rhs cell data
      & f_rhs s' = cell_f_rhs cell (fe_support_on_face s) data].
Proof.
move=> Hdim Hs; exists (blocks s); split.
- exact: assemble_local_blocks_supported.
- exact: blocks_context.
- by split; rewrite ?blocks_ll ?blocks_lf ?blocks_fl ?blocks_ff ?Hs.
- by rewrite blocks_l_rhs Hs addr0.
- by rewrite blocks_f_rhs Hs.
Qed.

(** The local blocks after the loops, on the reconstruction pass. *)
Lemma assemble_local_blocks_reconstruction (s : Scratch) :
  dim_supported dim -> scratch_trace_reconstruct s = true ->
  exists s' : Scratch,
    [/\ assemble_local_blocks data cell s = Ok s',
        same_context s' s,
        ll_matrix s' = cell_ll cell (fe_local_support_on_face s),
        l_rhs s'
        = cell_l_rhs cell data
          + cell_trace_rhs cell (fe_local_support_on_face s)
              (scratch_solution s)
      & [/\ lf_matrix s' = lf_matrix s, fl_matrix s' = fl_matrix s,
            ff_matrix s' = ff_matrix s & f_rhs s' = f_rhs s]].
Proof.
move=> Hdim Hs; exists (blocks s); split.
- exact: assemble_local_blocks_supported.
- exact: blocks_context.
- exact: blocks_ll.
- by rewrite blocks_l_rhs Hs.
- by split; rewrite ?blocks_lf ?blocks_fl ?blocks_ff ?blocks_f_rhs Hs.
Qed.

End LocalBlocks.

(** ** Static condensation and the volume integrals *)

Section Condensation.

Variable R : realFieldType.
Variables (dim n_q_points loc_dofs_per_cell dofs_per_cell : nat).
Variables (n_face_q_points post_dofs post_q_points : nat).

Notation Scratch := (ScratchData R dim loc_dofs_per_cell dofs_per_cell).
Notation Task := (PerTaskData R dofs_per_cell).
Notation CellT :=
  (Cell R dim n_q_points loc_dofs_per_cell dofs_per_cell n_face_q_points
     post_dofs post_q_points).

Variables (data : EquationData R dim) (cell : CellT).

Lemma gauss_jordan_unit (n : nat) (A : 'M[R]_n) :
  A \in unitmx -> gauss_jordan A = Ok (invmx A).
Proof. by rewrite /gauss_jordan => ->. Qed.

Lemma gauss_jordan_singular (n : nat) (A : 'M[R]_n) :
  A \notin unitmx -> gauss_jordan A = Raise ExcNotRegular.
Proof. by rewrite /gauss_jordan => /negbTE ->. Qed.

(** The second half of [assemble_system_one_cell] on the assembly pass. *)
Lemma condense_assembly (s : Scratch) (t : Task) :
  scratch_trace_reconstruct s = false -> ll_matrix s \in unitmx ->
  exists (s' : Scratch) (t' : Task),
    [/\ condense_or_reconstruct cell s t = Ok (s', t'),
        cell_matrix t'
        = ff_matrix s + fl_matrix s *m invmx (ll_matrix s) *m lf_matrix s,
        cell_vector t'
        = f_rhs s + fl_matrix s *m invmx (ll_matrix s) *m l_rhs s,
        dof_indices t'
        = [seq get_dof_indices cell j | j <- enum 'I_dofs_per_cell]
      & task_trace_reconstruct t' = task_trace_reconstruct t].
Proof.
move=> Hs Hll; rewrite /condense_or_reconstruct gauss_jordan_unit //= Hs /=.
by eexists; eexists; split; first reflexivity.
Qed.

(** C1, as amended.  On the assembly pass, when the interior block that the
    loops have filled is invertible, the matrix and the vector handed to the
    global assembly are [FF + FL * LL^-1 * LF] and [f_rhs + FL * LL^-1 * l_rhs]
    of the blocks as the loops have filled them: the products are added, the
    block [fl_matrix] having been accumulated with the minus sign. *)
Theorem condensed_system_is_sum_with_stored_blocks (s : Scratch) (t : Task) :
  dim_supported dim -> scratch_trace_reconstruct s = false ->
  cell_ll cell (fe_local_support_on_face s) \in unitmx ->
  exists (blocks s' : Scratch) (t' : Task),
    [/\ assemble_local_blocks data cell s = Ok blocks,
        assemble_system_one_cell data cell s t = Ok (s', t'),
        cell_matrix t'
        = ff_matrix blocks
          + fl_matrix blocks *m invmx (ll_matrix blocks) *m lf_matrix blocks
      & cell_vector t'
        = f_rhs blocks
          + fl_matrix blocks *m invmx (ll_matrix blocks) *m l_rhs blocks].
Proof.
move=> Hdim Hs Hll.
have [b [Hb [_ _ _ _ Hbs] [Hbll _ _ _] _ _]] :=
  assemble_local_blocks_assembly data cell Hdim Hs.
have Hunit : ll_matrix b \in unitmx by rewrite Hbll.
have [s' [t' [Hc Hm Hv _ _]]] :=
  condense_assembly t (etrans Hbs Hs) Hunit.
exists b, s', t'; split=> //.
by rewrite /assemble_system_one_cell Hb.
Qed.

(** C3.  At every interior quadrature point the pass adds
    [(q_i.q_j - (div q_i) u_j + u_i (div q_j) - (grad u_i . convection) u_j)
    * JxW] to [ll_matrix (i, j)] and [u_i * source * JxW] to [l_rhs (i)]. *)
Theorem volume_contribution
    (fv : FEValues_local R dim n_q_points loc_dofs_per_cell)
    (q : 'I_n_q_points) (s : Scratch) :
  dim_supported dim ->
  exists s' : Scratch,
    [/\ assemble_volume_q data fv q s = Ok s',
        forall i j,
          ll_matrix s' i j
          = ll_matrix s i j
            + (dot (fluxes_value fv i q) (fluxes_value fv j q)
               - fluxes_divergence fv i q * scalar_value fv j q
               + scalar_value fv i q * fluxes_divergence fv j q
               - dot (scalar_gradient fv i q)
                   (convection_field (quadrature_point fv q))
                 * scalar_value fv j q)
              * JxW fv q
      & forall i,
          l_rhs s' i 0
          = l_rhs s i 0
            + scalar_value fv i q
              * source_field data (quadrature_point fv q) * JxW fv q].
Proof.
move=> Hdim.
exists (assemble_volume_point fv q (source_field data (quadrature_point fv q))
          (convection_field (quadrature_point fv q)) s); split.
- rewrite /assemble_volume_q RightHandSide_value_supported //=.
  by rewrite ConvectionVelocity_value_supported.
- by move=> i j; rewrite volume_point_ll !mxE.
- by move=> i; rewrite volume_point_l_rhs !mxE.
Qed.

(** C4.  The stabilization parameter of a face quadrature point is
    [tau_stab_diffusion + |convection . normal|] with the positive constant
    [tau_stab_diffusion = 5], and it is positive whatever the convection and
    the normal are. *)
Theorem stabilization_positive (convection normal : Tensor R dim) :
  [/\ tau_stab convection normal
      = tau_stab_diffusion R + `|dot convection normal|,
      0 < tau_stab_diffusion R
    & 0 < tau_stab convection normal].
Proof.
have H5 : 0 < tau_stab_diffusion R by rewrite /tau_stab_diffusion ltr0n.
split=> //.
by rewrite /tau_stab; apply: ltr_wpDr.
Qed.

End Condensation.

(** ** Writing local values into a global vector *)

Section Scatter.

Variable R : realFieldType.

Lemma size_vector_set (v : seq R) (i : nat) (x : R) :
  size (vector_set v i x) = size v.
Proof.
rewrite /vector_set; case: ifP => // Hi.
by rewrite size_set_nth; apply/maxn_idPr.
Qed.

Lemma nth_vector_set (v : seq R) (i j : nat) (x : R) :
  (i < size v)%N ->
  nth 0 (vector_set v i x) j = if j == i then x else nth 0 v j.
Proof. by rewrite /vector_set => ->; rewrite nth_set_nth. Qed.

Lemma nth_vector_set_other (v : seq R) (i j : nat) (x : R) :
  j != i -> nth 0 (vector_set v i x) j = nth 0 v j.
Proof.
rewrite /vector_set => /negbTE Hj; case: ifP => // _.
by rewrite nth_set_nth /= Hj.
Qed.

Variables (K : eqType) (key : K -> nat) (upd : K -> R -> R).

Local Notation scatter r g :=
  (for_each r (fun i g => vector_set g (key i) (upd i (nth 0 g (key i)))) g).

Lemma scatter_other (r : seq K) (g : seq R) (j : nat) :
  j \notin [seq key i | i <- r] -> nth 0 (scatter r g) j = nth 0 g j.
Proof.
elim: r g => [|i r IH] g //=.
rewrite in_cons negb_or => /andP [Hj Hr].
by rewrite for_each_cons IH // nth_vector_set_other.
Qed.

(** A slot that is visited once and lies in the vector holds the updated
    value. *)
Lemma scatter_nth (r : seq K) (g : seq R) (k : K) :
  uniq [seq key i | i <- r] -> k \in r -> (key k < size g)%N ->
  nth 0 (scatter r g) (key k) = upd k (nth 0 g (key k)).
Proof.
elim: r g => [|i r IH] g //=.
case/andP=> Hi Hr; rewrite in_cons => Hk Hsize.
rewrite for_each_cons.
case: (altP (k =P i)) Hk Hsize => [-> _ Hsize|Hne /= Hk Hsize].
  by rewrite scatter_other // nth_vector_set // eqxx.
have Hkey : key k != key i.
  by apply: contraNneq Hi => <-; apply: map_f.
rewrite IH ?size_vector_set //.
by rewrite nth_vector_set_other.
Qed.

End Scatter.

Section ScatterCell.

Variable R : realFieldType.
Variables (n : nat) (dofs : 'I_n -> nat) (local : 'cV[R]_n) (global : seq R).

Hypothesis dofs_inj : injective dofs.

Lemma uniq_dofs : uniq [seq dofs i | i <- enum 'I_n].
Proof. by rewrite map_inj_uniq // enum_uniq. Qed.

Lemma nth_set_dof_values (i : 'I_n) :
  (dofs i < size global)%N ->
  nth 0 (set_dof_values dofs local global) (dofs i) = local i 0.
Proof.
move=> Hi; rewrite /set_dof_values.
by rewrite (@scatter_nth _ _ dofs (fun i _ => local i 0)) ?uniq_dofs ?mem_enum.
Qed.

Lemma nth_cell_distribute_local_to_global (i : 'I_n) :
  (dofs i < size global)%N ->
  nth 0 (cell_distribute_local_to_global dofs local global) (dofs i)
  = nth 0 global (dofs i) + local i 0.
Proof.
move=> Hi; rewrite /cell_distribute_local_to_global /vector_add.
by rewrite (@scatter_nth _ _ dofs (fun i old => old + local i 0))
           ?uniq_dofs ?mem_enum.
Qed.

End ScatterCell.

(** ** Trace reconstruction *)

Section Reconstruction.

Variable R : realFieldType.
Variables (dim n_q_points loc_dofs_per_cell dofs_per_cell : nat).
Variables (n_face_q_points post_dofs post_q_points : nat).

Notation Scratch := (ScratchData R dim loc_dofs_per_cell dofs_per_cell).
Notation Task := (PerTaskData R dofs_per_cell).
Notation CellT :=
  (Cell R dim n_q_points loc_dofs_per_cell dofs_per_cell n_face_q_points
     post_dofs post_q_points).

Variables (data : EquationData R dim) (cell : CellT).
Variable fes : FiniteElements dim loc_dofs_per_cell dofs_per_cell.

Lemma delta_mx_mul_col (i : 'I_loc_dofs_per_cell) (j : 'I_dofs_per_cell)
    (lambda : 'cV[R]_dofs_per_cell) :
  delta_mx i j *m lambda = lambda j 0 *: delta_mx i 0.
Proof.
apply/matrixP=> a b; rewrite !mxE (bigD1 j) //= big1 => [k /negbTE Hk|].
  by rewrite !mxE Hk andbF mul0r.
by rewrite addr0 !mxE eqxx andbT ord1 eqxx andbT mulrC.
Qed.

Local Notation trace_unknowns := (trace_unknowns cell).
Local Notation support_of := (support_of fes).

(** A trace shape function vanishes on the faces where it has no support. *)
Hypothesis no_support_no_value :
  forall face j q,
    ~~ fe_has_support_on_face fes j face ->
    shape_value (cell_face cell face) j q = 0.

Lemma trace_value_support (face : 'I_(faces_per_cell dim)) (solution : seq R)
    (q : 'I_n_face_q_points) :
  trace_value cell face solution q
  = \sum_(j <- support_of face)
      shape_value (cell_face cell face) j q * trace_unknowns solution j 0.
Proof.
rewrite /trace_value /support_of big_filter big_enum_cond /= [RHS]big_mkcond /=.
apply: eq_bigr => j _; rewrite mxE mulrC.
by case: ifP => // /negbT /no_support_no_value ->; rewrite mul0r.
Qed.

Lemma face_trace_rhs_lf (face : 'I_(faces_per_cell dim))
    (Sl : seq 'I_loc_dofs_per_cell) (q : 'I_n_face_q_points)
    (convection : Tensor R dim) (solution : seq R) :
  face_trace_rhs (cell_face cell face) Sl q convection
    (trace_value cell face solution q)
  = - (face_lf (cell_face cell face) Sl (support_of face) q convection
       *m trace_unknowns solution).
Proof.
rewrite /face_trace_rhs /face_lf mulmx_suml -sumrN.
apply: eq_bigr => i _; rewrite mulmx_suml trace_value_support.
under [in RHS]eq_bigr => j _.
  rewrite -scalemxAl delta_mx_mul_col scalerA; over.
rewrite -scaler_suml -scaleNr; congr (_ *: _).
rewrite /face_flux_coefficient mulr_sumr mulr_suml; congr (- _).
by apply: eq_bigr => j _; ring.
Qed.

Lemma cell_trace_rhs_lf (Sl : 'I_(faces_per_cell dim) -> seq 'I_loc_dofs_per_cell)
    (solution : seq R) :
  cell_trace_rhs cell Sl solution
  = - (cell_lf cell Sl support_of *m trace_unknowns solution).
Proof.
rewrite /cell_trace_rhs /cell_lf mulmx_suml -sumrN.
apply: eq_bigr => face _; rewrite mulmx_suml -sumrN.
by apply: eq_bigr => q _; rewrite face_trace_rhs_lf.
Qed.

(** The second half of [assemble_system_one_cell] on the reconstruction
    pass. *)
Lemma reconstruct_interior (s : Scratch) (t : Task) :
  scratch_trace_reconstruct s = true -> ll_matrix s \in unitmx ->
  exists s' : Scratch,
    [/\ condense_or_reconstruct cell s t = Ok (s', t),
        tmp_rhs s' = invmx (ll_matrix s) *m l_rhs s,
        scratch_solution_local s'
        = set_dof_values (loc_dof_indices cell) (tmp_rhs s')
            (scratch_solution_local s),
        same_context (set_scratch_solution_local (scratch_solution_local s) s')
          s
      & [/\ lf_matrix s' = lf_matrix s, fl_matrix s' = fl_matrix s,
            ff_matrix s' = ff_matrix s & f_rhs s' = f_rhs s]].
Proof.
move=> Hs Hll; rewrite /condense_or_reconstruct gauss_jordan_unit //= Hs /=.
by eexists; split; first reflexivity.
Qed.

(** C2.  On the reconstruction pass, for a cell whose interior block is
    invertible and whose interior unknowns have their own slots in the
    interior vector, the values written there are [LL^-1 * l_rhs] of the
    blocks filled on that pass; and for the trace vector the pass was given
    they are the one solution [u] of the uncondensed local system
    [LL u + LF lambda = l_rhs] whose blocks are those of the assembly pass
    on the same cell and whose [lambda] are the trace values of the cell. *)
Theorem reconstruction_solves_uncondensed_system (sr sa : Scratch) (t : Task) :
  dim_supported dim ->
  scratch_trace_reconstruct sr = true -> scratch_trace_reconstruct sa = false ->
  fe_support_on_face sr = support_of -> fe_support_on_face sa = support_of ->
  fe_local_support_on_face sa = fe_local_support_on_face sr ->
  injective (loc_dof_indices cell) ->
  (forall i, (loc_dof_indices cell i < size (scratch_solution_local sr))%N) ->
  cell_ll cell (fe_local_support_on_face sr) \in unitmx ->
  exists (blocks_r blocks_a s' : Scratch),
    [/\ assemble_local_blocks data cell sr = Ok blocks_r,
        assemble_local_blocks data cell sa = Ok blocks_a,
        assemble_system_one_cell data cell sr t = Ok (s', t)
      & let u : 'cV[R]_loc_dofs_per_cell :=
          \col_i nth 0 (scratch_solution_local s') (loc_dof_indices cell i) in
        let lambda := trace_unknowns (scratch_solution sr) in
        [/\ u = invmx (ll_matrix blocks_r) *m l_rhs blocks_r,
            ll_matrix blocks_a *m u + lf_matrix blocks_a *m lambda
            = l_rhs blocks_a
          & forall u' : 'cV[R]_loc_dofs_per_cell,
              ll_matrix blocks_a *m u' + lf_matrix blocks_a *m lambda
              = l_rhs blocks_a ->
              u' = u]].
Proof.
move=> Hdim Hr Ha Hfr Hfa Hla Hinj Hsize Hll.
have [br [Hbr [_ Hsl _ _ Hbrs] Hbrll Hbrl _]] :=
  assemble_local_blocks_reconstruction data cell Hdim Hr.
have [ba [Hba _ [Hball Hbalf _ _] Hbal _]] :=
  assemble_local_blocks_assembly data cell Hdim Ha.
have Hunit : ll_matrix br \in unitmx by rewrite Hbrll.
have [s' [Hc Htmp Hsol _ _]] :=
  reconstruct_interior t (etrans Hbrs Hr) Hunit.
exists br, ba, s'; split=> //.
  by rewrite /assemble_system_one_cell Hbr.
have Hu : \col_i nth 0 (scratch_solution_local s') (loc_dof_indices cell i)
          = invmx (ll_matrix br) *m l_rhs br.
  apply/matrixP=> i j; rewrite mxE Hsol nth_set_dof_values ?Hsl //.
  by rewrite Htmp (ord1 j).
have Hrhs : l_rhs br
            = l_rhs ba - lf_matrix ba *m trace_unknowns (scratch_solution sr).
  by rewrite Hbrl Hbal Hbalf cell_trace_rhs_lf Hla Hfa.
have Hsame : ll_matrix ba = ll_matrix br by rewrite Hball Hbrll Hla.
rewrite /= Hu; split=> //.
- by rewrite Hsame mulKVmx // Hrhs subrK.
- move=> u' Hu'; rewrite Hrhs -Hu' addrK Hsame mulKmx //.
Qed.

End Reconstruction.

(** ** Post-processing *)

Section SetLoops.

Variable R : realFieldType.

Lemma for_each_set_row (m n : nat) (i : 'I_m) (F : 'I_n -> R)
    (r : seq 'I_n) (M : 'M[R]_(m, n)) (a : 'I_m) (b : 'I_n) :
  for_each r (fun j M' => set_entry M' i j (F j)) M a b
  = if (a == i) && (b \in r) then F b else M a b.
Proof.
elim: r M => [|j r IH] M; first by rewrite in_nil andbF.
rewrite for_each_cons IH mxE in_cons.
case: (a == i) => //=; case: (b \in r); rewrite ?orbT ?orbF //.
by case: eqP => // ->.
Qed.

Lemma for_each_sum_minus (I : Type) (r : seq I) (f : I -> R) :
  for_each r (fun i sum => sum - f i) 0 = - \sum_(i <- r) f i.
Proof.
by rewrite (for_each_accumulate r (fun i => - f i)) add0r sumrN.
Qed.

Lemma for_each_sum_plus (I : Type) (r : seq I) (f : I -> R) :
  for_each r (fun i sum => sum + f i) 0 = \sum_(i <- r) f i.
Proof. by rewrite for_each_accumulate add0r. Qed.

Lemma mem_behead_enum_ord (n : nat) (a : 'I_n.+1) :
  (a \in behead (enum 'I_n.+1)) = (a != 0).
Proof.
have Hu := enum_uniq 'I_n.+1; have Ha := mem_enum 'I_n.+1 a.
move: Hu Ha; rewrite enum_ordSl /= in_cons inE.
case: eqP => [-> /andP [/negbTE -> _] //|_ _ /= ->]; by [].
Qed.

End SetLoops.

Section PostProcessing.

Variable R : realFieldType.
Variables (dim n_q_points loc_dofs_per_cell dofs_per_cell : nat).
Variables (n_face_q_points post_dofs post_q_points : nat).

Notation CellT :=
  (Cell R dim n_q_points loc_dofs_per_cell dofs_per_cell n_face_q_points
     post_dofs post_q_points).
Notation System := ('M[R]_(post_dofs.+1) * 'cV[R]_(post_dofs.+1))%type.

Variable cell : CellT.

Notation fv := (fe_values_post cell).

Lemma post_gradient_rowsE (u_gradients : seq (Tensor R dim)) (sys : System)
    (a b : 'I_post_dofs.+1) :
  let sys' := post_gradient_rows fv u_gradients sys in
  sys'.1 a b
  = (if a != 0
     then \sum_(q < post_q_points)
            dot (post_shape_grad fv a q) (post_shape_grad fv b q)
            * post_JxW fv q
     else sys.1 a b)
  /\ sys'.2 a 0
     = (if a != 0
        then - \sum_(q < post_q_points)
                 dot (post_shape_grad fv a q) (nth 0 u_gradients q)
                 * post_JxW fv q
        else sys.2 a 0).
Proof.
rewrite /= /post_gradient_rows -mem_behead_enum_ord.
elim: (behead _) sys => [|i r IH] sys; first by rewrite in_nil.
rewrite for_each_cons in_cons; set sys1 := (X in for_each r _ X).
have [-> ->] := IH sys1; rewrite {}/sys1 /=.
case Har: (a \in r); rewrite ?orbT ?orbF //.
rewrite for_each_set_row mem_enum andbT mxE eqxx andbT.
case: eqP => [->|//].
by rewrite for_each_sum_plus for_each_sum_minus !big_enum_ord.
Qed.

Lemma post_mean_rowE (u_values : seq R) (sys : System)
    (a b : 'I_post_dofs.+1) :
  let sys' := post_mean_row fv u_values sys in
  sys'.1 a b
  = (if a == 0
     then \sum_(q < post_q_points) post_shape_value fv b q * post_JxW fv q
     else sys.1 a b)
  /\ sys'.2 a 0
     = (if a == 0
        then \sum_(q < post_q_points) nth 0 u_values q * post_JxW fv q
        else sys.2 a 0).
Proof.
rewrite /= /post_mean_row /= for_each_set_row mem_enum andbT mxE eqxx andbT.
by rewrite !for_each_sum_plus !big_enum_ord.
Qed.

(** The local system of a cell, entry by entry; what the variables held
    before does not matter. *)
Lemma postprocess_systemE (solution_local : seq R) (sys : System)
    (a b : 'I_post_dofs.+1) :
  let sys' := postprocess_system cell solution_local sys in
  sys'.1 a b
  = (if a == 0
     then \sum_(q < post_q_points) post_shape_value fv b q * post_JxW fv q
     else \sum_(q < post_q_points)
            dot (post_shape_grad fv a q) (post_shape_grad fv b q)
            * post_JxW fv q)
  /\ sys'.2 a 0
     = (if a == 0
        then \sum_(q < post_q_points)
               nth 0 (post_u_values cell solution_local) q * post_JxW fv q
        else - \sum_(q < post_q_points)
                 dot (post_shape_grad fv a q)
                   (nth 0 (post_u_gradients cell solution_local) q)
                 * post_JxW fv q).
Proof.
rewrite /= /postprocess_system.
have [-> ->] := post_mean_rowE (post_u_values cell solution_local)
  (post_gradient_rows fv (post_u_gradients cell solution_local) sys) a b.
have [-> ->] := post_gradient_rowsE (post_u_gradients cell solution_local)
  sys a b.
by case: (a == 0).
Qed.

Variable solution_local : seq R.
Variable st : PostState R post_dofs.

Notation system := (postprocess_system cell solution_local (st.1.1.1, st.1.1.2)).
Notation dofs := (post_dof_indices fv).

Lemma postprocess_cell_unit :
  system.1 \in unitmx ->
  postprocess_cell solution_local cell st
  = Ok (invmx system.1, system.2, invmx system.1 *m system.2,
        cell_distribute_local_to_global dofs (invmx system.1 *m system.2) st.2).
Proof. by move=> Hu; rewrite /postprocess_cell gauss_jordan_unit. Qed.



End PostProcessing.

(** ** The passes over the whole mesh *)

Section MonadicLoops.

Variables (I S : Type).

(** What every successful pass preserves, a successful loop preserves. *)
Lemma for_each_m_invariant (Inv : S -> Prop) (body : I -> S -> result S)
    (r : seq I) (s s' : S) :
  (forall i a b, Inv a -> body i a = Ok b -> Inv b) ->
  Inv s -> for_each_m r body s = Ok s' -> Inv s'.
Proof.
move=> Hb; elim: r s => [|i r IH] s Hs /=; first by case=> <-.
case Hi: (body i s) => [b|e] //=.
by apply: IH; apply: Hb Hi.
Qed.

(** A loop none of whose passes raises a given exception does not raise it. *)
Lemma for_each_m_never (e : exception) (body : I -> S -> result S)
    (r : seq I) (s : S) :
  (forall i a, body i a <> Raise e) -> for_each_m r body s <> Raise e.
Proof.
move=> Hb; elim: r s => [|i r IH] s //=.
case Hi: (body i s) => [b|e'] /=; first exact: IH.
by move=> He; apply: (Hb i s); rewrite Hi He.
Qed.

End MonadicLoops.

Section Context.

Variable R : realFieldType.
Variables (dim n_q_points loc_dofs_per_cell dofs_per_cell : nat).
Variables (n_face_q_points post_dofs post_q_points : nat).

Notation Scratch := (ScratchData R dim loc_dofs_per_cell dofs_per_cell).
Notation Task := (PerTaskData R dofs_per_cell).
Notation CellT :=
  (Cell R dim n_q_points loc_dofs_per_cell dofs_per_cell n_face_q_points
     post_dofs post_q_points).

Variables (data : EquationData R dim) (cell : CellT).

Lemma reconstruction_frame_trans (s0 s1 s2 : Scratch) :
  reconstruction_frame s0 s1 -> reconstruction_frame s1 s2 ->
  reconstruction_frame s0 s2.
Proof.
case=> Hc1 H1 [Hc2 H2]; split; first exact: same_context_trans Hc2 Hc1.
move=> Hs; case: (H1 Hs) => <- <- <- <-; apply: H2.
by case: Hc1 => _ _ _ _ ->.
Qed.

Lemma volume_q_frame (q : 'I_n_q_points) (s s' : Scratch) :
  assemble_volume_q data (fe_values_local cell) q s = Ok s' ->
  reconstruction_frame s s'.
Proof.
rewrite /assemble_volume_q.
case: (RightHandSide_value _ _) => [rhs|] //=.
case: (ConvectionVelocity_value _) => [c|] //= [<-].
by case: (volume_point_frame (fe_values_local cell) q rhs c s).
Qed.

Lemma face_q_frame (face : 'I_(faces_per_cell dim)) (q : 'I_n_face_q_points)
    (s s' : Scratch) :
  assemble_face_q data (cell_face cell face) face q s = Ok s' ->
  reconstruction_frame s s'.
Proof.
rewrite /assemble_face_q.
case: (ConvectionVelocity_value _) => [c|] //= [<-]; split.
  by case: (@face_point_context _ _ _ _ _ data (cell_face cell face) face q c
              _ _ s (erefl _) (erefl _)).
move=> Hs.
exact: (@face_point_frame_reconstruct _ _ _ _ _ data (cell_face cell face)
          face q c _ _ s (erefl _) (erefl _) Hs).
Qed.

Lemma for_each_m_frame (I : Type) (body : I -> Scratch -> result Scratch)
    (r : seq I) (s s' : Scratch) :
  (forall i a b, body i a = Ok b -> reconstruction_frame a b) ->
  for_each_m r body s = Ok s' -> reconstruction_frame s s'.
Proof.
move=> Hb; apply: for_each_m_invariant; last by split=> //; split.
by move=> i a b Ha /Hb; apply: reconstruction_frame_trans.
Qed.

Lemma assemble_face_frame (face : 'I_(faces_per_cell dim)) (s s' : Scratch) :
  assemble_face data cell face s = Ok s' -> reconstruction_frame s s'.
Proof.
rewrite /assemble_face => /(for_each_m_frame (@face_q_frame face)).
apply: reconstruction_frame_trans.
by rewrite /read_trace; case: ifP => _; split=> //; split.
Qed.

Lemma assemble_local_blocks_frame (s s' : Scratch) :
  assemble_local_blocks data cell s = Ok s' ->
  same_context s' s
  /\ (scratch_trace_reconstruct s ->
      [/\ lf_matrix s' = lf_matrix s, fl_matrix s' = fl_matrix s,
          ff_matrix s' = ff_matrix s & f_rhs s' = f_rhs s]).
Proof.
rewrite /assemble_local_blocks.
case Hv: (for_each_m _ _ _) => [s1|] //= Hf.
have H1 := for_each_m_frame volume_q_frame Hv.
have H2 := for_each_m_frame assemble_face_frame Hf.
have [Hc H] := reconstruction_frame_trans H1 H2; split.
  apply: same_context_trans Hc _.
  by rewrite /reset_blocks /=; case: (scratch_trace_reconstruct s).
by move=> Hs; move: H; rewrite /reset_blocks /= Hs /=; apply.
Qed.

(** One cell on the reconstruction pass: the task data and the skeleton
    blocks come back as they were, and the flag stays set. *)
Lemma one_cell_reconstruct_frame (s s' : Scratch) (t t' : Task) :
  scratch_trace_reconstruct s = true ->
  assemble_system_one_cell data cell s t = Ok (s', t') ->
  [/\ t' = t, scratch_trace_reconstruct s' = true,
      scratch_solution s' = scratch_solution s,
      fe_local_support_on_face s' = fe_local_support_on_face s
      /\ fe_support_on_face s' = fe_support_on_face s
    & [/\ lf_matrix s' = lf_matrix s, fl_matrix s' = fl_matrix s,
          ff_matrix s' = ff_matrix s & f_rhs s' = f_rhs s]].
Proof.
move=> Hs; rewrite /assemble_system_one_cell.
case Hb: (assemble_local_blocks _ _ _) => [b|] //=.
have [[Hsol _ Hl Hf Hbs] /(_ Hs) Hfr] := assemble_local_blocks_frame Hb.
rewrite /condense_or_reconstruct.
case: (gauss_jordan _) => [inv|] //=.
by rewrite Hbs Hs /= => -[<- <-] /=; rewrite Hbs Hs.
Qed.

End Context.

Section Passes.

Variable R : realFieldType.
Variables (dim n_q_points loc_dofs_per_cell dofs_per_cell : nat).
Variables (n_face_q_points post_dofs post_q_points : nat).

Notation Scratch := (ScratchData R dim loc_dofs_per_cell dofs_per_cell).
Notation Task := (PerTaskData R dofs_per_cell).
Notation CellT :=
  (Cell R dim n_q_points loc_dofs_per_cell dofs_per_cell n_face_q_points
     post_dofs post_q_points).
Notation Step :=
  (Step51 R dim n_q_points loc_dofs_per_cell dofs_per_cell n_face_q_points
     post_dofs post_q_points).
Notation Lib :=
  (Library R dim n_q_points loc_dofs_per_cell dofs_per_cell n_face_q_points
     post_dofs post_q_points).

Variables (lib : Lib) (fes : FiniteElements dim loc_dofs_per_cell dofs_per_cell).
Variable data : EquationData R dim.

Lemma set_solution_local_same (st : Step) :
  set_solution_local (solution_local st) st = st.
Proof. by case: st. Qed.

Lemma copy_local_to_global_reconstruct (t : Task) (st : Step) :
  task_trace_reconstruct t = true -> copy_local_to_global lib t st = st.
Proof. by rewrite /copy_local_to_global => ->. Qed.

Local Notation cells_loop := (cells_loop data).
Local Notation worker_and_copier := (worker_and_copier lib data).

(** The cell loop of [assemble_system] without the global objects. *)
Lemma reconstruct_loop (cells : seq CellT) (s : Scratch) (t : Task)
    (st : Step) :
  scratch_trace_reconstruct s = true -> task_trace_reconstruct t = true ->
  solution_local st = scratch_solution_local s ->
  for_each_m cells worker_and_copier (s, t, st)
  = (p <-- cells_loop cells (s, t) ;;
     Ok (p.1, p.2, set_solution_local (scratch_solution_local p.1) st)).
Proof.
rewrite /cells_loop.
elim: cells s t st => [|cell cells IH] s t st Hs Ht Hst /=.
  by rewrite -Hst set_solution_local_same.
rewrite /worker_and_copier /=.
case Hc: (assemble_system_one_cell _ _ _ _) => [[s' t']|e] //=.
have [Ht' Hs' _ _ _] := one_cell_reconstruct_frame Hs Hc.
by rewrite copy_local_to_global_reconstruct ?Ht' // IH ?Ht'.
Qed.

(** The reconstruction pass computes the interior vector from the cells, the
    trace vector and the interior vector, and changes nothing else. *)
Lemma assemble_system_reconstruct (st : Step) :
  assemble_system lib fes data true st
  = (p <-- cells_loop (active_cells (triangulation st))
             (ScratchData_init n_face_q_points fes (solution st)
                (solution_local st) true,
              PerTaskData_init R dofs_per_cell true) ;;
     Ok (set_solution_local (scratch_solution_local p.1) st)).
Proof.
rewrite /assemble_system reconstruct_loop //.
by case: (cells_loop _ _).
Qed.

Lemma assemble_system_reconstruct_frame (st st' : Step) :
  assemble_system lib fes data true st = Ok st' ->
  st' = set_solution_local (solution_local st') st.
Proof.
rewrite assemble_system_reconstruct.
by case: (cells_loop _ _) => [p|] //= [<-].
Qed.


(** C7.  On the reconstruction pass the loops of a cell leave [ff_matrix] and
    [f_rhs] as they were and add to [l_rhs], for every face and every
    quadrature point of it, the term formed with the trace value there; the
    cell ends with the same task data, which the copier ignores, and the whole
    pass hands the global matrix and right-hand side back untouched. *)
Theorem reconstruction_pass_skips_skeleton_system (cell : CellT) (s : Scratch)
    (t : Task) :
  dim_supported dim -> scratch_trace_reconstruct s = true ->
  task_trace_reconstruct t = true ->
  cell_ll cell (fe_local_support_on_face s) \in unitmx ->
  exists (blocks s' : Scratch),
    [/\ assemble_local_blocks data cell s = Ok blocks
        /\ assemble_system_one_cell data cell s t = Ok (s', t),
        [/\ ff_matrix blocks = ff_matrix s, f_rhs blocks = f_rhs s,
            ff_matrix s' = ff_matrix s & f_rhs s' = f_rhs s],
        l_rhs blocks
        = cell_l_rhs cell data
          + \sum_(face < faces_per_cell dim) \sum_(q < n_face_q_points)
              face_trace_rhs (cell_face cell face)
                (fe_local_support_on_face s face) q
                (face_convection cell face q)
                (trace_value cell face (scratch_solution s) q),
        forall st : Step, copy_local_to_global lib t st = st
      & forall st st' : Step,
          assemble_system lib fes data true st = Ok st' ->
          system_matrix st' = system_matrix st
          /\ system_rhs st' = system_rhs st].
Proof.
move=> Hdim Hs Ht Hll.
have [b [Hb [_ _ _ _ Hbs] Hbll Hbl [_ _ Hff Hf]]] :=
  assemble_local_blocks_reconstruction data cell Hdim Hs.
have Hunit : ll_matrix b \in unitmx by rewrite Hbll.
have [s' [Hc _ _ _ [_ _ Hff' Hf']]] :=
  reconstruct_interior cell t (etrans Hbs Hs) Hunit.
have Hone : assemble_system_one_cell data cell s t = Ok (s', t).
  by rewrite /assemble_system_one_cell Hb.
exists b, s'; split=> //.
- by split=> //; rewrite ?Hff' ?Hf'.
- by move=> st; apply: copy_local_to_global_reconstruct.
- by move=> st st' /assemble_system_reconstruct_frame ->.
Qed.

End Passes.

(** ** Where an unsupported dimension is detected *)

Section DimensionCheck.

Variable R : realFieldType.
Variables (dim n_q_points loc_dofs_per_cell dofs_per_cell : nat).
Variables (n_face_q_points post_dofs post_q_points : nat).

Notation Scratch := (ScratchData R dim loc_dofs_per_cell dofs_per_cell).
Notation Task := (PerTaskData R dofs_per_cell).
Notation CellT :=
  (Cell R dim n_q_points loc_dofs_per_cell dofs_per_cell n_face_q_points
     post_dofs post_q_points).
Notation Step :=
  (Step51 R dim n_q_points loc_dofs_per_cell dofs_per_cell n_face_q_points
     post_dofs post_q_points).
Notation Lib :=
  (Library R dim n_q_points loc_dofs_per_cell dofs_per_cell n_face_q_points
     post_dofs post_q_points).
Notation has_points :=
  (has_quadrature_points dim n_q_points n_face_q_points).

Variables (lib : Lib) (fes : FiniteElements dim loc_dofs_per_cell dofs_per_cell).
Variable data : EquationData R dim.

Lemma enum_ord_cons (n : nat) :
  (0 < n)%N -> exists (i : 'I_n) (r : seq 'I_n), enum 'I_n = i :: r.
Proof.
move=> Hn; move: (size_enum_ord n).
by case: (enum 'I_n) Hn => [|i r] Hn Hsize; [rewrite -Hsize in Hn|exists i, r].
Qed.

Lemma enum_ord_nil (n : nat) : n = 0%N -> enum 'I_n = [::].
Proof. by move=> ->; apply: size0nil; rewrite size_enum_ord. Qed.

Lemma assemble_face_unsupported (cell : CellT)
    (face : 'I_(faces_per_cell dim)) (s : Scratch) :
  ~~ dim_supported dim -> (0 < n_face_q_points)%N ->
  assemble_face data cell face s = Raise ExcNotImplemented.
Proof.
move=> Hdim /enum_ord_cons [q [r Hq]]; rewrite /assemble_face Hq /=.
by rewrite /assemble_face_q ConvectionVelocity_value_unsupported.
Qed.

Lemma assemble_local_blocks_unsupported (cell : CellT) (s : Scratch) :
  ~~ dim_supported dim -> has_points ->
  assemble_local_blocks data cell s = Raise ExcNotImplemented.
Proof.
move=> Hdim; rewrite /has_quadrature_points /assemble_local_blocks.
case: (posnP n_q_points) => [Hq0 /= /andP [Hf Hq]|Hq _].
  rewrite (enum_ord_nil Hq0) /=.
  have [face [r ->]] := enum_ord_cons Hf.
  by rewrite /= assemble_face_unsupported.
have [q [r ->]] := enum_ord_cons Hq.
by rewrite /= /assemble_volume_q RightHandSide_value_unsupported.
Qed.

Lemma assemble_local_blocks_no_points (cell : CellT) (s : Scratch) :
  ~~ has_points ->
  assemble_local_blocks data cell s <> Raise ExcNotImplemented.
Proof.
rewrite /has_quadrature_points negb_or -eqn0Ngt => /andP [/eqP Hq0 Hf].
rewrite /assemble_local_blocks (enum_ord_nil Hq0) /=.
apply: for_each_m_never => face s'; rewrite /assemble_face.
move: Hf; rewrite negb_and -!eqn0Ngt => /orP [/eqP Hf0|/eqP Hq].
  by have H : (face < 0)%N by rewrite -[X in (_ < X)%N]Hf0.
by rewrite (enum_ord_nil Hq).
Qed.

Lemma one_cell_not_implemented (cell : CellT) (s : Scratch) (t : Task) :
  assemble_system_one_cell data cell s t = Raise ExcNotImplemented
  <-> ~~ dim_supported dim /\ has_points.
Proof.
rewrite /assemble_system_one_cell; split=> [|[Hdim Hp]]; last first.
  by rewrite assemble_local_blocks_unsupported.
case Hd: (dim_supported dim).
  rewrite assemble_local_blocks_supported //= /condense_or_reconstruct.
  by rewrite /gauss_jordan; case: ifP => _ //=; case: ifP.
case Hp: has_points => //.
case Hb: (assemble_local_blocks _ _ _) => [b|e] /=.
  rewrite /condense_or_reconstruct /gauss_jordan.
  by case: ifP => _ //=; case: ifP.
case=> He; move: Hb; rewrite He.
by move/(@assemble_local_blocks_no_points cell s (negbT Hp)).
Qed.

Lemma assemble_system_not_implemented (trace_reconstruct : bool) (st : Step) :
  assemble_system lib fes data trace_reconstruct st = Raise ExcNotImplemented
  <-> [/\ ~~ dim_supported dim, active_cells (triangulation st) <> [::]
        & has_points].
Proof.
rewrite /assemble_system.
set body := (X in for_each_m _ X _); set init := (X in for_each_m _ _ X).
have Hbody cell state :
    body cell state = Raise ExcNotImplemented
    <-> ~~ dim_supported dim /\ has_points.
  have Hone := one_cell_not_implemented cell state.1.1 state.1.2.
  rewrite /body /worker_and_copier.
  case Hc: (assemble_system_one_cell _ _ _ _) => [p|e] /=.
    by split=> // /Hone; rewrite Hc.
  split=> [[He]|/Hone]; last by rewrite Hc => -[->].
  by apply/Hone; rewrite Hc He.
split.
  case Hl: (for_each_m _ _ _) => [p|e] //= [He].
  move: Hl; rewrite He; case Hcells: (active_cells _) => [|cell cells] //= Hl.
  suff [Hdim Hp] : ~~ dim_supported dim /\ has_points by split.
  case Hd: (dim_supported dim); last first.
    case Hp: has_points => //; exfalso.
    apply: (@for_each_m_never _ _ ExcNotImplemented body (cell :: cells) init)
      => //.
    by move=> c a /Hbody [_]; rewrite Hp.
  exfalso.
  apply: (@for_each_m_never _ _ ExcNotImplemented body (cell :: cells) init)
    => //.
  by move=> c a /Hbody []; rewrite Hd.
case=> Hdim; case: (active_cells _) => [|cell cells] // _ Hp /=.
by have /Hbody -> : ~~ dim_supported dim /\ has_points by [].
Qed.


End DimensionCheck.

(** ** Boundary markers *)

Section BoundaryMarkers.

Variable R : realFieldType.
Variables (dim loc_dofs_per_cell dofs_per_cell n_face_q_points : nat).

Notation Scratch := (ScratchData R dim loc_dofs_per_cell dofs_per_cell).
Notation FEF :=
  (FEFaceValues R dim loc_dofs_per_cell dofs_per_cell n_face_q_points).

Variable data : EquationData R dim.

(** C8, as amended.  A face quadrature point changes [f_rhs] only on the
    assembly pass and only on a face of the boundary whose indicator is 1,
    where it subtracts [tr_phi_i * exact value * JxW] on the trace unknowns
    of the face; and the boundary values projected in [setup_system]
    constrain the faces of the boundary whose indicator is 0, and no other
    face. *)
Theorem neumann_and_dirichlet_markers (fv : FEF)
    (face : 'I_(faces_per_cell dim)) (q : 'I_n_face_q_points)
    (convection : Tensor R dim) (s : Scratch) :
  f_rhs (assemble_face_point data fv face q convection s)
  = f_rhs s
    + (if ~~ scratch_trace_reconstruct s
          && (at_boundary fv && (boundary_indicator fv == 1%N))
       then face_neumann data fv (fe_support_on_face s face) q else 0)
  /\ dirichlet_face (boundary_functions data) fv
     = at_boundary fv && (boundary_indicator fv == 0%N).
Proof.
split; last by rewrite /dirichlet_face /= inE.
rewrite face_point_f_rhs /neumann_face.
by case: (scratch_trace_reconstruct s).
Qed.

End BoundaryMarkers.

(** ** The concrete element *)

Section IntervalFacts.
Import Interval.

Lemma interval_supports (tr : bool) (face : 'I_(faces_per_cell 1)) :
  fe_local_support_on_face (scratch tr) face = enum 'I_2
  /\ fe_support_on_face (scratch tr) face = [:: face].
Proof.
rewrite /= /local_support_of /support_of filter_predT; split=> //.
rewrite !enum_ordSl enum_ord0 /=.
by case: face => [[|[|f]] Hf] //=; congr [:: _]; apply: val_inj.
Qed.

Lemma interval_cell_ll (tr : bool) :
  cell_ll cell (fe_local_support_on_face (scratch tr)) = ll.
Proof.
rewrite /cell_ll.
under [X in _ + X]eq_bigr => face _.
  under eq_bigr => q _.
    rewrite (interval_supports tr face).1 /face_ll sum_delta_matrix; over.
  over.
apply/matrixP=> i j.
rewrite big_ord1 !mxE (big_ord_recl 1) big_ord1 !big_ord1 !mxE.
rewrite /dot !big_ord1 /tau_stab /tau_stab_diffusion /dot !big_ord1.
rewrite /face_convection /convection_field /= !mxE /=.
by case: i => [[|[|i]] Hi] //; case: j => [[|[|j]] Hj] //=; rewrite !mxE;
   apply/eqP.
Qed.
Lemma interval_cell_lf :
  cell_lf cell (fe_local_support_on_face (scratch false))
    (fe_support_on_face (scratch false)) = lf.
Proof.
rewrite /cell_lf.
under eq_bigr => face _.
  under eq_bigr => q _.
    rewrite (interval_supports false face).1 (interval_supports false face).2.
    rewrite /face_lf; over.
  over.
apply/matrixP=> i j.
rewrite (big_ord_recl 1) big_ord1 !big_ord1 !mxE.
rewrite !enum_ordSl enum_ord0 /= !big_cons !big_nil !mxE.
rewrite /face_flux_coefficient.
rewrite /tau_stab /tau_stab_diffusion /dot !big_ord1.
rewrite /face_convection /convection_field /= !mxE /=.
by case: i => [[|[|i]] Hi] //; case: j => [[|[|j]] Hj] //=; rewrite ?mxE;
   apply/eqP.
Qed.

Lemma interval_cell_fl :
  cell_fl cell (fe_local_support_on_face (scratch false))
    (fe_support_on_face (scratch false)) = fl.
Proof.
rewrite /cell_fl.
under eq_bigr => face _.
  under eq_bigr => q _.
    rewrite (interval_supports false face).1 (interval_supports false face).2.
    rewrite /face_fl; over.
  over.
apply/matrixP=> i j.
rewrite (big_ord_recl 1) big_ord1 !big_ord1 !mxE.
rewrite !enum_ordSl enum_ord0 /= !big_cons !big_nil !mxE.
rewrite /tau_stab /tau_stab_diffusion /dot !big_ord1.
rewrite /face_convection /convection_field /= !mxE /=.
by case: i => [[|[|i]] Hi] //; case: j => [[|[|j]] Hj] //=; rewrite ?mxE;
   apply/eqP.
Qed.

Lemma interval_ll_inverse : ll \in unitmx /\ invmx ll = ll_inverse.
Proof.
have H : ll *m ll_inverse = 1%:M.
  apply/matrixP=> i j; rewrite !mxE (big_ord_recl 1) big_ord1 !mxE.
  by case: i => [[|[|i]] Hi] //; case: j => [[|[|j]] Hj] //=; apply/eqP.
have [Hu _] := mulmx1_unit H; split=> //.
by rewrite -[LHS]mulmx1 -H mulKmx.
Qed.

End IntervalFacts.
Section IntervalPost.
Import Interval.

Lemma interval_post_system (solution_local : seq rat)
    (sys : 'M[rat]_2 * 'cV[rat]_2) :
  (postprocess_system cell solution_local sys).1 = post_matrix.
Proof.
apply/matrixP=> i j.
have [-> _] := postprocess_systemE cell solution_local sys i j.
rewrite !big_ord1 /dot !big_ord1 !mxE /=.
by case: i => [[|[|i]] Hi] //; case: j => [[|[|j]] Hj] //=; apply/eqP.
Qed.

Lemma interval_post_unit : post_matrix \in unitmx.
Proof.
have H : post_matrix *m post_inverse = 1%:M.
  apply/matrixP=> i j; rewrite !mxE (big_ord_recl 1) big_ord1 !mxE.
  by case: i => [[|[|i]] Hi] //; case: j => [[|[|j]] Hj] //=; apply/eqP.
by have [] := mulmx1_unit H.
Qed.

Lemma interval_dofs_injective (n : nat) : injective (fun i : 'I_n => i : nat).
Proof. exact: val_inj. Qed.

End IntervalPost.

(** ** Where the stated properties fail on the interval *)

(** C1 as stated fails on the interval: the matrix handed to the global
    assembly is not [FF - FL * LL^-1 * LF] of the blocks that the loops have
    filled. *)
Lemma condensed_matrix_is_not_the_difference :
  exists (blocks s' : ScratchData rat 1 2 2) (t' : PerTaskData rat 2),
    [/\ assemble_local_blocks Interval.equation_data Interval.cell
          (Interval.scratch false) = Ok blocks,
        assemble_system_one_cell Interval.equation_data Interval.cell
          (Interval.scratch false) (Interval.task false) = Ok (s', t')
      & cell_matrix t'
        <> ff_matrix blocks
           - fl_matrix blocks *m invmx (ll_matrix blocks) *m lf_matrix blocks].
Proof.
have Hdim : dim_supported 1 by [].
have Hs : scratch_trace_reconstruct (Interval.scratch false) = false by [].
have [b [Hb [_ _ _ _ Hbs] [Hll Hlf Hfl _] _ _]] :=
  assemble_local_blocks_assembly Interval.equation_data Interval.cell Hdim Hs.
have [Hunit Hinv] := interval_ll_inverse.
have Hbu : ll_matrix b \in unitmx by rewrite Hll interval_cell_ll.
have [s' [t' [Hc Hm _ _ _]]] :=
  condense_assembly Interval.cell (Interval.task false) (etrans Hbs Hs) Hbu.
exists b, s', t'; split; [exact: Hb | by rewrite /assemble_system_one_cell Hb |].
rewrite Hm Hll Hlf Hfl interval_cell_ll interval_cell_lf interval_cell_fl Hinv.
move/addrI/matrixP/(_ ord0 ord0).
rewrite !mxE !(big_ord_recl 1) !big_ord1 !mxE !(big_ord_recl 1) !big_ord1 !mxE.
by move/eqP; vm_compute.
Qed.


(** C8 as stated fails on the right end of the interval, which lies on the
    boundary with the indicator 2: it is not a Neumann face, and the
    boundary values projected in [setup_system] do not constrain it. *)
Lemma marker_two_is_neither_neumann_nor_dirichlet :
  let fv := Interval.face_values Interval.right_face in
  [/\ at_boundary fv, boundary_indicator fv != 1%N, ~~ neumann_face fv
    & ~~ dirichlet_face (boundary_functions Interval.equation_data) fv].
Proof. by []. Qed.


(** ** The theorems at the concrete element *)

Lemma interval_ll_unit (tr : bool) :
  cell_ll Interval.cell (fe_local_support_on_face (Interval.scratch tr))
    \in unitmx.
Proof. by rewrite interval_cell_ll; case: interval_ll_inverse. Qed.

Lemma interval_post_system_unit :
  (postprocess_system Interval.cell Interval.zero_vector
     (Interval.post_state.1.1.1, Interval.post_state.1.1.2)).1 \in unitmx.
Proof. by rewrite interval_post_system; apply: interval_post_unit. Qed.

Lemma interval_in_range (i : 'I_2) : (i < size Interval.zero_vector)%N.
Proof. exact: ltn_ord. Qed.

Lemma interval_zero (i : 'I_2) : nth 0 Interval.zero_vector i = 0.
Proof. by case: i => [[|[|i]] Hi]. Qed.

Lemma interval_trace_support (face : 'I_(faces_per_cell 1)) (j : 'I_2)
    (q : 'I_1) :
  ~~ fe_has_support_on_face Interval.elements j face ->
  shape_value (cell_face Interval.cell face) j q = 0.
Proof. by rewrite /= => /negbTE ->. Qed.

Lemma condensed_system_on_interval :
  [/\ dim_supported 1,
      scratch_trace_reconstruct (Interval.scratch false) = false
    & cell_ll Interval.cell (fe_local_support_on_face (Interval.scratch false))
        \in unitmx]
  /\ exists (blocks s' : ScratchData rat 1 2 2) (t' : PerTaskData rat 2),
       [/\ assemble_local_blocks Interval.equation_data Interval.cell
             (Interval.scratch false) = Ok blocks,
           assemble_system_one_cell Interval.equation_data Interval.cell
             (Interval.scratch false) (Interval.task false) = Ok (s', t'),
           cell_matrix t'
           = ff_matrix blocks
             + fl_matrix blocks *m invmx (ll_matrix blocks) *m lf_matrix blocks
         & cell_vector t'
           = f_rhs blocks
             + fl_matrix blocks *m invmx (ll_matrix blocks) *m l_rhs blocks].
Proof.
split; first by split=> //; apply: interval_ll_unit.
exact: (@condensed_system_is_sum_with_stored_blocks _ _ _ _ _ _ _ _
          Interval.equation_data Interval.cell (Interval.scratch false)
          (Interval.task false) isT (erefl _) (interval_ll_unit false)).
Defined.

Lemma reconstruction_on_interval :
  [/\ dim_supported 1,
      injective (loc_dof_indices Interval.cell),
      forall i,
        (loc_dof_indices Interval.cell i
         < size (scratch_solution_local (Interval.scratch true)))%N
    & cell_ll Interval.cell (fe_local_support_on_face (Interval.scratch true))
        \in unitmx]
  /\ exists (blocks_r blocks_a s' : ScratchData rat 1 2 2),
       [/\ assemble_local_blocks Interval.equation_data Interval.cell
             (Interval.scratch true) = Ok blocks_r,
           assemble_local_blocks Interval.equation_data Interval.cell
             (Interval.scratch false) = Ok blocks_a,
           assemble_system_one_cell Interval.equation_data Interval.cell
             (Interval.scratch true) (Interval.task true)
           = Ok (s', Interval.task true)
         & let u : 'cV[rat]_2 :=
             \col_i nth 0 (scratch_solution_local s')
                      (loc_dof_indices Interval.cell i) in
           let lambda : 'cV[rat]_2 :=
             \col_j nth 0 (scratch_solution (Interval.scratch true))
                      (get_dof_indices Interval.cell j) in
           [/\ u = invmx (ll_matrix blocks_r) *m l_rhs blocks_r,
               ll_matrix blocks_a *m u + lf_matrix blocks_a *m lambda
               = l_rhs blocks_a
             & forall u' : 'cV[rat]_2,
                 ll_matrix blocks_a *m u' + lf_matrix blocks_a *m lambda
                 = l_rhs blocks_a ->
                 u' = u]].
Proof.
split.
  split=> //; [exact: interval_dofs_injective | exact: interval_in_range
              | exact: interval_ll_unit].
exact: (@reconstruction_solves_uncondensed_system _ _ _ _ _ _ _ _
          Interval.equation_data Interval.cell Interval.elements
          interval_trace_support (Interval.scratch true)
          (Interval.scratch false) (Interval.task true) isT (erefl _)
          (erefl _) (erefl _) (erefl _) (erefl _)
          (@interval_dofs_injective 2) interval_in_range
          (interval_ll_unit true)).
Defined.

Lemma volume_contribution_on_interval :
  dim_supported 1
  /\ exists s' : ScratchData rat 1 2 2,
       [/\ assemble_volume_q Interval.equation_data Interval.fe_values ord0
             (Interval.scratch false) = Ok s',
           forall i j,
             ll_matrix s' i j
             = ll_matrix (Interval.scratch false) i j
               + (dot (fluxes_value Interval.fe_values i ord0)
                    (fluxes_value Interval.fe_values j ord0)
                  - fluxes_divergence Interval.fe_values i ord0
                    * scalar_value Interval.fe_values j ord0
                  + scalar_value Interval.fe_values i ord0
                    * fluxes_divergence Interval.fe_values j ord0
                  - dot (scalar_gradient Interval.fe_values i ord0)
                      (convection_field
                         (quadrature_point Interval.fe_values ord0))
                    * scalar_value Interval.fe_values j ord0)
                 * JxW Interval.fe_values ord0
         & forall i,
             l_rhs s' i 0
             = l_rhs (Interval.scratch false) i 0
               + scalar_value Interval.fe_values i ord0
                 * source_field Interval.equation_data
                     (quadrature_point Interval.fe_values ord0)
                 * JxW Interval.fe_values ord0].
Proof.
split=> //.
exact: (@volume_contribution _ _ _ _ _ Interval.equation_data
          Interval.fe_values ord0 (Interval.scratch false) isT).
Defined.



Lemma reconstruction_pass_on_interval :
  [/\ dim_supported 1,
      scratch_trace_reconstruct (Interval.scratch true) = true,
      task_trace_reconstruct (Interval.task true) = true
    & cell_ll Interval.cell (fe_local_support_on_face (Interval.scratch true))
        \in unitmx]
  /\ exists (blocks s' : ScratchData rat 1 2 2),
       [/\ assemble_local_blocks Interval.equation_data Interval.cell
             (Interval.scratch true) = Ok blocks,
           assemble_system_one_cell Interval.equation_data Interval.cell
             (Interval.scratch true) (Interval.task true)
           = Ok (s', Interval.task true),
           ff_matrix blocks = 0 /\ f_rhs blocks = 0
         & ff_matrix s' = 0 /\ f_rhs s' = 0].
Proof.
split; first by split=> //; apply: interval_ll_unit.
have [b [s' [[Hb Hc] [Hff Hf Hff' Hf'] _ _ _]]] :=
  @reconstruction_pass_skips_skeleton_system _ _ _ _ _ _ _ _
    (idle_library rat 1 1 2 2 1 1 1) Interval.elements Interval.equation_data
    Interval.cell (Interval.scratch true) (Interval.task true) isT
    (erefl _) (erefl _) (interval_ll_unit true).
by exists b, s'; split.
Defined.


(** * Further properties of the code *)

(** ** One face quadrature point, entry by entry *)

Section FaceEntries.

Variable R : realFieldType.

(** An entry of a sum of elementary matrices over two duplicate-free lists. *)
Lemma sum_pick (I : eqType) (S : seq I) (G : I -> R) (a : I) :
  uniq S -> \sum_(i <- S) G i * (a == i)%:R = if a \in S then G a else 0.
Proof.
elim: S => [|i S IH] /=; first by rewrite big_nil.
case/andP=> Hi Hu; rewrite big_cons in_cons IH //.
case: (altP (a =P i)) => [->|_] /=; last by rewrite mulr0 add0r.
by rewrite (negbTE Hi) mulr1 addr0.
Qed.

Lemma sum_delta_entry (m n : nat) (S : seq 'I_m) (T : seq 'I_n)
    (F : 'I_m -> 'I_n -> R) (a : 'I_m) (b : 'I_n) :
  uniq S -> uniq T ->
  (\sum_(i <- S) \sum_(j <- T) F i j *: delta_mx i j) a b
  = if (a \in S) && (b \in T) then F a b else 0.
Proof.
move=> HS HT; rewrite summxE.
under eq_bigr => i _.
  rewrite summxE.
  under eq_bigr => j _ do rewrite !mxE -mulnb natrM mulrA.
  rewrite (sum_pick (fun j => F i j * (a == i)%:R)) //; over.
rewrite /=; case HbT: (b \in T); rewrite ?andbT ?andbF; last by rewrite big1.
exact: sum_pick.
Qed.

Lemma sum_delta_entry_col (m : nat) (S : seq 'I_m) (F : 'I_m -> R)
    (a : 'I_m) :
  uniq S ->
  (\sum_(i <- S) F i *: (delta_mx i 0 : 'cV[R]_m)) a 0
  = if a \in S then F a else 0.
Proof.
move=> HS; rewrite summxE.
under eq_bigr => i _ do rewrite !mxE eqxx andbT.
exact: sum_pick.
Qed.

End FaceEntries.

Section FacePointEntries.

Variable R : realFieldType.
Variables (dim loc_dofs_per_cell dofs_per_cell n_face_q_points : nat).

Notation Scratch := (ScratchData R dim loc_dofs_per_cell dofs_per_cell).

Variable data : EquationData R dim.
Variable fv : FEFaceValues R dim loc_dofs_per_cell dofs_per_cell n_face_q_points.
Variables (face : 'I_(faces_per_cell dim)) (q : 'I_n_face_q_points).
Variable s : Scratch.

Notation Sl := (fe_local_support_on_face s face).
Notation Sf := (fe_support_on_face s face).
Notation convection := (convection_field (face_quadrature_point fv q)).
Notation normal := (normal_vector fv q).
Notation tau := (tau_stab convection normal).

Lemma assemble_face_q_supported :
  dim_supported dim ->
  assemble_face_q data fv face q s
  = Ok (assemble_face_point data fv face q convection s).
Proof.
by move=> Hdim; rewrite /assemble_face_q ConvectionVelocity_value_supported.
Qed.

(** X1.  On the assembly pass, with support lists free of duplicates, a face
    quadrature point adds
    [(q_i . n + (convection . n - tau) u_i) * tr_j * JxW] to [lf_matrix (i, j)]
    and subtracts [(q_i . n + tau u_i) * tr_j * JxW] from [fl_matrix (j, i)]
    for the interior functions [i] and the trace functions [j] with support
    on the face, and leaves every other entry of the two blocks as it is. *)
Theorem face_point_couples_interior_and_skeleton :
  dim_supported dim -> scratch_trace_reconstruct s = false ->
  uniq Sl -> uniq Sf ->
  exists s' : Scratch,
    assemble_face_q data fv face q s = Ok s'
    /\ forall (i : 'I_loc_dofs_per_cell) (j : 'I_dofs_per_cell),
         lf_matrix s' i j
         = lf_matrix s i j
           + (if (i \in Sl) && (j \in Sf)
              then (dot (face_fluxes_value fv i q) normal
                    + (dot convection normal - tau) * face_scalar_value fv i q)
                   * shape_value fv j q * face_JxW fv q
              else 0)
         /\ fl_matrix s' j i
            = fl_matrix s j i
              - (if (i \in Sl) && (j \in Sf)
                 then (dot (face_fluxes_value fv i q) normal
                       + tau * face_scalar_value fv i q)
                      * shape_value fv j q * face_JxW fv q
                 else 0).
Proof.
move=> Hdim Hs Hl Hf; exists (assemble_face_point data fv face q convection s).
split; first exact: assemble_face_q_supported.
move=> i j; rewrite face_point_lf face_point_fl Hs !mxE; split.
  by rewrite /face_lf sum_delta_entry.
rewrite /face_fl exchange_big /=.
rewrite (sum_delta_entry
  (fun (j : 'I_dofs_per_cell) (i : 'I_loc_dofs_per_cell) =>
     - ((dot (face_fluxes_value fv i q) normal
         + tau * face_scalar_value fv i q)
        * shape_value fv j q * face_JxW fv q))) //.
by rewrite andbC; case: ifP => _; rewrite ?oppr0.
Qed.

(** X2.  On the assembly pass, with a support list free of duplicates, a face
    quadrature point adds [(convection . n - tau) * tr_i * tr_j * JxW] to
    [ff_matrix (i, j)] for the trace functions [i], [j] with support on the
    face and leaves every other entry as it is; on the reconstruction pass
    it leaves the whole block as it is. *)
Theorem face_point_skeleton_block :
  dim_supported dim -> uniq Sf ->
  exists s' : Scratch,
    assemble_face_q data fv face q s = Ok s'
    /\ forall i j : 'I_dofs_per_cell,
         ff_matrix s' i j
         = ff_matrix s i j
           + (if [&& ~~ scratch_trace_reconstruct s, i \in Sf & j \in Sf]
              then (dot convection normal - tau)
                   * shape_value fv i q * shape_value fv j q * face_JxW fv q
              else 0).
Proof.
move=> Hdim Hf; exists (assemble_face_point data fv face q convection s).
split; first exact: assemble_face_q_supported.
move=> i j; rewrite face_point_ff.
case: (scratch_trace_reconstruct s) => /=; first by rewrite !mxE.
by rewrite !mxE /face_ff sum_delta_entry.
Qed.

(** X3.  On both passes, with a support list free of duplicates, a face
    quadrature point adds the penalty [tau * u_i * u_j * JxW] to
    [ll_matrix (i, j)] for the interior functions [i], [j] with support on the
    face and leaves every other entry as it is. *)
Theorem face_point_penalty :
  dim_supported dim -> uniq Sl ->
  exists s' : Scratch,
    assemble_face_q data fv face q s = Ok s'
    /\ forall i j : 'I_loc_dofs_per_cell,
         ll_matrix s' i j
         = ll_matrix s i j
           + (if (i \in Sl) && (j \in Sl)
              then tau * face_scalar_value fv i q * face_scalar_value fv j q
                   * face_JxW fv q
              else 0).
Proof.
move=> Hdim Hl; exists (assemble_face_point data fv face q convection s).
split; first exact: assemble_face_q_supported.
move=> i j.
rewrite (@face_point_ll _ _ _ _ _ data fv face q convection _ _ s (erefl _)
           (erefl _)).
by rewrite !mxE /face_ll sum_delta_entry.
Qed.

End FacePointEntries.
(** ** The worker on one cell *)

Section Worker.

Variable R : realFieldType.
Variables (dim n_q_points loc_dofs_per_cell dofs_per_cell : nat).
Variables (n_face_q_points post_dofs post_q_points : nat).

Notation Scratch := (ScratchData R dim loc_dofs_per_cell dofs_per_cell).
Notation Task := (PerTaskData R dofs_per_cell).
Notation CellT :=
  (Cell R dim n_q_points loc_dofs_per_cell dofs_per_cell n_face_q_points
     post_dofs post_q_points).

Variables (data : EquationData R dim) (cell : CellT).

(** The worker on the assembly pass, in closed form. *)
Lemma one_cell_assembly (s : Scratch) (t : Task) :
  dim_supported dim -> scratch_trace_reconstruct s = false ->
  cell_ll cell (fe_local_support_on_face s) \in unitmx ->
  let Sl := fe_local_support_on_face s in
  let Sf := fe_support_on_face s in
  let tmp := cell_fl cell Sl Sf *m invmx (cell_ll cell Sl) in
  exists s' : Scratch,
    assemble_system_one_cell data cell s t
    = Ok (s', {| cell_matrix := cell_ff cell Sf + tmp *m cell_lf cell Sl Sf;
                 cell_vector := cell_f_rhs cell Sf data
                                + tmp *m cell_l_rhs cell data;
                 dof_indices := [seq get_dof_indices cell j
                                | j <- enum 'I_dofs_per_cell];
                 task_trace_reconstruct := task_trace_reconstruct t |})
    /\ same_context s' s.
Proof.
move=> Hdim Hs Hll /=.
have [b [Hb Hc [Hbll Hblf Hbfl Hbff] Hbl Hbf]] :=
  assemble_local_blocks_assembly data cell Hdim Hs.
have Hbs : scratch_trace_reconstruct b = false by case: Hc => _ _ _ _ ->.
rewrite /assemble_system_one_cell Hb /= /condense_or_reconstruct.
rewrite gauss_jordan_unit ?Hbll //= Hbs /=.
eexists; split; first by rewrite /mmult /vmult_add ?Hbfl ?Hbll ?Hbff ?Hblf ?Hbf ?Hbl.
by case: Hc => H1 H2 H3 H4 H5; split.
Qed.

(** The worker on the reconstruction pass, in closed form. *)
Lemma one_cell_reconstruction (s : Scratch) (t : Task) :
  dim_supported dim -> scratch_trace_reconstruct s = true ->
  cell_ll cell (fe_local_support_on_face s) \in unitmx ->
  let Sl := fe_local_support_on_face s in
  exists s' : Scratch,
    [/\ assemble_system_one_cell data cell s t = Ok (s', t),
        scratch_solution_local s'
        = set_dof_values (loc_dof_indices cell)
            (invmx (cell_ll cell Sl)
             *m (cell_l_rhs cell data
                 + cell_trace_rhs cell Sl (scratch_solution s)))
            (scratch_solution_local s)
      & [/\ scratch_solution s' = scratch_solution s,
            fe_local_support_on_face s' = fe_local_support_on_face s,
            fe_support_on_face s' = fe_support_on_face s
          & scratch_trace_reconstruct s' = true]].
Proof.
move=> Hdim Hs Hll /=.
have [b [Hb Hc Hbll Hbl _]] :=
  assemble_local_blocks_reconstruction data cell Hdim Hs.
have [Hsol Hloc Hsl Hsf Hbs] := Hc.
have Hunit : ll_matrix b \in unitmx by rewrite Hbll.
have [s' [Hcond Htmp Hs' [H1 _ H3 H4 H5] _]] :=
  reconstruct_interior cell t (etrans Hbs Hs) Hunit.
exists s'; split.
- by rewrite /assemble_system_one_cell Hb.
- by rewrite Hs' Htmp Hbll Hbl Hloc.
- by move: H1 H3 H4 H5 => /= -> -> -> ->; rewrite Hsol Hsl Hsf Hbs.
Qed.

(** A singular interior block stops the worker on either pass. *)
Lemma one_cell_singular (s : Scratch) (t : Task) :
  dim_supported dim ->
  cell_ll cell (fe_local_support_on_face s) \notin unitmx ->
  assemble_system_one_cell data cell s t = Raise ExcNotRegular.
Proof.
move=> Hdim Hll; rewrite /assemble_system_one_cell.
rewrite assemble_local_blocks_supported //= /condense_or_reconstruct.
by rewrite gauss_jordan_singular // blocks_ll.
Qed.

(** The outcome of the worker, with what it keeps of the scratch data. *)
Lemma worker_fails_on_singular (s : Scratch) (t : Task) :
  dim_supported dim ->
  if cell_ll cell (fe_local_support_on_face s) \in unitmx
  then exists (s' : Scratch) (t' : Task),
         assemble_system_one_cell data cell s t = Ok (s', t')
         /\ fe_local_support_on_face s' = fe_local_support_on_face s
  else assemble_system_one_cell data cell s t = Raise ExcNotRegular.
Proof.
move=> Hdim; case: ifP => [Hll|/negbT Hll]; last exact: one_cell_singular.
case Hs: (scratch_trace_reconstruct s).
  have [s' [H _ [_ H2 _ _]]] := one_cell_reconstruction t Hdim Hs Hll.
  by exists s', t.
have [s' [H [_ _ H2 _ _]]] := one_cell_assembly t Hdim Hs Hll.
by eexists; eexists; split; first exact: H.
Qed.

(** X4.  In a supported dimension the worker of a cell fails exactly when the
    interior block of the cell, as the loops fill it, is singular, and then
    with [ExcNotRegular]; this holds on both passes and whatever the scratch
    and task data hold on entry. *)
Theorem worker_fails_exactly_on_singular_block (s : Scratch) (t : Task) :
  dim_supported dim ->
  if cell_ll cell (fe_local_support_on_face s) \in unitmx
  then exists (s' : Scratch) (t' : Task),
         assemble_system_one_cell data cell s t = Ok (s', t')
  else assemble_system_one_cell data cell s t = Raise ExcNotRegular.
Proof.
move=> Hdim; have := worker_fails_on_singular s t Hdim.
by case: ifP => _ // [s' [t' [H _]]]; exists s', t'.
Qed.

(** X5.  The worker starts from the scratch data as the previous cell left
    them, yet what it produces depends on the scratch data only through the
    trace vector, the interior vector, the support lists and the pass: with
    these equal, two runs on the same cell give the same task data and the
    same interior vector, or fail alike. *)
Theorem worker_ignores_stale_scratch (s1 s2 : Scratch) (t : Task) :
  dim_supported dim -> same_context s1 s2 ->
  match assemble_system_one_cell data cell s1 t,
        assemble_system_one_cell data cell s2 t with
  | Ok (s1', t1'), Ok (s2', t2') =>
      t1' = t2' /\ scratch_solution_local s1' = scratch_solution_local s2'
  | Raise e1, Raise e2 => e1 = e2
  | _, _ => False
  end.
Proof.
move=> Hdim [Hsol Hloc Hsl Hsf Hflag].
case Hll: (cell_ll cell (fe_local_support_on_face s1) \in unitmx); last first.
  have H1 : cell_ll cell (fe_local_support_on_face s1) \notin unitmx.
    by rewrite Hll.
  have H2 : cell_ll cell (fe_local_support_on_face s2) \notin unitmx.
    by rewrite -Hsl.
  by rewrite (one_cell_singular t Hdim H1) (one_cell_singular t Hdim H2).
case Hs: (scratch_trace_reconstruct s1).
  have [s1' [-> -> _]] := one_cell_reconstruction t Hdim Hs Hll.
  have Hs2 : scratch_trace_reconstruct s2 = true by rewrite -Hflag.
  have Hll2 : cell_ll cell (fe_local_support_on_face s2) \in unitmx.
    by rewrite -Hsl.
  have [s2' [-> -> _]] := one_cell_reconstruction t Hdim Hs2 Hll2.
  by rewrite Hsl Hsol Hloc.
have [s1' [-> [_ H1 _ _ _]]] := one_cell_assembly t Hdim Hs Hll.
have Hs2 : scratch_trace_reconstruct s2 = false by rewrite -Hflag.
have Hll2 : cell_ll cell (fe_local_support_on_face s2) \in unitmx.
  by rewrite -Hsl.
have [s2' [-> [_ H2 _ _ _]]] := one_cell_assembly t Hdim Hs2 Hll2.
by rewrite Hsl Hsf H1 H2 Hloc.
Qed.

End Worker.
(** ** Loops over the cells of a mesh *)

Section MeshScatter.

Variable R : realFieldType.

Lemma uniq_map_injective (n : nat) (f : 'I_n -> nat) :
  uniq [seq f i | i <- enum 'I_n] -> injective f.
Proof.
move=> Hu i j Hij; apply: val_inj; apply/eqP.
have Hn (k : 'I_n) : nth (f i) [seq f k | k <- enum 'I_n] k = f k.
  by rewrite (nth_map i) ?size_enum_ord // nth_ord_enum.
have Hi : (i < size [seq f k | k <- enum 'I_n])%N.
  by rewrite size_map size_enum_ord.
have Hj : (j < size [seq f k | k <- enum 'I_n])%N.
  by rewrite size_map size_enum_ord.
by rewrite -(nth_uniq (f i) Hi Hj Hu) !Hn Hij.
Qed.

Lemma size_for_each_vector_set (K : Type) (key : K -> nat)
    (upd : K -> seq R -> R) (r : seq K) (g : seq R) :
  size (for_each r (fun i g => vector_set g (key i) (upd i g)) g) = size g.
Proof.
elim: r g => [|i r IH] g //.
by rewrite for_each_cons IH size_vector_set.
Qed.

Lemma size_set_dof_values (n : nat) (dofs : 'I_n -> nat) (local : 'cV[R]_n)
    (global : seq R) :
  size (set_dof_values dofs local global) = size global.
Proof.
exact: (size_for_each_vector_set dofs (fun i _ => local i 0)).
Qed.

Lemma size_cell_distribute_local_to_global (n : nat) (dofs : 'I_n -> nat)
    (local : 'cV[R]_n) (global : seq R) :
  size (cell_distribute_local_to_global dofs local global) = size global.
Proof.
exact: (size_for_each_vector_set dofs
          (fun i g => nth 0 g (dofs i) + local i 0)).
Qed.

Lemma nth_set_dof_values_other (n : nat) (dofs : 'I_n -> nat)
    (local : 'cV[R]_n) (global : seq R) (k : nat) :
  k \notin [seq dofs i | i <- enum 'I_n] ->
  nth 0 (set_dof_values dofs local global) k = nth 0 global k.
Proof.
exact: (@scatter_other _ _ dofs (fun i _ => local i 0)).
Qed.

Lemma nth_cell_distribute_local_to_global_other (n : nat) (dofs : 'I_n -> nat)
    (local : 'cV[R]_n) (global : seq R) (k : nat) :
  k \notin [seq dofs i | i <- enum 'I_n] ->
  nth 0 (cell_distribute_local_to_global dofs local global) k
  = nth 0 global k.
Proof.
exact: (@scatter_other _ _ dofs (fun i old => old + local i 0)).
Qed.

(** A loop over cells whose passes each rewrite the slots of their own
    unknowns in a global vector: when no two cells share a slot, every cell
    finds its slots as they were before the loop, and its values are still
    there at the end. *)
Section Loop.

Variables (C St : Type) (n : nat).
Variables (dofs : C -> 'I_n -> nat) (vec : St -> seq R).
Variables (val : C -> 'I_n -> R -> R) (Inv : St -> Prop) (P : C -> bool).
Variable step : C -> St -> result St.

Local Notation dofs_of cells :=
  (flatten [seq [seq dofs c i | i <- enum 'I_n] | c <- cells]).

Hypothesis Hstep :
  forall c a,
    P c -> Inv a -> injective (dofs c) ->
    (forall i, (dofs c i < size (vec a))%N) ->
    exists b,
      [/\ step c a = Ok b, Inv b, size (vec b) = size (vec a),
          forall i, nth 0 (vec b) (dofs c i)
                    = val c i (nth 0 (vec a) (dofs c i))
        & forall k, k \notin [seq dofs c i | i <- enum 'I_n] ->
                    nth 0 (vec b) k = nth 0 (vec a) k].

Lemma each_impl (Q1 Q2 : C -> Prop) (cells : seq C) :
  (forall c, Q1 c -> Q2 c) -> each Q1 cells -> each Q2 cells.
Proof.
by move=> H; elim: cells => [|c cells IH] //= [/H ? /IH].
Qed.

Lemma each_disjoint (Q1 Q2 : C -> Prop) (c0 : C) (cells : seq C) :
  ~~ has (mem (dofs_of cells)) [seq dofs c0 i | i <- enum 'I_n] ->
  (forall c, (forall i, dofs c i \in dofs_of cells) ->
             (forall i, dofs c i \notin [seq dofs c0 i | i <- enum 'I_n]) ->
             Q1 c -> Q2 c) ->
  each Q1 cells -> each Q2 cells.
Proof.
elim: cells => [|c cells IH] //= Hd H [H1 Hrest].
have Hc i : dofs c i \in dofs_of (c :: cells).
  by rewrite /= mem_cat map_f // mem_enum.
split.
  apply: H => // i; apply/negP => Hi.
  by move/hasPn: Hd => /(_ _ Hi) /=; rewrite Hc.
apply: IH Hrest.
  apply/hasPn => k Hk; move/hasPn: Hd => /(_ k Hk) /=.
  by rewrite /= mem_cat negb_or => /andP [].
move=> c' Hin Hout; apply: H => // i.
by rewrite /= mem_cat Hin orbT.
Qed.

Lemma for_each_m_scatter (cells : seq C) (a : St) :
  uniq (dofs_of cells) ->
  all (fun k => (k < size (vec a))%N) (dofs_of cells) ->
  all P cells -> Inv a ->
  exists b,
    [/\ for_each_m cells step a = Ok b, Inv b, size (vec b) = size (vec a),
        each (fun c => forall i, nth 0 (vec b) (dofs c i)
                                 = val c i (nth 0 (vec a) (dofs c i))) cells
      & forall k, k \notin dofs_of cells -> nth 0 (vec b) k = nth 0 (vec a) k].
Proof.
elim: cells a => [|c cells IH] a; first by exists a.
rewrite /= cat_uniq all_cat.
case/and3P=> Hu Hdis Hus /andP [Hr Hrs] /andP [Hc Hcs] Ha.
have Hrange i : (dofs c i < size (vec a))%N.
  by move/allP: Hr; apply; rewrite map_f // mem_enum.
have [a1 [Hs1 Ha1 Hz1 Hv1 Ho1]] :=
  Hstep Hc Ha (uniq_map_injective Hu) Hrange.
have Hrs1 : all (fun k => (k < size (vec a1))%N) (dofs_of cells).
  by rewrite Hz1.
have [b [Hsb Hb Hzb Hvb Hob]] := IH a1 Hus Hrs1 Hcs Ha1.
exists b; split=> //.
- by rewrite Hs1.
- by rewrite Hzb.
- split.
    move=> i; rewrite Hob ?Hv1 //.
    apply/negP => Hi; move/hasPn: Hdis => /(_ _ Hi) /=.
    by rewrite map_f // mem_enum.
  have Hdis' : ~~ has (mem (dofs_of cells)) [seq dofs c i | i <- enum 'I_n].
    apply/hasPn => k Hk; apply/negP => /= Hk'.
    by move/hasPn: Hdis => /(_ _ Hk') /=; rewrite Hk.
  apply: (each_disjoint Hdis') Hvb => c' _ Hout Hc' i.
  by rewrite Hc' Ho1.
- move=> k; rewrite mem_cat negb_or => /andP [Hk1 Hk2].
  by rewrite Hob // Ho1.
Qed.

End Loop.

(** A loop whose passes fail exactly on the entries outside [P]. *)
Lemma for_each_m_outcome (C St : Type) (Inv : St -> Prop) (P : C -> bool)
    (e : exception) (step : C -> St -> result St) :
  (forall c a, Inv a -> P c -> exists b, step c a = Ok b /\ Inv b) ->
  (forall c a, Inv a -> ~~ P c -> step c a = Raise e) ->
  forall (cells : seq C) (a : St),
    Inv a ->
    if all P cells then exists b, for_each_m cells step a = Ok b
    else for_each_m cells step a = Raise e.
Proof.
move=> Hok Hfail; elim=> [|c cells IH] a Ha /=; first by exists a.
case Hc: (P c) => /=; last by rewrite Hfail // Hc.
have [b [-> Hb]] := Hok c a Ha Hc.
exact: IH.
Qed.

Lemma each_all (C : Type) (P : C -> bool) (Q1 Q2 Q3 : C -> Prop)
    (cells : seq C) :
  (forall c, P c -> Q1 c -> Q2 c -> Q3 c) ->
  all P cells -> each Q1 cells -> each Q2 cells -> each Q3 cells.
Proof.
move=> H; elim: cells => [|c cells IH] //= /andP [Hc Hcs] [H1 Hs1] [H2 Hs2].
by split; [exact: H | exact: IH].
Qed.

End MeshScatter.

Section MeshPasses.

Variable R : realFieldType.
Variables (dim n_q_points loc_dofs_per_cell dofs_per_cell : nat).
Variables (n_face_q_points post_dofs post_q_points : nat).

Notation Scratch := (ScratchData R dim loc_dofs_per_cell dofs_per_cell).
Notation Task := (PerTaskData R dofs_per_cell).
Notation CellT :=
  (Cell R dim n_q_points loc_dofs_per_cell dofs_per_cell n_face_q_points
     post_dofs post_q_points).
Notation Step :=
  (Step51 R dim n_q_points loc_dofs_per_cell dofs_per_cell n_face_q_points
     post_dofs post_q_points).
Notation Lib :=
  (Library R dim n_q_points loc_dofs_per_cell dofs_per_cell n_face_q_points
     post_dofs post_q_points).

Variables (lib : Lib) (fes : FiniteElements dim loc_dofs_per_cell dofs_per_cell).
Variable data : EquationData R dim.

Notation Sl := (local_support_of fes).
Notation Sf := (support_of fes).

(** *** The assembly pass *)

(** A state without its skeleton system. *)
Local Notation strip g :=
  (set_system_rhs [::] (set_system_matrix (matrix_clear R) g)).

Lemma strip_copy_local_to_global (t : Task) (st : Step) :
  strip (copy_local_to_global lib t st) = strip st.
Proof. by rewrite /copy_local_to_global; case: ifP. Qed.

Lemma strip_eq (g st : Step) :
  strip g = strip st ->
  g = set_system_rhs (system_rhs g) (set_system_matrix (system_matrix g) st).
Proof.
case: g => g1 g2 g3 g4 g5 g6 g7 g8 g9; case: st => a1 a2 a3 a4 a5 a6 a7 a8 a9.
rewrite /set_system_rhs /set_system_matrix /=.
by case=> -> -> -> -> -> -> ->.
Qed.

(** The worker on the assembly pass leaves the interior vector and the pass
    as they are, in any dimension. *)
Lemma one_cell_assembly_frame (cell : CellT) (s s' : Scratch) (t t' : Task) :
  scratch_trace_reconstruct s = false ->
  assemble_system_one_cell data cell s t = Ok (s', t') ->
  scratch_trace_reconstruct s' = false
  /\ scratch_solution_local s' = scratch_solution_local s.
Proof.
move=> Hs; rewrite /assemble_system_one_cell.
case Hb: (assemble_local_blocks _ _ _) => [b|] //=.
have [[_ Hloc _ _ Hbs] _] := assemble_local_blocks_frame Hb.
rewrite /condense_or_reconstruct.
case: (gauss_jordan _) => [inv|] //=.
by rewrite Hbs Hs /= => -[<- _] /=; rewrite Hbs Hs Hloc.
Qed.

(** X6.  Whatever the dimension and the mesh, an assembly pass that returns
    has changed the matrix and the right-hand side of the skeleton system and
    nothing else: the mesh, the constraints, the sparsity pattern, the trace
    vector, the interior vector and the recovery vector are as before. *)
Theorem assembly_pass_changes_only_the_skeleton_system (st st' : Step) :
  assemble_system lib fes data false st = Ok st' ->
  st' = set_system_rhs (system_rhs st')
          (set_system_matrix (system_matrix st') st).
Proof.
rewrite /assemble_system.
case Hl: (for_each_m _ _ _) => [[[s t] g]|] //= [<-].
pose Inv (p : Scratch * Task * Step) :=
  [/\ scratch_trace_reconstruct p.1.1 = false,
      scratch_solution_local p.1.1 = solution_local st
    & strip p.2 = strip st].
suff [_ _ /strip_eq] : Inv (s, t, g) by [].
apply: (for_each_m_invariant _ _ Hl); last by [].
move=> cell [[s1 t1] g1] [[s2 t2] g2] [/= H1 H2 H3].
rewrite /worker_and_copier /=.
case Hc: (assemble_system_one_cell _ _ _ _) => [[s3 t3]|] //= [<- _ <-].
have [H4 H5] := one_cell_assembly_frame H1 Hc.
split=> //=; first by rewrite H5.
rewrite strip_copy_local_to_global H5 H2.
have -> : solution_local st = solution_local g1.
  by have /= := congr1 (@solution_local _ _ _ _ _ _ _ _) H3.
by rewrite set_solution_local_same.
Qed.

Lemma solution_local_copy_local_to_global (t : Task) (st : Step) :
  solution_local (copy_local_to_global lib t st) = solution_local st.
Proof. by rewrite /copy_local_to_global; case: ifP. Qed.

Lemma assembly_loop (cells : seq CellT) (s : Scratch) (t : Task) (g : Step) :
  dim_supported dim ->
  [/\ scratch_trace_reconstruct s = false,
      fe_local_support_on_face s = Sl, fe_support_on_face s = Sf
    & scratch_solution_local s = solution_local g] ->
  task_trace_reconstruct t = false ->
  all (fun cell => cell_ll cell Sl \in unitmx) cells ->
  exists (s' : Scratch) (t' : Task),
    for_each_m cells (worker_and_copier lib data) (s, t, g)
    = Ok (s', t',
          for_each cells
            (fun cell g =>
               copy_local_to_global lib (condensed_task data fes cell) g) g).
Proof.
move=> Hdim.
elim: cells s t g => [|cell cells IH] s t g [Hs Hl Hf Hloc] Ht /=.
  by move=> _; exists s, t.
case/andP=> Hll /IH {}IH; rewrite for_each_cons /worker_and_copier /=.
have Hunit : cell_ll cell (fe_local_support_on_face s) \in unitmx.
  by rewrite Hl.
have [s1 [-> [_ Hloc1 Hl1 Hf1 Hs1]]] := @one_cell_assembly _ _ _ _ _ _ _ _ data cell s t Hdim Hs Hunit.
rewrite /= Hloc1 Hloc set_solution_local_same Hl Hf Ht.
apply: IH => //; split; rewrite ?Hs1 ?Hl1 ?Hf1 //.
by rewrite solution_local_copy_local_to_global Hloc1.
Qed.

(** X7.  In a supported dimension, on a mesh whose cells all have an
    invertible interior block, the assembly pass is the copier applied cell
    after cell, in the order of the mesh, to the condensed matrix
    [FF + FL * LL^-1 * LF] and vector [f_rhs + FL * LL^-1 * l_rhs] of each
    cell, where the blocks are the sums over the quadrature points of that
    cell alone. *)
Theorem assembly_pass_in_closed_form (st : Step) :
  dim_supported dim ->
  all (fun cell => cell_ll cell Sl \in unitmx) (active_cells (triangulation st)) ->
  assemble_system lib fes data false st
  = Ok (for_each (active_cells (triangulation st))
          (fun cell g =>
             copy_local_to_global lib (condensed_task data fes cell) g) st).
Proof.
move=> Hdim Hall; rewrite /assemble_system.
by have [s' [t' ->]] :=
  @assembly_loop (active_cells (triangulation st))
    (ScratchData_init n_face_q_points fes (solution st) (solution_local st)
       false)
    (PerTaskData_init R dofs_per_cell false) st Hdim
    (And4 (erefl _) (erefl _) (erefl _) (erefl _)) (erefl _) Hall.
Qed.

(** *** The reconstruction pass *)

(** The workers of the reconstruction pass on cells that share no interior
    unknown. *)
Lemma reconstruct_cells (cells : seq CellT) (sol loc : seq R) :
  dim_supported dim ->
  uniq (interior_dofs cells) ->
  all (fun k => (k < size loc)%N) (interior_dofs cells) ->
  all (fun cell => cell_ll cell Sl \in unitmx) cells ->
  exists p : Scratch * Task,
    [/\ cells_loop data cells
          (ScratchData_init n_face_q_points fes sol loc true,
           PerTaskData_init R dofs_per_cell true) = Ok p,
        size (scratch_solution_local p.1) = size loc,
        each (fun cell =>
                forall i,
                  nth 0 (scratch_solution_local p.1) (loc_dof_indices cell i)
                  = interior_solution data fes cell sol i 0) cells
      & forall k,
          k \notin interior_dofs cells ->
          nth 0 (scratch_solution_local p.1) k = nth 0 loc k].
Proof.
move=> Hdim Hu Hr Hall.
pose t0 := PerTaskData_init R dofs_per_cell true.
pose Inv (p : Scratch * Task) :=
  [/\ scratch_trace_reconstruct p.1 = true,
      scratch_solution p.1 = sol,
      fe_local_support_on_face p.1 = Sl, fe_support_on_face p.1 = Sf
    & p.2 = t0].
have Hstep (cell : CellT) (a : Scratch * Task) :
    cell_ll cell Sl \in unitmx -> Inv a ->
    injective (loc_dof_indices cell) ->
    (forall i, (loc_dof_indices cell i < size (scratch_solution_local a.1))%N) ->
    exists b : Scratch * Task,
      [/\ assemble_system_one_cell data cell a.1 a.2 = Ok b, Inv b,
          size (scratch_solution_local b.1) = size (scratch_solution_local a.1),
          forall i,
            nth 0 (scratch_solution_local b.1) (loc_dof_indices cell i)
            = interior_solution data fes cell sol i 0
        & forall k,
            k \notin [seq loc_dof_indices cell i
                     | i <- enum 'I_loc_dofs_per_cell] ->
            nth 0 (scratch_solution_local b.1) k
            = nth 0 (scratch_solution_local a.1) k].
  case: a => s t /= Hll [/= Hs Hsol Hl Hf ->] Hinj Hrange.
  have Hunit : cell_ll cell (fe_local_support_on_face s) \in unitmx.
    by rewrite Hl.
  have [s' [-> Hloc [H1 H2 H3 H4]]] :=
    @one_cell_reconstruction _ _ _ _ _ _ _ _ data cell s t0 Hdim Hs Hunit.
  exists (s', t0); split=> //=.
  - by split=> //=; rewrite ?H1 ?H2 ?H3.
  - by rewrite Hloc size_set_dof_values.
  - by move=> i; rewrite Hloc nth_set_dof_values // Hl Hsol.
  - by move=> k Hk; rewrite Hloc nth_set_dof_values_other.
have [p [Hloop _ Hsize Hval Hout]] :=
  @for_each_m_scatter R CellT (Scratch * Task)%type loc_dofs_per_cell
    (fun cell => loc_dof_indices cell)
    (fun p => scratch_solution_local p.1)
    (fun cell i _ => interior_solution data fes cell sol i 0)
    Inv (fun cell => cell_ll cell Sl \in unitmx)
    (fun cell p => assemble_system_one_cell data cell p.1 p.2)
    Hstep cells (ScratchData_init n_face_q_points fes sol loc true, t0)
    Hu Hr Hall (And5 (erefl _) (erefl _) (erefl _) (erefl _) (erefl _)).
by exists p; split.
Qed.

(** X8.  In a supported dimension, on a mesh whose cells all have an
    invertible interior block and no two of whose cells share an interior
    unknown, all of them inside the interior vector, the reconstruction pass
    leaves in the unknowns of every cell the vector [LL^-1 * l_rhs] of that
    cell, where [l_rhs] holds the volume terms and the face terms folded in
    from the trace vector the pass started with; it keeps the size of the
    interior vector and every entry that belongs to no cell, and changes no
    other member. *)
Theorem reconstruction_pass_on_mesh (st : Step) :
  dim_supported dim ->
  uniq (interior_dofs (active_cells (triangulation st))) ->
  all (fun k => (k < size (solution_local st))%N)
    (interior_dofs (active_cells (triangulation st))) ->
  all (fun cell => cell_ll cell Sl \in unitmx) (active_cells (triangulation st)) ->
  exists st' : Step,
    [/\ assemble_system lib fes data true st = Ok st',
        st' = set_solution_local (solution_local st') st,
        size (solution_local st') = size (solution_local st),
        each (fun cell =>
                forall i,
                  nth 0 (solution_local st') (loc_dof_indices cell i)
                  = interior_solution data fes cell (solution st) i 0)
          (active_cells (triangulation st))
      & forall k,
          k \notin interior_dofs (active_cells (triangulation st)) ->
          nth 0 (solution_local st') k = nth 0 (solution_local st) k].
Proof.
move=> Hdim Hu Hr Hall; rewrite assemble_system_reconstruct.
have [p [-> Hsize Hval Hout]] :=
  reconstruct_cells (solution st) Hdim Hu Hr Hall.
by exists (set_solution_local (scratch_solution_local p.1) st); split.
Qed.

(** X16.  On such a mesh, when in addition every trace shape function
    vanishes on the faces where it reports no support, the interior unknowns
    [u] that the reconstruction pass leaves on a cell and the trace unknowns
    [lambda] of that cell satisfy the first block row of the uncondensed
    local system, [LL u + LF lambda = l_rhs], with the blocks of the
    assembly pass. *)
Theorem reconstruction_satisfies_local_equations (st : Step) :
  dim_supported dim ->
  uniq (interior_dofs (active_cells (triangulation st))) ->
  all (fun k => (k < size (solution_local st))%N)
    (interior_dofs (active_cells (triangulation st))) ->
  all (fun cell => cell_ll cell Sl \in unitmx) (active_cells (triangulation st)) ->
  each (fun cell : CellT =>
          forall face j q,
            ~~ fe_has_support_on_face fes j face ->
            shape_value (cell_face cell face) j q = 0)
    (active_cells (triangulation st)) ->
  exists st' : Step,
    assemble_system lib fes data true st = Ok st'
    /\ each (fun cell =>
               let u : 'cV[R]_loc_dofs_per_cell :=
                 \col_i nth 0 (solution_local st') (loc_dof_indices cell i) in
               cell_ll cell Sl *m u
               + cell_lf cell Sl Sf *m trace_unknowns cell (solution st)
               = cell_l_rhs cell data)
         (active_cells (triangulation st)).
Proof.
move=> Hdim Hu Hr Hall Hsupp.
rewrite assemble_system_reconstruct.
have [p [-> _ Hval _]] := reconstruct_cells (solution st) Hdim Hu Hr Hall.
exists (set_solution_local (scratch_solution_local p.1) st); split=> //.
apply: each_all Hall Hval Hsupp => cell Hll Hv Hs /=.
have -> : \col_i nth 0 (scratch_solution_local p.1) (loc_dof_indices cell i)
          = interior_solution data fes cell (solution st).
  by apply/matrixP=> i j; rewrite mxE Hv (ord1 j).
rewrite /interior_solution /= mulKVmx // (cell_trace_rhs_lf Hs).
by rewrite subrK.
Qed.

(** X18.  In a supported dimension either pass over the mesh succeeds
    exactly when the interior block of every cell is invertible, and
    otherwise stops at the first cell whose block is singular, with
    [ExcNotRegular]. *)
Theorem pass_fails_exactly_on_singular_block (trace_reconstruct : bool)
    (st : Step) :
  dim_supported dim ->
  if all (fun cell => cell_ll cell Sl \in unitmx)
       (active_cells (triangulation st))
  then exists st' : Step,
         assemble_system lib fes data trace_reconstruct st = Ok st'
  else assemble_system lib fes data trace_reconstruct st
       = Raise ExcNotRegular.
Proof.
move=> Hdim; rewrite /assemble_system.
pose Inv (p : Scratch * Task * Step) :=
  fe_local_support_on_face p.1.1 = Sl.
have Hok (cell : CellT) (a : Scratch * Task * Step) :
    Inv a -> cell_ll cell Sl \in unitmx ->
    exists b, worker_and_copier lib data cell a = Ok b /\ Inv b.
  case: a => [[s t] g]; rewrite /Inv /= => Hl Hll.
  have := @worker_fails_on_singular _ _ _ _ _ _ _ _ data cell s t Hdim.
  rewrite Hl Hll; case=> s' [t' [H Hs']].
  rewrite /worker_and_copier /= H /=.
  by eexists; split; first reflexivity; rewrite /= Hs'.
have Hfail (cell : CellT) (a : Scratch * Task * Step) :
    Inv a -> cell_ll cell Sl \notin unitmx ->
    worker_and_copier lib data cell a = Raise ExcNotRegular.
  case: a => [[s t] g]; rewrite /Inv /= => Hl Hll.
  by rewrite /worker_and_copier /= one_cell_singular // Hl.
have := @for_each_m_outcome _ _ Inv _ _ _ Hok Hfail
          (active_cells (triangulation st))
          (ScratchData_init n_face_q_points fes (solution st)
             (solution_local st) trace_reconstruct,
           PerTaskData_init R dofs_per_cell trace_reconstruct, st) (erefl _).
by case: ifP => _ => [[b ->]|->] //=; eexists.
Qed.

End MeshPasses.

(** ** Post-processing on a whole mesh *)

Section PostprocessMesh.

Variable R : realFieldType.
Variables (dim n_q_points loc_dofs_per_cell dofs_per_cell : nat).
Variables (n_face_q_points post_dofs post_q_points : nat).

Notation CellT :=
  (Cell R dim n_q_points loc_dofs_per_cell dofs_per_cell n_face_q_points
     post_dofs post_q_points).
Notation Step :=
  (Step51 R dim n_q_points loc_dofs_per_cell dofs_per_cell n_face_q_points
     post_dofs post_q_points).
Notation System := ('M[R]_(post_dofs.+1) * 'cV[R]_(post_dofs.+1))%type.

(** Every entry of the local system is assigned on every cell: what the
    previous cell left in [cell_matrix] and [cell_rhs] does not matter. *)
Lemma postprocess_system_overwrites (cell : CellT) (solution_local : seq R)
    (sys sys' : System) :
  postprocess_system cell solution_local sys
  = postprocess_system cell solution_local sys'.
Proof.
rewrite [LHS]surjective_pairing [RHS]surjective_pairing; congr (_, _).
  apply/matrixP=> a b.
  have [-> _] := postprocess_systemE cell solution_local sys a b.
  by have [-> _] := postprocess_systemE cell solution_local sys' a b.
apply/matrixP=> a b; rewrite (ord1 b).
have [_ ->] := postprocess_systemE cell solution_local sys a a.
by have [_ ->] := postprocess_systemE cell solution_local sys' a a.
Qed.

Lemma postprocess_cell_singular (cell : CellT) (solution_local : seq R)
    (st : PostState R post_dofs) :
  (postprocess_system cell solution_local (0, 0)).1 \notin unitmx ->
  postprocess_cell solution_local cell st = Raise ExcNotRegular.
Proof.
rewrite /postprocess_cell.
rewrite (postprocess_system_overwrites cell solution_local _ (0, 0)).
by move=> H; rewrite gauss_jordan_singular.
Qed.

Lemma postprocess_cell_regular (cell : CellT) (solution_local : seq R)
    (st : PostState R post_dofs) :
  (postprocess_system cell solution_local (0, 0)).1 \in unitmx ->
  exists st' : PostState R post_dofs,
    postprocess_cell solution_local cell st = Ok st'
    /\ st'.2
       = cell_distribute_local_to_global
           (post_dof_indices (fe_values_post cell))
           (recovery_solution cell solution_local) st.2.
Proof.
move=> H; rewrite /postprocess_cell.
rewrite (postprocess_system_overwrites cell solution_local _ (0, 0)).
by rewrite gauss_jordan_unit //=; eexists; split; first reflexivity.
Qed.

(** X9.  [postprocess] succeeds exactly when the local system of every cell
    is invertible, and otherwise stops with [ExcNotRegular]; whether a
    cell's system is invertible does not depend on the cells before it. *)
Theorem postprocess_fails_exactly_on_singular_system (st : Step) :
  if all (fun cell =>
            (postprocess_system cell (solution_local st) (0, 0)).1 \in unitmx)
       (active_cells (triangulation st))
  then exists st' : Step, postprocess st = Ok st'
  else postprocess st = Raise ExcNotRegular.
Proof.
rewrite /postprocess.
move: (0, 0, 0, solution_u_post st) => a.
elim: (active_cells (triangulation st)) a => [|cell cells IH] a /=.
  by eexists.
case Hc: (_ \in unitmx) => /=; last first.
  by rewrite postprocess_cell_singular ?Hc.
have [a' [-> _]] := postprocess_cell_regular a Hc.
exact: IH.
Qed.


End PostprocessMesh.

(** ** The skeleton block of a cell *)

Section SkeletonBlock.

Variable R : realFieldType.
Variables (dim n_q_points loc_dofs_per_cell dofs_per_cell : nat).
Variables (n_face_q_points post_dofs post_q_points : nat).

Notation Scratch := (ScratchData R dim loc_dofs_per_cell dofs_per_cell).
Notation CellT :=
  (Cell R dim n_q_points loc_dofs_per_cell dofs_per_cell n_face_q_points
     post_dofs post_q_points).

Variables (data : EquationData R dim) (cell : CellT).

(** The coefficient of the skeleton block is at most [-tau_stab_diffusion]. *)
Lemma skeleton_coefficient (convection normal : Tensor R dim) :
  dot convection normal - tau_stab convection normal <= - tau_stab_diffusion R.
Proof.
rewrite /tau_stab; have := ler_norm (dot convection normal).
move: (dot convection normal) `|dot convection normal| (tau_stab_diffusion R).
by move=> d n t Hd; lra.
Qed.

Lemma quadratic_delta (n : nat) (x : 'cV[R]_n) (a : R) (i j : 'I_n) :
  (x^T *m (a *: delta_mx i j) *m x) 0 0 = a * (x i 0 * x j 0).
Proof.
rewrite -mulmxA -scalemxAl delta_mx_mul_col scalerA -scalemxAr mxE.
rewrite -colE !mxE.
by ring.
Qed.

Lemma quadratic_sum (n : nat) (x : 'cV[R]_n) (I : Type) (r : seq I)
    (F : I -> 'M[R]_n) :
  (x^T *m (\sum_(i <- r) F i) *m x) 0 0
  = \sum_(i <- r) (x^T *m F i *m x) 0 0.
Proof. by rewrite mulmx_sumr mulmx_suml summxE. Qed.

Lemma face_ff_quadratic (fv : FEFaceValues R dim loc_dofs_per_cell
                                dofs_per_cell n_face_q_points)
    (S : seq 'I_dofs_per_cell) (q : 'I_n_face_q_points)
    (convection : Tensor R dim) (x : 'cV[R]_dofs_per_cell) :
  (x^T *m face_ff fv S q convection *m x) 0 0
  = (dot convection (normal_vector fv q)
     - tau_stab convection (normal_vector fv q))
    * face_JxW fv q * (\sum_(i <- S) shape_value fv i q * x i 0) ^+ 2.
Proof.
rewrite /face_ff quadratic_sum expr2 big_distrlr /= mulr_sumr.
apply: eq_bigr => i _; rewrite quadratic_sum mulr_sumr.
apply: eq_bigr => j _; rewrite quadratic_delta.
by rewrite -!mulrA; congr (_ * _); rewrite !mulrA; ring.
Qed.

Lemma face_ff_symmetric (fv : FEFaceValues R dim loc_dofs_per_cell
                                dofs_per_cell n_face_q_points)
    (S : seq 'I_dofs_per_cell) (q : 'I_n_face_q_points)
    (convection : Tensor R dim) :
  (face_ff fv S q convection)^T = face_ff fv S q convection.
Proof.
rewrite /face_ff raddf_sum /= exchange_big /=.
apply: eq_bigr => i _; rewrite raddf_sum /=.
apply: eq_bigr => j _; rewrite linearZ /= trmx_delta; congr (_ *: _).
by rewrite -!mulrA; congr (_ * _); rewrite !mulrA; ring.
Qed.

(** X11.  On the assembly pass, in a supported dimension, the skeleton block
    [ff_matrix] that the loops of a cell fill is symmetric, and when no face
    quadrature weight is negative it is negative semidefinite: the
    coefficient [convection . n - tau_stab] of every term is at most [-5]. *)
Theorem skeleton_block_symmetric_nonpositive (s : Scratch) :
  dim_supported dim -> scratch_trace_reconstruct s = false ->
  (forall face q, 0 <= face_JxW (cell_face cell face) q) ->
  exists blocks : Scratch,
    [/\ assemble_local_blocks data cell s = Ok blocks,
        (ff_matrix blocks)^T = ff_matrix blocks
      & forall x : 'cV[R]_dofs_per_cell,
          (x^T *m ff_matrix blocks *m x) 0 0 <= 0].
Proof.
move=> Hdim Hs Hw.
have [b [Hb _ [_ _ _ Hff] _ _]] :=
  assemble_local_blocks_assembly data cell Hdim Hs.
exists b; split=> //; rewrite Hff /cell_ff.
  rewrite raddf_sum /=; apply: eq_bigr => face _.
  by rewrite raddf_sum /=; apply: eq_bigr => q _; apply: face_ff_symmetric.
move=> x; rewrite mulmx_sumr mulmx_suml summxE.
apply: sumr_le0 => face _; rewrite mulmx_sumr mulmx_suml summxE.
apply: sumr_le0 => q _; rewrite face_ff_quadratic.
apply: mulr_le0_ge0; last exact: sqr_ge0.
apply: mulr_le0_ge0 => //.
apply: le_trans (skeleton_coefficient _ _) _.
by rewrite oppr_le0 /tau_stab_diffusion ler0n.
Qed.

End SkeletonBlock.

(** ** Setting up and solving *)

Section SetupAndSolve.

Variable R : realFieldType.
Variables (dim n_q_points loc_dofs_per_cell dofs_per_cell : nat).
Variables (n_face_q_points post_dofs post_q_points : nat).

Notation CellT :=
  (Cell R dim n_q_points loc_dofs_per_cell dofs_per_cell n_face_q_points
     post_dofs post_q_points).
Notation Step :=
  (Step51 R dim n_q_points loc_dofs_per_cell dofs_per_cell n_face_q_points
     post_dofs post_q_points).
Notation Lib :=
  (Library R dim n_q_points loc_dofs_per_cell dofs_per_cell n_face_q_points
     post_dofs post_q_points).

Variables (lib : Lib) (fes : FiniteElements dim loc_dofs_per_cell dofs_per_cell).
Variable data : EquationData R dim.

(** X12.  [setup_system] reads nothing but the mesh: two solver objects with
    the same mesh and the same refinement mode are set up to the same
    state, whatever their vectors, constraints and matrices held before.  In
    particular nothing of the previous cycle survives it, its four vectors
    are zero, and setting up twice is setting up once. *)
Theorem setup_system_depends_only_on_the_mesh (dofs_per_face : nat)
    (st1 st2 : Step) :
  triangulation st1 = triangulation st2 ->
  refinement_mode st1 = refinement_mode st2 ->
  [/\ setup_system lib dofs_per_face data st1
      = setup_system lib dofs_per_face data st2,
      setup_system lib dofs_per_face data
        (setup_system lib dofs_per_face data st1)
      = setup_system lib dofs_per_face data st1
    & let st' := setup_system lib dofs_per_face data st1 in
      [/\ solution st' = nseq (n_dofs (triangulation st1)) 0,
          system_rhs st' = nseq (n_dofs (triangulation st1)) 0,
          solution_local st' = nseq (n_dofs_local (triangulation st1)) 0
        & solution_u_post st' = nseq (n_dofs_u_post (triangulation st1)) 0]].
Proof.
case: st1 => t1 c1 p1 m1 s1 r1 l1 u1 f1; case: st2 => t2 c2 p2 m2 s2 r2 l2 u2 f2.
by rewrite /= => -> ->.
Qed.

(** X13.  When the solver has returned [x], on a mesh as in the
    reconstruction pass, [solve] returns the trace vector [x] after the
    constraints have been distributed to it, and the interior unknowns of
    every cell are those of the local solve for that distributed vector, not
    for the vector the solver returned. *)
Theorem solve_reconstructs_from_distributed_trace (st : Step) (x : seq R) :
  dim_supported dim ->
  SolverGMRES_solve lib (matrix_m (system_matrix st) * 10)%N
    ((10 ^+ 10)^-1 * l2_norm lib (system_rhs st)) (system_matrix st)
    (solution st) (system_rhs st) = Ok x ->
  uniq (interior_dofs (active_cells (triangulation st))) ->
  all (fun k => (k < size (solution_local st))%N)
    (interior_dofs (active_cells (triangulation st))) ->
  all (fun cell => cell_ll cell (local_support_of fes) \in unitmx)
    (active_cells (triangulation st)) ->
  exists st' : Step,
    [/\ solve lib fes data st = Ok st',
        solution st' = distribute lib (constraints st) x
      & each (fun cell =>
                forall i,
                  nth 0 (solution_local st') (loc_dof_indices cell i)
                  = interior_solution data fes cell
                      (distribute lib (constraints st) x) i 0)
          (active_cells (triangulation st))].
Proof.
move=> Hdim Hx Hu Hr Hall; rewrite /solve Hx /=.
rewrite assemble_system_reconstruct /=.
have [p [-> _ Hval _]] :=
  @reconstruct_cells _ _ _ _ _ _ _ _ fes data
    (active_cells (triangulation st)) (distribute lib (constraints st) x)
    (solution_local st) Hdim Hu Hr Hall.
by eexists; split; first reflexivity.
Qed.

End SetupAndSolve.

(** ** The equation data *)

Section ManufacturedSolutionFacts.

Variable R : realFieldType.
Variable dim : nat.
Variables (exp : R -> R) (sqrt_two_pi : R).
Variable source_centers : seq (Point R dim).

Lemma dotZr (a : R) (x y : Tensor R dim) : dot x (a *: y) = a * dot x y.
Proof.
rewrite /dot mulr_sumr; apply: eq_bigr => d _.
by rewrite !mxE mulrCA.
Qed.

Lemma dotZl (a : R) (x y : Tensor R dim) : dot (a *: x) y = a * dot x y.
Proof.
rewrite /dot mulr_sumr; apply: eq_bigr => d _.
by rewrite !mxE mulrA.
Qed.

Lemma dot_sumr (I : Type) (r : seq I) (x : Tensor R dim)
    (F : I -> Tensor R dim) :
  dot x (\sum_(i <- r) F i) = \sum_(i <- r) dot x (F i).
Proof.
rewrite /dot exchange_big /=; apply: eq_bigr => d _.
by rewrite summxE mulr_sumr.
Qed.

Lemma dot0l (x : Tensor R dim) : dot 0 x = 0.
Proof. by rewrite /dot big1 // => d _; rewrite mxE mul0r. Qed.

(** X14.  The source term is the manufactured one for the exact solution:
    for every convection vector, [RightHandSide::value] is the contraction
    of the convection with [Solution::gradient] plus the value the same
    formula gives without convection; and [RightHandSide::value] returns it
    for the convection of the point in the dimensions the convection
    supports, and fails otherwise. *)
Theorem source_is_convection_of_gradient_plus_diffusion
    (convection : Tensor R dim) (p : Point R dim) :
  RightHandSide_sum exp sqrt_two_pi source_centers convection p
  = dot convection (Solution_gradient exp sqrt_two_pi source_centers p)
    + RightHandSide_sum exp sqrt_two_pi source_centers 0 p
  /\ RightHandSide_value (example_data exp sqrt_two_pi source_centers) p
     = if dim_supported dim
       then Ok (dot (convection_field p)
                  (Solution_gradient exp sqrt_two_pi source_centers p)
                + RightHandSide_sum exp sqrt_two_pi source_centers 0 p)
       else Raise ExcNotImplemented.
Proof.
have H c :
    RightHandSide_sum exp sqrt_two_pi source_centers c p
    = dot c (Solution_gradient exp sqrt_two_pi source_centers p)
      + RightHandSide_sum exp sqrt_two_pi source_centers 0 p.
  pose x i : Point R dim := p - nth 0 source_centers i.
  pose e i : R := exp (- square (x i) / (width R * width R)).
  rewrite /RightHandSide_sum /Solution_gradient /=.
  rewrite (for_each_accumulate (iota 0 n_source_centers)
             (fun i => ((2 * dim)%:R - dot (2 *: c) (x i)
                        - 4 * square (x i) / (width R * width R))
                       / (width R * width R) * e i)).
  rewrite (for_each_accumulate (iota 0 n_source_centers)
             (fun i => (- 2 / (width R * width R) * e i) *: x i)).
  rewrite (for_each_accumulate (iota 0 n_source_centers)
             (fun i => ((2 * dim)%:R - dot (2 *: (0 : Tensor R dim)) (x i)
                        - 4 * square (x i) / (width R * width R))
                       / (width R * width R) * e i)).
  rewrite !add0r dotZr dot_sumr [LHS]mulrC [X in _ + X]mulrC -mulrDr.
  rewrite -big_split /=; congr (_ * _).
  apply: eq_bigr => i _.
  by rewrite dotZr dotZl scaler0 dot0l; ring.
split=> //.
case Hdim: (dim_supported dim).
  by rewrite RightHandSide_value_supported // /source_field /= H.
by rewrite RightHandSide_value_unsupported // Hdim.
Qed.

End ManufacturedSolutionFacts.

(** ** The names of the output files *)

Section OutputNamesFacts.

Local Open Scope string_scope.

Variable int_to_string : nat -> nat -> String.string.

Lemma append_cancel_l (s x y : String.string) :
  String.append s x = String.append s y -> x = y.
Proof. by elim: s => [|c s IH] //= [/IH]. Qed.

Lemma length_append (x y : String.string) :
  String.length (String.append x y) = (String.length x + String.length y)%N.
Proof. by elim: x => [|c x IH] //=; rewrite IH. Qed.

Lemma append_cancel_r (s x y : String.string) :
  String.append x s = String.append y s -> x = y.
Proof.
elim: x y => [|c x IH] [|d y] //=.
- move/(congr1 String.length); rewrite /= length_append -addSn => /eqP.
  by rewrite -[X in X == _]add0n eqn_add2r.
- move/(congr1 String.length); rewrite /= length_append -addSn => /eqP.
  by rewrite -[X in _ == X]add0n eqn_add2r.
- by case=> -> /IH ->.
Qed.

(** X15.  The file of the cell data and the file of the face data never have
    the same name, whatever the modes, degrees and cycles; the two
    refinement modes never write to the same file; and with the mode and
    the degree fixed, two cycles write to the same file exactly when the
    library renders their numbers alike. *)
Theorem output_file_names_collide_only_with_the_cycle_number
    (mode mode' : RefinementMode) (degree degree' cycle cycle' : nat) :
  let names := output_file_names int_to_string mode degree cycle in
  [/\ names.1 <> (output_file_names int_to_string mode' degree' cycle').2,
      mode <> mode' ->
      names.1 <> (output_file_names int_to_string mode' degree' cycle').1
      /\ names.2 <> (output_file_names int_to_string mode' degree' cycle').2,
      names.1 = (output_file_names int_to_string mode degree cycle').1
      <-> int_to_string cycle 2 = int_to_string cycle' 2
    & names.2 = (output_file_names int_to_string mode degree cycle').2
      <-> int_to_string cycle 2 = int_to_string cycle' 2].
Proof.
rewrite /output_file_names /=; split.
- by case: mode; case: mode'.
- by case: mode; case: mode' => // _; split.
- split=> [|->] //.
  by move/append_cancel_r/append_cancel_l => /= -[].
- split=> [|->] //.
  by move/append_cancel_r/append_cancel_l => /= -[].
Qed.

End OutputNamesFacts.

(** ** The caches stay within their bounds *)

Section CacheBounds.

Variable R : realFieldType.
Variables (dim n_q_points loc_dofs_per_cell dofs_per_cell : nat).
Variables (n_face_q_points post_dofs post_q_points : nat).

Notation Scratch := (ScratchData R dim loc_dofs_per_cell dofs_per_cell).
Notation Task := (PerTaskData R dofs_per_cell).
Notation CellT :=
  (Cell R dim n_q_points loc_dofs_per_cell dofs_per_cell n_face_q_points
     post_dofs post_q_points).
Notation sized := (@caches_sized R dim loc_dofs_per_cell dofs_per_cell
                     n_face_q_points).

Variable data : EquationData R dim.

(** Writes at positions inside a vector keep its size. *)
Lemma size_fill (K X : Type) (x0 : X) (key : K -> nat) (F : K -> X)
    (r : seq K) (a : seq X) :
  each (fun k => (key k < size a)%N) r ->
  size (for_each r (fun k a => set_nth x0 a (key k) (F k)) a) = size a.
Proof.
elim: r a => [|k r IH] a //= [Hk Hr].
have Hs : size (set_nth x0 a (key k) (F k)) = size a.
  by rewrite size_set_nth; apply/maxn_idPr.
by rewrite for_each_cons IH Hs.
Qed.

Lemma each_enum_ord (n m : nat) : (n <= m)%N ->
  each (fun k : 'I_n => (k < m)%N) (enum 'I_n).
Proof.
move=> Hn; elim: (enum 'I_n) => [|k r IH] //=; split=> //.
exact: leq_trans (ltn_ord k) Hn.
Qed.

Lemma each_enumerate (T : Type) (s : seq T) (m : nat) : (size s <= m)%N ->
  each (fun k : nat * T => (k.1 < m)%N) (enumerate s).
Proof.
rewrite /enumerate => Hs.
have : all (fun i => i < m)%N (iota 0 (size s)).
  by apply/allP => i; rewrite mem_iota /= add0n => Hi; apply: leq_trans Hs.
move: (iota 0 (size s)) => r {Hs}.
elim: r s => [|i r IH] [|x s] //= /andP [Hi Hr].
by split=> //; apply: IH.
Qed.

Lemma size_support (n : nat) (S : seq 'I_n) : uniq S -> (size S <= n)%N.
Proof.
by move=> /card_uniqP <-; rewrite -[X in (_ <= X)%N]card_ord max_card.
Qed.

(** The interior quadrature point. *)
Lemma volume_point_sized (fv : FEValues_local R dim n_q_points loc_dofs_per_cell)
    (q : 'I_n_q_points) (rhs_value : R) (convection : Tensor R dim)
    (s : Scratch) :
  sized s -> sized (assemble_volume_point fv q rhs_value convection s).
Proof.
case=> H1 H2 H3 H4 [H5 H6].
have Hk m : m = loc_dofs_per_cell ->
    each (fun k : 'I_loc_dofs_per_cell => (k < m)%N) (enum 'I_loc_dofs_per_cell).
  by move=> ->; apply: each_enum_ord.
rewrite /assemble_volume_point /volume_accumulate; split; [| | | |split].
- rewrite for_each_frame; first by move=> ? ?; frame_loop.
  rewrite /volume_fill_caches (for_each_proj (get := @q_phi _ _ _ _)
    (step := fun (k : 'I_loc_dofs_per_cell) a =>
               set_nth 0 a k (fluxes_value fv k q))) //.
  by rewrite size_fill //; apply: Hk.
- rewrite for_each_frame; first by move=> ? ?; frame_loop.
  rewrite /volume_fill_caches (for_each_proj (get := @q_phi_div _ _ _ _)
    (step := fun (k : 'I_loc_dofs_per_cell) a =>
               set_nth 0 a k (fluxes_divergence fv k q))) //.
  by rewrite size_fill //; apply: Hk.
- rewrite for_each_frame; first by move=> ? ?; frame_loop.
  rewrite /volume_fill_caches (for_each_proj (get := @u_phi _ _ _ _)
    (step := fun (k : 'I_loc_dofs_per_cell) a =>
               set_nth 0 a k (scalar_value fv k q))) //.
  by rewrite size_fill //; apply: Hk.
- rewrite for_each_frame; first by move=> ? ?; frame_loop.
  rewrite /volume_fill_caches (for_each_proj (get := @u_phi_grad _ _ _ _)
    (step := fun (k : 'I_loc_dofs_per_cell) a =>
               set_nth 0 a k (scalar_gradient fv k q))) //.
  by rewrite size_fill //; apply: Hk.
- by rewrite /volume_fill_caches; frame_loop.
- by rewrite /volume_fill_caches; frame_loop.
Qed.

(** The face quadrature point. *)
Section FacePoint.

Variable fv : FEFaceValues R dim loc_dofs_per_cell dofs_per_cell n_face_q_points.
Variables (q : 'I_n_face_q_points) (convection : Tensor R dim).
Variables (Sl : seq 'I_loc_dofs_per_cell) (Sf : seq 'I_dofs_per_cell).
Variable s : Scratch.

Hypothesis Hs : sized s.
Hypothesis Hl : (size Sl <= loc_dofs_per_cell)%N.
Hypothesis Hf : (size Sf <= dofs_per_cell)%N.

Lemma face_fill_local_sized : sized (face_fill_local fv q (enumerate Sl) s).
Proof.
case: Hs => H1 H2 H3 H4 [H5 H6].
rewrite /face_fill_local; split; [| | | |split]; try by frame_loop.
- rewrite (for_each_proj (get := @q_phi _ _ _ _)
    (step := fun (k : nat * 'I_loc_dofs_per_cell) a =>
               set_nth 0 a k.1 (face_fluxes_value fv k.2 q))) //.
  by rewrite size_fill //; apply: each_enumerate; rewrite H1.
- rewrite (for_each_proj (get := @u_phi _ _ _ _)
    (step := fun (k : nat * 'I_loc_dofs_per_cell) a =>
               set_nth 0 a k.1 (face_scalar_value fv k.2 q))) //.
  by rewrite size_fill //; apply: each_enumerate; rewrite H3.
Qed.

Lemma face_fill_trace_sized : sized (face_fill_trace fv q (enumerate Sf) s).
Proof.
case: Hs => H1 H2 H3 H4 [H5 H6].
rewrite /face_fill_trace; split; [| | | |split]; try by frame_loop.
rewrite (for_each_proj (get := @tr_phi _ _ _ _)
  (step := fun (k : nat * 'I_dofs_per_cell) a =>
             set_nth 0 a k.1 (shape_value fv k.2 q))) //.
by rewrite size_fill //; apply: each_enumerate; rewrite H5.
Qed.

(** The loops that accumulate into the blocks read the caches only. *)
Lemma face_couple_sized :
  sized (face_couple fv q convection (enumerate Sl) (enumerate Sf) s).
Proof.
case: Hs => H1 H2 H3 H4 [H5 H6].
by rewrite /face_couple; split; [| | | |split]; frame_loop.
Qed.

Lemma face_skeleton_sized :
  sized (face_skeleton fv q convection (enumerate Sf) s).
Proof.
case: Hs => H1 H2 H3 H4 [H5 H6].
by rewrite /face_skeleton; split; [| | | |split]; frame_loop.
Qed.

Lemma face_neumann_loop_sized :
  sized (face_neumann_loop fv q (enumerate Sf) data s).
Proof.
case: Hs => H1 H2 H3 H4 [H5 H6].
by rewrite /face_neumann_loop; split; [| | | |split]; frame_loop.
Qed.

Lemma face_penalty_sized :
  sized (face_penalty fv q convection (enumerate Sl) s).
Proof.
case: Hs => H1 H2 H3 H4 [H5 H6].
by rewrite /face_penalty; split; [| | | |split]; frame_loop.
Qed.

Lemma face_fold_trace_sized :
  sized (face_fold_trace fv q convection (enumerate Sl) s).
Proof.
case: Hs => H1 H2 H3 H4 [H5 H6].
by rewrite /face_fold_trace; split; [| | | |split]; frame_loop.
Qed.

End FacePoint.

Lemma face_point_sized
    (fv : FEFaceValues R dim loc_dofs_per_cell dofs_per_cell n_face_q_points)
    (face : 'I_(faces_per_cell dim)) (q : 'I_n_face_q_points)
    (convection : Tensor R dim) (s : Scratch) :
  sized s ->
  uniq (fe_local_support_on_face s face) -> uniq (fe_support_on_face s face) ->
  sized (assemble_face_point data fv face q convection s).
Proof.
move=> Hs /size_support Hl /size_support Hf; rewrite /assemble_face_point.
have H1 := face_fill_local_sized fv q Hs Hl.
case Hflag: (scratch_trace_reconstruct s).
  rewrite stages_reconstruct //.
  by apply: face_fold_trace_sized; apply: face_penalty_sized.
rewrite stages_assemble //; apply: face_penalty_sized.
have H2 : sized
    (face_skeleton fv q convection (enumerate (fe_support_on_face s face))
       (face_couple fv q convection
          (enumerate (fe_local_support_on_face s face))
          (enumerate (fe_support_on_face s face))
          (face_fill_trace fv q (enumerate (fe_support_on_face s face))
             (face_fill_local fv q
                (enumerate (fe_local_support_on_face s face)) s)))).
  apply: face_skeleton_sized; apply: face_couple_sized.
  exact: face_fill_trace_sized.
by rewrite /=; case: (neumann_face fv) => //; apply: face_neumann_loop_sized.
Qed.

(** The loops of a cell. *)
Section Cell.

Variable cell : CellT.
Variable s0 : Scratch.

Hypothesis Hl : forall face, uniq (fe_local_support_on_face s0 face).
Hypothesis Hf : forall face, uniq (fe_support_on_face s0 face).

(** The caches have their sizes and the support lists are those of [s0]. *)
Local Notation Inv s := (sized s /\ same_context s s0).

Lemma volume_q_sized (q : 'I_n_q_points) (s s' : Scratch) :
  Inv s -> assemble_volume_q data (fe_values_local cell) q s = Ok s' -> Inv s'.
Proof.
case=> Hs Hc H; split; last first.
  by apply: same_context_trans Hc; case: (volume_q_frame H).
move: H; rewrite /assemble_volume_q.
case: (RightHandSide_value _ _) => [rhs|] //=.
case: (ConvectionVelocity_value _) => [c|] //= [<-].
exact: volume_point_sized.
Qed.

Lemma face_q_sized (face : 'I_(faces_per_cell dim)) (q : 'I_n_face_q_points)
    (s s' : Scratch) :
  Inv s -> assemble_face_q data (cell_face cell face) face q s = Ok s' ->
  Inv s'.
Proof.
case=> Hs Hc H; split; last first.
  by apply: same_context_trans Hc; case: (face_q_frame H).
move: H; rewrite /assemble_face_q.
case: (ConvectionVelocity_value _) => [c|] //= [<-].
case: Hc => _ _ Hsl Hsf _.
by apply: face_point_sized => //; rewrite ?Hsl ?Hsf.
Qed.

Lemma read_trace_sized (face : 'I_(faces_per_cell dim)) (s : Scratch) :
  Inv s -> Inv (read_trace cell face s).
Proof.
case=> [[H1 H2 H3 H4 [H5 H6]] Hc]; split; last first.
  exact: same_context_trans (read_trace_context cell face s) Hc.
rewrite /read_trace; case: ifP => _ //; split=> //=; split=> //.
by rewrite /get_function_values size_map size_enum_ord.
Qed.

Lemma assemble_face_sized (face : 'I_(faces_per_cell dim)) (s s' : Scratch) :
  Inv s -> assemble_face data cell face s = Ok s' -> Inv s'.
Proof.
move=> Hs; rewrite /assemble_face.
apply: (for_each_m_invariant (Inv := fun a => Inv a)) (read_trace_sized face Hs).
by move=> q a b; apply: face_q_sized.
Qed.

Lemma assemble_local_blocks_sized (s' : Scratch) :
  sized s0 -> assemble_local_blocks data cell s0 = Ok s' -> Inv s'.
Proof.
move=> Hs; rewrite /assemble_local_blocks.
case Hv: (for_each_m _ _ _) => [s1|] //=.
apply: (for_each_m_invariant (Inv := fun a => Inv a)).
  by move=> face a b; apply: assemble_face_sized.
apply: (for_each_m_invariant (Inv := fun a => Inv a)) Hv.
  by move=> q a b; apply: volume_q_sized.
split; last exact: reset_context.
by case: Hs => H1 H2 H3 H4 [H5 H6]; rewrite /reset_blocks /=; case: ifP.
Qed.

End Cell.

(** X17.  Every write of the worker to the caches of the scratch data is
    inside the size that the constructor gave them: when the support lists
    are free of duplicates, caches that have these sizes on entry have them
    on exit, on either pass and in any dimension. *)
Theorem worker_keeps_the_caches_in_bounds (cell : CellT) (s s' : Scratch)
    (t t' : Task) :
  sized s ->
  (forall face, uniq (fe_local_support_on_face s face)) ->
  (forall face, uniq (fe_support_on_face s face)) ->
  assemble_system_one_cell data cell s t = Ok (s', t') ->
  sized s'.
Proof.
move=> Hs Hl Hf; rewrite /assemble_system_one_cell.
case Hb: (assemble_local_blocks _ _ _) => [b|] //=.
have [[H1 H2 H3 H4 [H5 H6]] _] := assemble_local_blocks_sized Hl Hf Hs Hb.
rewrite /condense_or_reconstruct.
case: (gauss_jordan _) => [inv|] //=.
by case: ifP => _ [<- _].
Qed.

End CacheBounds.

(** ** The further properties on the concrete element *)

Lemma uniq_local_support_of (dim n m : nat) (fes : FiniteElements dim n m)
    (face : 'I_(faces_per_cell dim)) :
  uniq (local_support_of fes face).
Proof. by rewrite filter_uniq // enum_uniq. Qed.

Lemma uniq_support_of (dim n m : nat) (fes : FiniteElements dim n m)
    (face : 'I_(faces_per_cell dim)) :
  uniq (support_of fes face).
Proof. by rewrite filter_uniq // enum_uniq. Qed.

Lemma interval_mesh_ll_unit :
  all (fun cell => cell_ll cell (local_support_of Interval.elements)
                     \in unitmx)
    (active_cells (triangulation Interval.state)).
Proof. by rewrite /= andbT; apply: (interval_ll_unit false). Qed.

Lemma interval_interior_dofs :
  interior_dofs (active_cells (triangulation Interval.state)) = [:: 0; 1]%N.
Proof. by rewrite /interior_dofs /= !enum_ordSl enum_ord0. Qed.

Lemma interval_recovery_dofs :
  recovery_dofs (active_cells (triangulation Interval.state)) = [:: 0; 1]%N.
Proof. by rewrite /recovery_dofs /= !enum_ordSl enum_ord0. Qed.

Lemma interval_mesh_post_unit :
  all (fun cell =>
         (postprocess_system cell (solution_local Interval.state) (0, 0)).1
           \in unitmx)
    (active_cells (triangulation Interval.state)).
Proof.
apply/andP; split=> //.
by rewrite interval_post_system; apply: interval_post_unit.
Qed.

Lemma face_coupling_on_interval :
  [/\ dim_supported 1,
      scratch_trace_reconstruct (Interval.scratch false) = false,
      uniq (fe_local_support_on_face (Interval.scratch false) ord0)
    & uniq (fe_support_on_face (Interval.scratch false) ord0)]
  /\ exists s' : ScratchData rat 1 2 2,
       assemble_face_q Interval.equation_data (Interval.face_values ord0)
         ord0 ord0 (Interval.scratch false) = Ok s'.
Proof.
split.
  by split=> //; [exact: uniq_local_support_of | exact: uniq_support_of].
have [s' [H _]] :=
  @face_point_couples_interior_and_skeleton _ _ _ _ _
    Interval.equation_data (Interval.face_values ord0) ord0 ord0
    (Interval.scratch false) isT (erefl _)
    (uniq_local_support_of Interval.elements ord0)
    (uniq_support_of Interval.elements ord0).
by exists s'.
Defined.

Lemma face_skeleton_on_interval :
  (dim_supported 1
   /\ uniq (fe_support_on_face (Interval.scratch false) ord0))
  /\ exists s' : ScratchData rat 1 2 2,
       assemble_face_q Interval.equation_data (Interval.face_values ord0)
         ord0 ord0 (Interval.scratch false) = Ok s'.
Proof.
split; first by split=> //; exact: uniq_support_of.
have [s' [H _]] :=
  @face_point_skeleton_block _ _ _ _ _
    Interval.equation_data (Interval.face_values ord0) ord0 ord0
    (Interval.scratch false) isT (uniq_support_of Interval.elements ord0).
by exists s'.
Defined.

Lemma face_penalty_on_interval :
  (dim_supported 1
   /\ uniq (fe_local_support_on_face (Interval.scratch true) ord0))
  /\ exists s' : ScratchData rat 1 2 2,
       assemble_face_q Interval.equation_data (Interval.face_values ord0)
         ord0 ord0 (Interval.scratch true) = Ok s'.
Proof.
split; first by split=> //; exact: uniq_local_support_of.
have [s' [H _]] :=
  @face_point_penalty _ _ _ _ _
    Interval.equation_data (Interval.face_values ord0) ord0 ord0
    (Interval.scratch true) isT (uniq_local_support_of Interval.elements ord0).
by exists s'.
Defined.

Lemma worker_outcome_on_interval :
  dim_supported 1
  /\ exists (s' : ScratchData rat 1 2 2) (t' : PerTaskData rat 2),
       assemble_system_one_cell Interval.equation_data Interval.cell
         (Interval.scratch false) (Interval.task false) = Ok (s', t').
Proof.
split=> //.
have := @worker_fails_exactly_on_singular_block _ _ _ _ _ _ _ _
          Interval.equation_data Interval.cell (Interval.scratch false)
          (Interval.task false) isT.
by rewrite (interval_ll_unit false).
Defined.

Lemma stale_scratch_on_interval :
  let stale := set_ff_matrix 1 (set_ll_matrix 1 (Interval.scratch false)) in
  (dim_supported 1 /\ same_context (Interval.scratch false) stale)
  /\ match assemble_system_one_cell Interval.equation_data Interval.cell
             (Interval.scratch false) (Interval.task false),
           assemble_system_one_cell Interval.equation_data Interval.cell
             stale (Interval.task false) with
     | Ok (_, t1'), Ok (_, t2') => t1' = t2'
     | Raise e1, Raise e2 => e1 = e2
     | _, _ => False
     end.
Proof.
move=> stale; split; first by split.
have := @worker_ignores_stale_scratch _ _ _ _ _ _ _ _
          Interval.equation_data Interval.cell (Interval.scratch false)
          stale (Interval.task false) isT
          (And5 (erefl _) (erefl _) (erefl _) (erefl _) (erefl _)).
case: (assemble_system_one_cell _ _ _ _) => [[s1 t1]|e1];
case: (assemble_system_one_cell _ _ _ _) => [[s2 t2]|e2] //.
by case.
Defined.

Lemma assembly_frame_on_interval :
  let lib := idle_library rat 1 1 2 2 1 1 1 in
  let st' :=
    for_each (active_cells (triangulation Interval.state))
      (fun cell g =>
         copy_local_to_global lib
           (condensed_task Interval.equation_data Interval.elements cell) g)
      Interval.state in
  assemble_system lib Interval.elements Interval.equation_data false
    Interval.state = Ok st'
  /\ st' = set_system_rhs (system_rhs st')
             (set_system_matrix (system_matrix st') Interval.state).
Proof.
move=> lib st'.
have H : assemble_system lib Interval.elements Interval.equation_data false
           Interval.state = Ok st'.
  have [s' [t' Hloop]] :=
    @assembly_loop _ _ _ _ _ _ _ _ lib Interval.elements
      Interval.equation_data (active_cells (triangulation Interval.state))
      (ScratchData_init 1 Interval.elements (solution Interval.state)
         (solution_local Interval.state) false)
      (PerTaskData_init rat 2 false) Interval.state isT
      (And4 (erefl _) (erefl _) (erefl _) (erefl _)) (erefl _)
      interval_mesh_ll_unit.
  by rewrite /assemble_system Hloop.
split; first exact: H.
exact: (@assembly_pass_changes_only_the_skeleton_system _ _ _ _ _ _ _ _ lib
          Interval.elements Interval.equation_data Interval.state st' H).
Defined.

Lemma assembly_closed_form_on_interval :
  let lib := idle_library rat 1 1 2 2 1 1 1 in
  (dim_supported 1
   /\ all (fun cell => cell_ll cell (local_support_of Interval.elements)
                         \in unitmx)
        (active_cells (triangulation Interval.state)))
  /\ assemble_system lib Interval.elements Interval.equation_data false
       Interval.state
     = Ok (for_each (active_cells (triangulation Interval.state))
             (fun cell g =>
                copy_local_to_global lib
                  (condensed_task Interval.equation_data Interval.elements
                     cell) g)
             Interval.state).
Proof.
move=> lib; split; first by split=> //; exact: interval_mesh_ll_unit.
exact: (@assembly_pass_in_closed_form _ _ _ _ _ _ _ _ lib Interval.elements
          Interval.equation_data Interval.state isT interval_mesh_ll_unit).
Defined.

Lemma interval_interior_uniq :
  uniq (interior_dofs (active_cells (triangulation Interval.state))).
Proof. by rewrite interval_interior_dofs. Qed.

Lemma interval_interior_range :
  all (fun k => (k < size (solution_local Interval.state))%N)
    (interior_dofs (active_cells (triangulation Interval.state))).
Proof. by rewrite interval_interior_dofs. Qed.

Lemma interval_recovery_uniq :
  uniq (recovery_dofs (active_cells (triangulation Interval.state))).
Proof. by rewrite interval_recovery_dofs. Qed.

Lemma interval_recovery_range :
  all (fun k => (k < size (solution_u_post Interval.state))%N)
    (recovery_dofs (active_cells (triangulation Interval.state))).
Proof. by rewrite interval_recovery_dofs. Qed.

Lemma reconstruction_on_interval_mesh :
  let lib := idle_library rat 1 1 2 2 1 1 1 in
  [/\ dim_supported 1,
      uniq (interior_dofs (active_cells (triangulation Interval.state))),
      all (fun k => (k < size (solution_local Interval.state))%N)
        (interior_dofs (active_cells (triangulation Interval.state)))
    & all (fun cell => cell_ll cell (local_support_of Interval.elements)
                         \in unitmx)
        (active_cells (triangulation Interval.state))]
  /\ exists st' : Step51 rat 1 1 2 2 1 1 1,
       assemble_system lib Interval.elements Interval.equation_data true
         Interval.state = Ok st'
       /\ forall i,
            nth 0 (solution_local st') (loc_dof_indices Interval.cell i)
            = interior_solution Interval.equation_data Interval.elements
                Interval.cell (solution Interval.state) i 0.
Proof.
move=> lib; split.
  split=> //; [exact: interval_interior_uniq | exact: interval_interior_range
              | exact: interval_mesh_ll_unit].
have [st' [H _ _ [Hv _] _]] :=
  @reconstruction_pass_on_mesh _ _ _ _ _ _ _ _ lib Interval.elements
    Interval.equation_data Interval.state isT interval_interior_uniq
    interval_interior_range interval_mesh_ll_unit.
by exists st'.
Defined.


Lemma interval_weights (face : 'I_(faces_per_cell 1)) (q : 'I_1) :
  0 <= face_JxW (cell_face Interval.cell face) q.
Proof. by []. Qed.

Lemma skeleton_block_on_interval :
  [/\ dim_supported 1,
      scratch_trace_reconstruct (Interval.scratch false) = false
    & forall face q, 0 <= face_JxW (cell_face Interval.cell face) q]
  /\ exists blocks : ScratchData rat 1 2 2,
       [/\ assemble_local_blocks Interval.equation_data Interval.cell
             (Interval.scratch false) = Ok blocks,
           (ff_matrix blocks)^T = ff_matrix blocks
         & forall x : 'cV[rat]_2, (x^T *m ff_matrix blocks *m x) 0 0 <= 0].
Proof.
split; first by split=> //; exact: interval_weights.
exact: (@skeleton_block_symmetric_nonpositive _ _ _ _ _ _ _ _
          Interval.equation_data Interval.cell (Interval.scratch false) isT
          (erefl _) interval_weights).
Defined.

Lemma setup_system_on_interval :
  let lib := idle_library rat 1 1 2 2 1 1 1 in
  let other := set_system_rhs [:: 1] (set_solution [::] Interval.state) in
  (triangulation Interval.state = triangulation other
   /\ refinement_mode Interval.state = refinement_mode other)
  /\ setup_system lib 1 Interval.equation_data Interval.state
     = setup_system lib 1 Interval.equation_data other.
Proof.
move=> lib other; split; first by split.
by have [H _ _] :=
  @setup_system_depends_only_on_the_mesh _ _ _ _ _ _ _ _ lib
    Interval.equation_data 1 Interval.state other (erefl _) (erefl _).
Defined.

Lemma solve_reconstructs_on_interval :
  let lib := idle_library rat 1 1 2 2 1 1 1 in
  [/\ dim_supported 1,
      SolverGMRES_solve lib (matrix_m (system_matrix Interval.state) * 10)%N
        ((10 ^+ 10)^-1 * l2_norm lib (system_rhs Interval.state))
        (system_matrix Interval.state) (solution Interval.state)
        (system_rhs Interval.state) = Ok Interval.trace_vector,
      uniq (interior_dofs (active_cells (triangulation Interval.state)))
    & all (fun k => (k < size (solution_local Interval.state))%N)
        (interior_dofs (active_cells (triangulation Interval.state)))
      /\ all (fun cell => cell_ll cell (local_support_of Interval.elements)
                            \in unitmx)
           (active_cells (triangulation Interval.state))]
  /\ exists st' : Step51 rat 1 1 2 2 1 1 1,
       solve lib Interval.elements Interval.equation_data Interval.state
       = Ok st'
       /\ solution st' = Interval.trace_vector.
Proof.
move=> lib; split.
  split=> //; first exact: interval_interior_uniq.
  by split; [exact: interval_interior_range | exact: interval_mesh_ll_unit].
have [st' [H Hs _]] :=
  @solve_reconstructs_from_distributed_trace _ _ _ _ _ _ _ _ lib
    Interval.elements Interval.equation_data Interval.state
    Interval.trace_vector isT (erefl _) interval_interior_uniq
    interval_interior_range interval_mesh_ll_unit.
by exists st'.
Defined.

Lemma interval_mesh_trace_support :
  each (fun cell : Cell rat 1 1 2 2 1 1 1 =>
          forall face j q,
            ~~ fe_has_support_on_face Interval.elements j face ->
            shape_value (cell_face cell face) j q = 0)
    (active_cells (triangulation Interval.state)).
Proof. by split=> // face j q; apply: interval_trace_support. Qed.

Lemma local_equations_on_interval_mesh :
  let lib := idle_library rat 1 1 2 2 1 1 1 in
  [/\ dim_supported 1,
      uniq (interior_dofs (active_cells (triangulation Interval.state))),
      all (fun k => (k < size (solution_local Interval.state))%N)
        (interior_dofs (active_cells (triangulation Interval.state))),
      all (fun cell => cell_ll cell (local_support_of Interval.elements)
                         \in unitmx)
        (active_cells (triangulation Interval.state))
    & each (fun cell : Cell rat 1 1 2 2 1 1 1 =>
              forall face j q,
                ~~ fe_has_support_on_face Interval.elements j face ->
                shape_value (cell_face cell face) j q = 0)
        (active_cells (triangulation Interval.state))]
  /\ exists st' : Step51 rat 1 1 2 2 1 1 1,
       assemble_system lib Interval.elements Interval.equation_data true
         Interval.state = Ok st'
       /\ let u : 'cV[rat]_2 :=
            \col_i nth 0 (solution_local st')
                     (loc_dof_indices Interval.cell i) in
          cell_ll Interval.cell (local_support_of Interval.elements) *m u
          + cell_lf Interval.cell (local_support_of Interval.elements)
              (support_of Interval.elements)
            *m trace_unknowns Interval.cell (solution Interval.state)
          = cell_l_rhs Interval.cell Interval.equation_data.
Proof.
move=> lib; split.
  split=> //; [exact: interval_interior_uniq | exact: interval_interior_range
              | exact: interval_mesh_ll_unit
              | exact: interval_mesh_trace_support].
have [st' [H [Hv _]]] :=
  @reconstruction_satisfies_local_equations _ _ _ _ _ _ _ _ lib
    Interval.elements Interval.equation_data Interval.state isT
    interval_interior_uniq interval_interior_range interval_mesh_ll_unit
    interval_mesh_trace_support.
by exists st'.
Defined.

Lemma interval_scratch_sized (tr : bool) :
  @caches_sized rat 1 2 2 1 (Interval.scratch tr).
Proof. by []. Qed.

Lemma cache_bounds_on_interval :
  [/\ @caches_sized rat 1 2 2 1 (Interval.scratch false),
      forall face, uniq (fe_local_support_on_face (Interval.scratch false) face)
    & forall face, uniq (fe_support_on_face (Interval.scratch false) face)]
  /\ exists (s' : ScratchData rat 1 2 2) (t' : PerTaskData rat 2),
       assemble_system_one_cell Interval.equation_data Interval.cell
         (Interval.scratch false) (Interval.task false) = Ok (s', t')
       /\ @caches_sized rat 1 2 2 1 s'.
Proof.
split.
  split; first exact: interval_scratch_sized.
    by move=> face; apply: uniq_local_support_of.
  by move=> face; apply: uniq_support_of.
have [s' [H _]] :=
  @one_cell_assembly _ _ _ _ _ _ _ _ Interval.equation_data Interval.cell
    (Interval.scratch false) (Interval.task false) isT (erefl _)
    (interval_ll_unit false).
eexists; eexists; split; first exact: H.
exact: (@worker_keeps_the_caches_in_bounds _ _ _ _ _ _ _ _
          Interval.equation_data Interval.cell (Interval.scratch false) s'
          (Interval.task false) _ (interval_scratch_sized false)
          (uniq_local_support_of Interval.elements)
          (uniq_support_of Interval.elements) H).
Defined.

Lemma pass_outcome_on_interval :
  let lib := idle_library rat 1 1 2 2 1 1 1 in
  dim_supported 1
  /\ exists st' : Step51 rat 1 1 2 2 1 1 1,
       assemble_system lib Interval.elements Interval.equation_data false
         Interval.state = Ok st'.
Proof.
move=> lib; split=> //.
have := @pass_fails_exactly_on_singular_block _ _ _ _ _ _ _ _ lib
          Interval.elements Interval.equation_data false Interval.state isT.
by rewrite interval_mesh_ll_unit.
Defined.
